(** * SafeVault: a namespaced, expiring key-value facade over Web Storage

    A shallow embedding of [src/index.ts] (class [SafeVault]) and the
    properties its specification states about it.

    The class is a thin layer over a host [Storage] object.  Every method is
    a short, synchronous sequence of host calls, most of them wrapped in
    [try]/[catch], so the embedding is a state-and-exception monad over

    - the host store (an ordered association list with an optional quota,
      shared by all vaults that were constructed over it),
    - the subscription registry of the instance ([Map<string, Set<fn>>]),
    - the clock read by [Date.now()], and
    - a log of the calls made to user supplied functions (subscriber
      callbacks, the [onError] hook, [console.error], updater functions).

    What the JavaScript host provides ([JSON.stringify], [JSON.parse], the
    numeric coercion of strings and arrays) is a parameter, the record
    [Platform]; a reference instance over a small JSON codec is defined
    below and is used wherever a statement is evaluated at a concrete input.

    Modelling decisions:
    - numbers are integers ([Z]); timestamps and times to live are
      milliseconds. Sums and differences are exact, as they are in the source
      on the safe integers (up to [2^53 - 1] in absolute value), which every
      value of the clock is; a statement about the value of a sum assumes
      that range;
    - a value read from JSON text has no callable property, so converting an
      object with an own [toString] to a number throws a [TypeError], and
      so does converting an array that holds one;
    - a user supplied function (subscriber, updater, [onError] hook, encode
      and decode) is what the vault can observe of it, whether it returns
      or throws, and it does not call back into the vault;
    - of the host store only [setItem] throws (the quota); reading,
      enumerating and deleting do not;
    - the clock does not advance inside a single method call.

    Layout: the model ([Storage], [SafeVault], [RefJSON]); the vocabulary of
    the specification and the concrete inputs; lemmas on the host store and
    on the effects of the methods; the proof that the reference codec reads
    back what it writes; the properties of the specification, each with the
    identifier it has there; scenarios; the properties of the single
    methods that the specification leaves open. *)

From Stdlib Require Import ZArith String Ascii List Bool Lia.
From Stdlib Require Import DecimalString DecimalN DecimalPos DecimalFacts.
From stdpp Require Import base option list strings gmap pretty.

Local Open Scope string_scope.
Local Open Scope Z_scope.

(** ** JavaScript values *)

(** A JSON-representable value. The field list of [JObj] holds the own
    properties of the object in enumeration order. *)
#[warnings="-register-all"]
Inductive JSON : Type :=
| JNull
| JBool (b : bool)
| JNum (n : Z)
| JStr (s : string)
| JArr (items : list JSON)
| JObj (fields : list (string * JSON)).

(** What a property read or a method of the vault can produce: a JSON value
    or [undefined]. *)
Inductive JSVal : Type :=
| Undefined
| Json (j : JSON).

Abbreviation null := (Json JNull).

(** Thrown values. [UserError] stands for whatever a user supplied function
    throws. *)
Inductive Exn : Type :=
| SyntaxError
| TypeError
| QuotaExceededError
| EnvironmentError
| UserError (msg : string).

(** The outcome of a call: a normal return or a throw. *)
Inductive Res (A : Type) : Type :=
| Ret (a : A)
| Throw (e : Exn).
Arguments Ret {A} a.
Arguments Throw {A} e.

(** [x === null] *)
Definition is_null (v : JSVal) : bool :=
  match v with
  | Json JNull => true
  | _ => false
  end.

(** Truthiness of a JavaScript value, as used by [||] and [?:]. *)
Definition truthy (v : JSVal) : bool :=
  match v with
  | Undefined => false
  | Json JNull => false
  | Json (JBool b) => b
  | Json (JNum n) => negb (n =? 0)
  | Json (JStr s) => negb (String.eqb s "")
  | Json (JArr _) => true
  | Json (JObj _) => true
  end.

(** ** The host platform *)

Record Platform : Type := {
  (** [JSON.stringify(v)] on a JSON-representable value *)
  JSON_stringify : JSON -> string;
  (** [JSON.parse(text)]; [None] when it throws a [SyntaxError] *)
  JSON_parse : string -> option JSON;
  (** [JSON.stringify(obj, null, 2)] of the object assembled from the given
      key/value pairs by successive assignments [obj[k] = v] *)
  JSON_stringify_entries : list (string * JSVal) -> string;
  (** [Number(s)] for a string, rounded down; [None] for [NaN] *)
  StringToNumber : string -> option Z;
  (** [Number(a)] for an array, rounded down; [None] for [NaN] *)
  ArrayToNumber : list JSON -> option Z
}.

(** Converting a value read from JSON text to a primitive throws a
    [TypeError] when no callable method yields one: for an object with an
    own property [toString] (which is not a function), and for an array one
    of whose elements cannot be converted, since [join] converts each
    element. *)
Fixpoint unconvertible (j : JSON) : bool :=
  match j with
  | JObj fields => existsb (fun kv => String.eqb (fst kv) "toString") fields
  | JArr items => existsb unconvertible items
  | _ => false
  end.

(** What the conversion of [v] to a number throws, in a comparison with a
    number or in a subtraction. *)
Definition coerce (v : JSVal) : Res unit :=
  match v with
  | Json j => if unconvertible j then Throw TypeError else Ret tt
  | Undefined => Ret tt
  end.

(** [Number(v)] for a value whose conversion returns; [None] is [NaN]. *)
Definition ToNumber (P : Platform) (v : JSVal) : option Z :=
  match v with
  | Undefined => None
  | Json JNull => Some 0
  | Json (JBool b) => Some (if b then 1 else 0)
  | Json (JNum n) => Some n
  | Json (JStr s) => StringToNumber P s
  | Json (JArr a) => ArrayToNumber P a
  | Json (JObj _) => None
  end.

(** [n > v] for a number [n] and a value whose conversion returns: false
    when [v] converts to [NaN]. *)
Definition js_gt (P : Platform) (n : Z) (v : JSVal) : bool :=
  match ToNumber P v with
  | Some m => m <? n
  | None => false
  end.

(** Reading one of the envelope's properties ([value], [expiry], [version],
    [metadata]) off a parsed value [d]: a [TypeError] on [null], [undefined]
    on primitives, arrays and objects without such an own property. *)
Fixpoint lookup_field (name : string) (fields : list (string * JSON)) : JSVal :=
  match fields with
  | [] => Undefined
  | (k, v) :: rest => if String.eqb k name then Json v else lookup_field name rest
  end.

Definition get_prop (name : string) (d : JSON) : Res JSVal :=
  match d with
  | JNull => Throw TypeError
  | JObj fields => Ret (lookup_field name fields)
  | _ => Ret Undefined
  end.

(** [Object.entries(d)] *)
Definition index_entries {A} (f : A -> JSON) (l : list A) : list (string * JSON) :=
  imap (fun i x => (pretty i, f x)) l.

Definition Object_entries (d : JSON) : Res (list (string * JSON)) :=
  match d with
  | JNull => Throw TypeError
  | JObj fields => Ret fields
  | JArr items => Ret (index_entries (fun x => x) items)
  | JStr s => Ret (index_entries (fun ch => JStr (String ch EmptyString)) (list_ascii_of_string s))
  | JBool _ | JNum _ => Ret []
  end.

(** ** The host store

    [Storage] of the Web Storage API: string keys, string values, an
    enumeration order, and a quota that makes [setItem] throw. *)
Module Storage.

Record t : Type := {
  items : list (string * string);
  capacity : option nat
}.

Definition length (s : t) : nat := List.length (items s).

Definition key (i : nat) (s : t) : option string :=
  fst <$> items s !! i.

Fixpoint assoc (k : string) (l : list (string * string)) : option string :=
  match l with
  | [] => None
  | (k', v) :: rest => if String.eqb k' k then Some v else assoc k rest
  end.

Definition getItem (k : string) (s : t) : option string := assoc k (items s).

Definition has_key (k : string) (l : list (string * string)) : bool :=
  existsb (fun kv => String.eqb (fst kv) k) l.

Definition put (k v : string) (l : list (string * string)) : list (string * string) :=
  if has_key k l
  then map (fun kv => if String.eqb (fst kv) k then (k, v) else kv) l
  else l ++ [(k, v)].

Definition usage (l : list (string * string)) : nat :=
  foldr (fun kv acc => (String.length (fst kv) + String.length (snd kv) + acc)%nat) 0%nat l.

Definition fits (cap : option nat) (l : list (string * string)) : bool :=
  match cap with
  | None => true
  | Some n => (usage l <=? n)%nat
  end.

Definition setItem (k v : string) (s : t) : Res t :=
  let l := put k v (items s) in
  if fits (capacity s) l
  then Ret {| items := l; capacity := capacity s |}
  else Throw QuotaExceededError.

Definition removeItem (k : string) (s : t) : t :=
  {| items := List.filter (fun kv => negb (String.eqb (fst kv) k)) (items s);
     capacity := capacity s |}.

Definition empty : t := {| items := []; capacity := None |}.

End Storage.

(** ** The vault *)

(** A subscriber callback. [cb_id] stands for the identity of the function
    object (a [Set] holds each function once); [cb_run v] tells whether the
    call [callback(v)] returns or throws. *)
Record Callback : Type := {
  cb_id : nat;
  cb_run : JSVal -> Res unit
}.

(** [options.encryption] *)
Record Cipher : Type := {
  encrypt : string -> Res string;
  decrypt : string -> Res string
}.

(** The private fields set by the constructor and never changed. *)
Record Config : Type := {
  prefix : string;
  version : string;
  encryption : option Cipher;
  onError : option (Exn -> string -> string -> Res unit)
}.

(** [SafeVaultOptions] *)
Record Options : Type := {
  opt_prefix : option string;
  opt_version : option string;
  opt_encryption : option Cipher;
  opt_onError : option (Exn -> string -> string -> Res unit)
}.

(** Calls to user supplied functions and to the console, in order. *)
Inductive Event : Type :=
| EvNotify (key : string) (id : nat) (v : JSVal)
| EvOnError (e : Exn) (operation key : string)
| EvConsoleError (operation key : string) (e : Exn)
| EvUpdater (current : JSVal).

Record State : Type := {
  storage : Storage.t;
  listeners : gmap string (list Callback);
  now : Z;
  log : list Event
}.

Definition with_storage (st : Storage.t) (s : State) : State :=
  {| storage := st; listeners := listeners s; now := now s; log := log s |}.

Definition with_listeners (l : gmap string (list Callback)) (s : State) : State :=
  {| storage := storage s; listeners := l; now := now s; log := log s |}.

Definition with_log (l : list Event) (s : State) : State :=
  {| storage := storage s; listeners := listeners s; now := now s; log := l |}.

(** The environment lets time pass between two calls. *)
Definition at_time (t : Z) (s : State) : State :=
  {| storage := storage s; listeners := listeners s; now := t; log := log s |}.

(** *** Computations that read and write the state and may throw *)

Definition M (A : Type) : Type := State -> State * Res A.

Definition ret {A} (a : A) : M A := fun s => (s, Ret a).

Definition throw {A} (e : Exn) : M A := fun s => (s, Throw e).

Definition bind {A B} (m : M A) (f : A -> M B) : M B :=
  fun s =>
    match m s with
    | (s', Ret a) => f a s'
    | (s', Throw e) => (s', Throw e)
    end.

(** [try { m } catch (error) { h error }]: what [m] did before it threw
    stays done. *)
Definition try_catch {A} (m : M A) (h : Exn -> M A) : M A :=
  fun s =>
    match m s with
    | (s', Ret a) => (s', Ret a)
    | (s', Throw e) => h e s'
    end.

Definition lift {A} (r : Res A) : M A := fun s => (s, r).

Definition emit (ev : Event) : M unit :=
  fun s => (with_log (log s ++ [ev]) s, Ret tt).

Definition Date_now : M Z := fun s => (s, Ret (now s)).

Declare Scope vault_scope.
Delimit Scope vault_scope with vault.
Notation "x <- m ;; k" := (bind m (fun x => k))
  (at level 100, m at next level, right associativity) : vault_scope.
Notation "m ;; k" := (bind m (fun _ => k))
  (at level 100, right associativity) : vault_scope.

Local Open Scope vault_scope.

(** [list.forEach(f)] *)
Fixpoint forEach {A} (f : A -> M unit) (l : list A) : M unit :=
  match l with
  | [] => ret tt
  | x :: rest => f x ;; forEach f rest
  end.

(** [list.map(f)] for an effectful [f] *)
Fixpoint mapM {A B} (f : A -> M B) (l : list A) : M (list B) :=
  match l with
  | [] => ret []
  | x :: rest => y <- f x ;; ys <- mapM f rest ;; ret (y :: ys)
  end.

(** The calls on [this.storage] *)
Definition storage_getItem (k : string) : M (option string) :=
  fun s => (s, Ret (Storage.getItem k (storage s))).

Definition storage_setItem (k v : string) : M unit :=
  fun s =>
    match Storage.setItem k v (storage s) with
    | Ret st => (with_storage st s, Ret tt)
    | Throw e => (s, Throw e)
    end.

Definition storage_removeItem (k : string) : M unit :=
  fun s => (with_storage (Storage.removeItem k (storage s)) s, Ret tt).

(** [!item] for [item : string | null] *)
Definition no_item (item : option string) : bool :=
  match item with
  | None => true
  | Some raw => String.eqb raw ""
  end.

Definition item_text (item : option string) : string :=
  match item with
  | None => ""
  | Some raw => raw
  end.

(** [s.substring(n)] *)
Fixpoint substring_from (n : nat) (s : string) : string :=
  match n, s with
  | O, _ => s
  | S n', String _ rest => substring_from n' rest
  | S _, EmptyString => EmptyString
  end.

(** [v !== s] for a string [s] *)
Definition differs_from_string (v : JSVal) (s : string) : bool :=
  match v with
  | Json (JStr s') => negb (String.eqb s' s)
  | _ => true
  end.

(** The record written under a key: [{ value, expiry, version, metadata }]
    as [JSON.stringify] sees it, which leaves out a property whose value is
    [undefined]. *)
Definition envelope (value : JSVal) (expiry : JSON) (ver : string)
    (metadata : option JSON) : JSON :=
  JObj (match value with Json v => [("value", v)] | Undefined => [] end
        ++ [("expiry", expiry); ("version", JStr ver)]
        ++ match metadata with Some m => [("metadata", m)] | None => [] end).

(** [VaultStats] *)
Record VaultStats : Type := {
  totalKeys : nat;
  expiredKeys : nat;
  size : nat;
  stat_keys : list string
}.

Module SafeVault.
Section Methods.

Variable P : Platform.
Variable c : Config.

(** [this.encryption ? this.encryption.encrypt(data) : data] *)
Definition encode (serialized : string) : Res string :=
  match encryption c with
  | Some enc => encrypt enc serialized
  | None => Ret serialized
  end.

(** [this.encryption ? this.encryption.decrypt(item) : item] *)
Definition decode (item : string) : Res string :=
  match encryption c with
  | Some enc => decrypt enc item
  | None => Ret item
  end.

(** [JSON.parse(text)] as a call that may throw *)
Definition parse (text : string) : Res JSON :=
  match JSON_parse P text with
  | Some d => Ret d
  | None => Throw SyntaxError
  end.

(** [data.expiry !== null && Date.now() > data.expiry]: the comparison
    converts the expiry to a number, which can throw. *)
Definition check_expiry (t : Z) (expiry : JSVal) : Res bool :=
  if is_null expiry then Ret false else
  match coerce expiry with
  | Ret _ => Ret (js_gt P t expiry)
  | Throw e => Throw e
  end.

(** The test of the expiry returns [true]. *)
Definition expired (t : Z) (expiry : JSVal) : bool :=
  match check_expiry t expiry with
  | Ret due => due
  | Throw _ => false
  end.

Definition getKey (key : string) : string := prefix c ++ key.

Definition getAllKeys : M (list string) :=
  fun s =>
    let push (keys : list string) (i : nat) : list string :=
      match Storage.key i (storage s) with
      | Some k =>
          if negb (String.eqb k "") && String.prefix (prefix c) k
          then (keys ++ [k])%list else keys
      | None => keys
      end in
    (s, Ret (foldl push [] (seq 0 (Storage.length (storage s))))).

Fixpoint call_each (key : string) (value : JSVal) (callbacks : list Callback) : M unit :=
  match callbacks with
  | [] => ret tt
  | cb :: rest =>
      emit (EvNotify key (cb_id cb) value) ;;
      lift (cb_run cb value) ;;
      call_each key value rest
  end.

Definition notifyListeners (key : string) (value : JSVal) : M unit :=
  fun s =>
    match listeners s !! key with
    | Some callbacks => call_each key value callbacks s
    | None => (s, Ret tt)
    end.

Definition handleError (error : Exn) (operation key : string) : M unit :=
  match onError c with
  | Some hook =>
      emit (EvOnError error operation key) ;;
      lift (hook error operation key)
  | None => emit (EvConsoleError operation key error)
  end.

Definition set (key : string) (value : JSVal) (ttl : option Z)
    (metadata : option JSON) : M bool :=
  try_catch
    (t <- Date_now ;;
     let expiry := match ttl with Some ms => JNum (t + ms) | None => JNull end in
     let data := envelope value expiry (version c) metadata in
     let serialized := JSON_stringify P data in
     finalData <- lift (encode serialized) ;;
     storage_setItem (getKey key) finalData ;;
     notifyListeners key value ;;
     ret true)
    (fun error => handleError error "set" key ;; ret false).

Definition remove (key : string) : M unit :=
  storage_removeItem (getKey key) ;;
  notifyListeners key null.

Definition get (key : string) : M JSVal :=
  try_catch
    (item <- storage_getItem (getKey key) ;;
     if no_item item then ret null else
     decrypted <- lift (decode (item_text item)) ;;
     data <- lift (parse decrypted) ;;
     expiry <- lift (get_prop "expiry" data) ;;
     t <- Date_now ;;
     due <- lift (check_expiry t expiry) ;;
     if due then
       remove key ;; ret null
     else
       ver <- lift (get_prop "version" data) ;;
       (if truthy ver && differs_from_string ver (version c)
        then ret tt (* migration hook, empty in the source *)
        else ret tt) ;;
       lift (get_prop "value" data))
    (fun error =>
       handleError error "get" key ;;
       storage_removeItem (getKey key) ;;
       ret null).

Definition getOrDefault (key : string) (defaultValue : JSVal) : M JSVal :=
  value <- get key ;;
  ret (if negb (is_null value) then value else defaultValue).

Definition has (key : string) : M bool :=
  value <- get key ;;
  ret (negb (is_null value)).

Definition getMetadata (key : string) : M JSVal :=
  try_catch
    (item <- storage_getItem (getKey key) ;;
     if no_item item then ret null else
     decrypted <- lift (decode (item_text item)) ;;
     data <- lift (parse decrypted) ;;
     metadata <- lift (get_prop "metadata" data) ;;
     ret (if truthy metadata then metadata else null))
    (fun _ => ret null).

Definition update (key : string) (updater : JSVal -> Res JSVal) : M bool :=
  current <- get key ;;
  if is_null current then ret false else
  emit (EvUpdater current) ;;
  updated <- lift (updater current) ;;
  set key updated None None.

Definition setIfAbsent (key : string) (value : JSVal) (ttl : option Z) : M bool :=
  present <- has key ;;
  if present then ret false else set key value ttl None.

Definition removeMany (keys : list string) : M unit :=
  forEach remove keys.

Definition clear : M unit :=
  keys <- getAllKeys ;;
  forEach storage_removeItem keys ;;
  (fun s => (with_listeners ∅ s, Ret tt)).

Definition keys : M (list string) :=
  all <- getAllKeys ;;
  ret (map (substring_from (String.length (prefix c))) all).

Definition entries : M (list (string * JSVal)) :=
  ks <- keys ;;
  pairs <- mapM (fun key => value <- get key ;; ret (key, value)) ks ;;
  ret (List.filter (fun kv => negb (is_null (snd kv))) pairs).

(** One turn of the loop of [cleanupExpired]; [count] is the local
    counter. *)
Definition cleanup_step (count : nat) (fullKey : string) : M nat :=
  try_catch
    (item <- storage_getItem fullKey ;;
     if no_item item then ret count else
     decrypted <- lift (decode (item_text item)) ;;
     data <- lift (parse decrypted) ;;
     expiry <- lift (get_prop "expiry" data) ;;
     t <- Date_now ;;
     due <- lift (check_expiry t expiry) ;;
     if due then
       storage_removeItem fullKey ;; ret (S count)
     else ret count)
    (fun _ => storage_removeItem fullKey ;; ret (S count)).

Fixpoint cleanup_loop (count : nat) (fullKeys : list string) : M nat :=
  match fullKeys with
  | [] => ret count
  | fullKey :: rest =>
      count' <- cleanup_step count fullKey ;;
      cleanup_loop count' rest
  end.

Definition cleanupExpired : M nat :=
  all <- getAllKeys ;;
  cleanup_loop 0%nat all.

(** One turn of the loop of [getStats]; the pair holds the locals
    [totalSize] and [expiredCount]. The size is added before anything can
    throw. *)
Definition stats_step (acc : nat * nat) (fullKey : string) : M (nat * nat) :=
  item <- storage_getItem fullKey ;;
  if no_item item then ret acc else
  let total := (fst acc + String.length (item_text item) * 2)%nat in
  try_catch
    (decrypted <- lift (decode (item_text item)) ;;
     data <- lift (parse decrypted) ;;
     expiry <- lift (get_prop "expiry" data) ;;
     t <- Date_now ;;
     due <- lift (check_expiry t expiry) ;;
     ret (total, if due then S (snd acc) else snd acc))
    (fun _ => ret (total, S (snd acc))).

Fixpoint stats_loop (acc : nat * nat) (fullKeys : list string) : M (nat * nat) :=
  match fullKeys with
  | [] => ret acc
  | fullKey :: rest =>
      acc' <- stats_step acc fullKey ;;
      stats_loop acc' rest
  end.

Definition getStats : M VaultStats :=
  all <- getAllKeys ;;
  acc <- stats_loop (0%nat, 0%nat) all ;;
  ret {| totalKeys := List.length all;
         expiredKeys := snd acc;
         size := fst acc;
         stat_keys := map (substring_from (String.length (prefix c))) all |}.

(** [callbacks.add(callback)]: a [Set] keeps a function once, at the place
    where it was first added. *)
Definition set_add (cb : Callback) (callbacks : list Callback) : list Callback :=
  if existsb (fun x => Nat.eqb (cb_id x) (cb_id cb)) callbacks
  then callbacks else callbacks ++ [cb].

Definition set_delete (cb : Callback) (callbacks : list Callback) : list Callback :=
  List.filter (fun x => negb (Nat.eqb (cb_id x) (cb_id cb))) callbacks.

Definition subscribe (key : string) (callback : Callback) : M unit :=
  fun s =>
    let registry :=
      match listeners s !! key with
      | Some _ => listeners s
      | None => <[key := []]> (listeners s)
      end in
    let callbacks := default [] (registry !! key) in
    (with_listeners (<[key := set_add callback callbacks]> registry) s, Ret tt).

(** The function returned by [subscribe key callback]. *)
Definition unsubscribe (key : string) (callback : Callback) : M unit :=
  fun s =>
    match listeners s !! key with
    | Some callbacks =>
        let callbacks' := set_delete callback callbacks in
        if Nat.eqb (List.length callbacks') 0
        then (with_listeners (delete key (listeners s)) s, Ret tt)
        else (with_listeners (<[key := callbacks']> (listeners s)) s, Ret tt)
    | None => (s, Ret tt)
    end.

Definition export : M string :=
  es <- entries ;;
  ret (JSON_stringify_entries P es).

Definition import (jsonData : string) (merge : bool) : M bool :=
  try_catch
    (data <- lift (parse jsonData) ;;
     (if negb merge then clear else ret tt) ;;
     pairs <- lift (Object_entries data) ;;
     forEach (fun kv => set (fst kv) (Json (snd kv)) None None ;; ret tt) pairs ;;
     ret true)
    (fun error => handleError error "import" "batch" ;; ret false).

(** [null] is [None]. *)
Definition getTTL (key : string) : M (option Z) :=
  try_catch
    (item <- storage_getItem (getKey key) ;;
     if no_item item then ret None else
     decrypted <- lift (decode (item_text item)) ;;
     data <- lift (parse decrypted) ;;
     expiry <- lift (get_prop "expiry" data) ;;
     if is_null expiry then ret None else
     t <- Date_now ;;
     lift (coerce expiry) ;;
     ret (Some (match ToNumber P expiry with
                | Some e => if 0 <? e - t then e - t else 0
                | None => 0
                end)))
    (fun _ => ret None).

Definition extendTTL (key : string) (additionalMs : Z) : M bool :=
  current <- get key ;;
  if is_null current then ret false else
  currentTTL <- getTTL key ;;
  let newTTL :=
    match currentTTL with
    | Some remaining => if remaining =? 0 then additionalMs else remaining + additionalMs
    | None => additionalMs
    end in
  set key current (Some newTTL) None.

End Methods.

(** [options.prefix || 'sv_'], [options.version || '1.0.0'] *)
Definition or_default (o : option string) (d : string) : string :=
  match o with
  | Some s => if String.eqb s "" then d else s
  | None => d
  end.

Definition configure (o : Options) : Config :=
  {| prefix := or_default (opt_prefix o) "sv_";
     version := or_default (opt_version o) "1.0.0";
     encryption := opt_encryption o;
     onError := opt_onError o |}.

(** [new SafeVault(storage, options)]; [window] tells whether the global
    [window] is defined. The new instance has no subscribers. *)
Definition constructor (P : Platform) (window : bool) (o : Options) : M Config :=
  if negb window then throw EnvironmentError else
  (fun s => (with_listeners ∅ s, Ret tt)) ;;
  cleanupExpired P (configure o) ;;
  ret (configure o).

End SafeVault.

(** ** A reference platform

    A JSON codec for the values of type [JSON], used to evaluate the methods
    at concrete inputs. It covers integer literals and text of single-byte
    characters; a number with a fraction or an exponent and an escape above
    [\u007f] are rejected, which is outside what the model represents. *)
Module RefJSON.

Definition dquote : ascii := "034"%char.

Definition hex_digit (n : N) : ascii :=
  match n with
  | 0 => "0" | 1 => "1" | 2 => "2" | 3 => "3" | 4 => "4" | 5 => "5"
  | 6 => "6" | 7 => "7" | 8 => "8" | 9 => "9" | 10 => "a" | 11 => "b"
  | 12 => "c" | 13 => "d" | 14 => "e" | _ => "f"
  end%N%char.

Definition escape_char (ch : ascii) : string :=
  let n := N_of_ascii ch in
  if (n =? 34)%N then String "\" (String dquote "")
  else if (n =? 92)%N then "\\"
  else if (n =? 8)%N then "\b"
  else if (n =? 12)%N then "\f"
  else if (n =? 10)%N then "\n"
  else if (n =? 13)%N then "\r"
  else if (n =? 9)%N then "\t"
  else if (n <? 32)%N then
    "\u00" ++ String (hex_digit (n / 16)) (String (hex_digit (n mod 16)) "")
  else String ch "".

Fixpoint escape (s : string) : string :=
  match s with
  | EmptyString => ""
  | String ch rest => escape_char ch ++ escape rest
  end.

Definition quote (s : string) : string :=
  String dquote (escape s ++ String dquote "").

(** Decimal digits of a number, without leading zeros. *)
Definition print_N (n : N) : string := NilEmpty.string_of_uint (N.to_uint n).

Definition print_Z (z : Z) : string :=
  match z with
  | Zneg p => String "-" (print_N (Npos p))
  | _ => print_N (Z.to_N z)
  end.

(** The number written by a string of decimal digits. *)
Definition read_N (ds : string) : option N :=
  match NilEmpty.uint_of_string ds with
  | Some d => Some (N.of_uint d)
  | None => None
  end.

(** The parts after the first one, each behind a separator. *)
Fixpoint join_more (sep : string) (parts : list string) : string :=
  match parts with
  | [] => ""
  | p :: rest => sep ++ p ++ join_more sep rest
  end.

Definition join (sep : string) (parts : list string) : string :=
  match parts with
  | [] => ""
  | p :: rest => p ++ join_more sep rest
  end.

Fixpoint stringify (v : JSON) : string :=
  match v with
  | JNull => "null"
  | JBool true => "true"
  | JBool false => "false"
  | JNum n => print_Z n
  | JStr s => quote s
  | JArr items => "[" ++ join "," (map stringify items) ++ "]"
  | JObj fields =>
      "{" ++ join "," (map (fun kv => quote (fst kv) ++ ":" ++ stringify (snd kv)) fields) ++ "}"
  end.

(** [JSON.stringify(v, null, 2)] at nesting depth [depth] *)
Fixpoint spaces (n : nat) : string :=
  match n with
  | O => ""
  | S n' => String " " (spaces n')
  end.

Definition newline : string := String "010"%char "".

Fixpoint stringify_indent (depth : nat) (v : JSON) : string :=
  let inner := newline ++ spaces (2 * S depth) in
  let outer := newline ++ spaces (2 * depth) in
  match v with
  | JArr [] => "[]"
  | JArr items =>
      "[" ++ inner
      ++ join ("," ++ inner) (map (stringify_indent (S depth)) items)
      ++ outer ++ "]"
  | JObj [] => "{}"
  | JObj fields =>
      "{" ++ inner
      ++ join ("," ++ inner)
           (map (fun kv => quote (fst kv) ++ ": " ++ stringify_indent (S depth) (snd kv)) fields)
      ++ outer ++ "}"
  | _ => stringify v
  end.

(** *** Property order of an object

    Assigning to a property that exists keeps its place; integer-like
    keys are enumerated first, in ascending order. *)
Fixpoint assign {A} (k : string) (v : A) (fields : list (string * A)) : list (string * A) :=
  match fields with
  | [] => [(k, v)]
  | (k', v') :: rest =>
      if String.eqb k' k then (k, v) :: rest else (k', v') :: assign k v rest
  end.

Definition is_digit (ch : ascii) : bool :=
  let n := N_of_ascii ch in (48 <=? n)%N && (n <=? 57)%N.

(** An array index: the canonical decimal form of a number below
    [2^32 - 1]. *)
Definition array_index (k : string) : option N :=
  match k with
  | EmptyString => None
  | String ch rest =>
      if String.eqb k "0" then Some 0%N
      else if N.eqb (N_of_ascii ch) 48 then None
      else match read_N k with
           | Some n => if (n <? 4294967295)%N then Some n else None
           | None => None
           end
  end.

Fixpoint insert_index {A} (n : N) (kv : string * A) (sorted : list (N * (string * A)))
    : list (N * (string * A)) :=
  match sorted with
  | [] => [(n, kv)]
  | (m, kv') :: rest =>
      if (n <? m)%N then (n, kv) :: sorted else (m, kv') :: insert_index n kv rest
  end.

Definition property_order {A} (fields : list (string * A)) : list (string * A) :=
  let indexed :=
    foldl (fun acc kv =>
             match array_index (fst kv) with
             | Some n => insert_index n kv acc
             | None => acc
             end) [] fields in
  let named :=
    List.filter (fun kv => match array_index (fst kv) with Some _ => false | None => true end) fields in
  (map snd indexed ++ named)%list.

Definition object_of {A} (pairs : list (string * A)) : list (string * A) :=
  property_order (foldl (fun acc kv => assign (fst kv) (snd kv) acc) [] pairs).

(** The value that [JSON.parse] builds from the text of [v]: the same
    value, with the properties of every object in property order. *)
Fixpoint normalize (v : JSON) : JSON :=
  match v with
  | JArr items => JArr (map normalize items)
  | JObj fields => JObj (object_of (map (fun kv => (fst kv, normalize (snd kv))) fields))
  | _ => v
  end.

(** *** Parsing *)

Definition is_space (ch : ascii) : bool :=
  let n := N_of_ascii ch in
  (n =? 32)%N || (n =? 9)%N || (n =? 10)%N || (n =? 13)%N.

Fixpoint skip_ws (s : string) : string :=
  match s with
  | String ch rest => if is_space ch then skip_ws rest else s
  | EmptyString => s
  end.

(** [expect word s]: [s] without its prefix [word]. *)
Fixpoint expect (word s : string) : option string :=
  match word, s with
  | EmptyString, _ => Some s
  | String a word', String b s' => if Ascii.eqb a b then expect word' s' else None
  | String _ _, EmptyString => None
  end.

Definition hex_value (ch : ascii) : option N :=
  let n := N_of_ascii ch in
  if (48 <=? n)%N && (n <=? 57)%N then Some (n - 48)%N
  else if (97 <=? n)%N && (n <=? 102)%N then Some (n - 87)%N
  else if (65 <=? n)%N && (n <=? 70)%N then Some (n - 55)%N
  else None.

(** The four hexadecimal digits after a backslash and [u]. *)
Definition unicode_escape (s : string) : option (ascii * string) :=
  match s with
  | String a (String b (String c (String d rest))) =>
      match hex_value a, hex_value b, hex_value c, hex_value d with
      | Some x, Some y, Some z, Some w =>
          let n := (((x * 16 + y) * 16 + z) * 16 + w)%N in
          if (n <? 128)%N then Some (ascii_of_N n, rest) else None
      | _, _, _, _ => None
      end
  | _ => None
  end.

(** The character that an escape stands for, and the text after it. *)
Definition unescape (e : ascii) (rest : string) : option (ascii * string) :=
  let m := N_of_ascii e in
  if (m =? 34)%N then Some (dquote, rest)
  else if (m =? 92)%N then Some ("\"%char, rest)
  else if (m =? 47)%N then Some ("/"%char, rest)
  else if (m =? 98)%N then Some ("008"%char, rest)
  else if (m =? 102)%N then Some ("012"%char, rest)
  else if (m =? 110)%N then Some ("010"%char, rest)
  else if (m =? 114)%N then Some ("013"%char, rest)
  else if (m =? 116)%N then Some ("009"%char, rest)
  else if (m =? 117)%N then unicode_escape rest
  else None.

(** One character of a string literal: [None] at the closing quote. *)
Definition next_char (s : string) : option (option (ascii * string)) :=
  match s with
  | EmptyString => None
  | String ch rest =>
      let n := N_of_ascii ch in
      if (n =? 34)%N then Some None
      else if (n <? 32)%N then None
      else if (n =? 92)%N then
        match rest with
        | EmptyString => None
        | String e rest' =>
            match unescape e rest' with
            | Some r => Some (Some r)
            | None => None
            end
        end
      else Some (Some (ch, rest))
  end.

(** The text after a closing quote. *)
Definition after_quote (s : string) : string :=
  match s with
  | String _ rest => rest
  | EmptyString => EmptyString
  end.

(** The rest of a string literal, after its opening quote. *)
Fixpoint string_body (s : string) (fuel : nat) : option (string * string) :=
  match fuel with
  | O => None
  | S fuel' =>
      match next_char s with
      | None => None
      | Some None => Some ("", after_quote s)
      | Some (Some (ch, rest)) =>
          match string_body rest fuel' with
          | Some (body, r) => Some (String ch body, r)
          | None => None
          end
      end
  end.

Fixpoint take_digits (s : string) : string * string :=
  match s with
  | String ch rest =>
      if is_digit ch
      then let '(ds, r) := take_digits rest in (String ch ds, r)
      else ("", s)
  | EmptyString => ("", s)
  end.

(** The first character of [s] has the code [n]. *)
Definition starts_with (n : N) (s : string) : bool :=
  match s with
  | String ch _ => (N_of_ascii ch =? n)%N
  | EmptyString => false
  end.

(** An integer literal: no leading zero, no fraction, no exponent. *)
Definition number (s : string) : option (Z * string) :=
  let negative := starts_with 45 s in
  let s1 := if negative then after_quote s else s in
  let '(ds, rest) := take_digits s1 in
  let leading_zero := starts_with 48 ds && negb (String.eqb ds "0") in
  let continued := starts_with 46 rest || starts_with 101 rest || starts_with 69 rest in
  if String.eqb ds "" || leading_zero || continued then None else
  match read_N ds with
  | Some n => Some (if negative then (- Z.of_N n)%Z else Z.of_N n, rest)
  | None => None
  end.

Fixpoint value (fuel : nat) (s : string) : option (JSON * string) :=
  match fuel with
  | O => None
  | S fuel' =>
      match skip_ws s with
      | EmptyString => None
      | String ch rest =>
          let n := N_of_ascii ch in
          if (n =? 110)%N then
            match expect "ull" rest with Some r => Some (JNull, r) | None => None end
          else if (n =? 116)%N then
            match expect "rue" rest with Some r => Some (JBool true, r) | None => None end
          else if (n =? 102)%N then
            match expect "alse" rest with Some r => Some (JBool false, r) | None => None end
          else if (n =? 34)%N then
            match string_body rest (S (String.length rest)) with
            | Some (str, r) => Some (JStr str, r)
            | None => None
            end
          else if (n =? 91)%N then
            if starts_with 93 (skip_ws rest)
            then Some (JArr [], after_quote (skip_ws rest))
            else
              match elements fuel' rest with
              | Some (items, r) => Some (JArr items, r)
              | None => None
              end
          else if (n =? 123)%N then
            if starts_with 125 (skip_ws rest)
            then Some (JObj [], after_quote (skip_ws rest))
            else
              match members fuel' rest with
              | Some (fields, r) => Some (JObj (object_of fields), r)
              | None => None
              end
          else
            match number (String ch rest) with
            | Some (z, r) => Some (JNum z, r)
            | None => None
            end
      end
  end

(** One or more values separated by commas, up to the closing bracket. *)
with elements (fuel : nat) (s : string) : option (list JSON * string) :=
  match fuel with
  | O => None
  | S fuel' =>
      match value fuel' s with
      | Some (v, r) =>
          if starts_with 44 (skip_ws r) then
            match elements fuel' (after_quote (skip_ws r)) with
            | Some (vs, r') => Some (v :: vs, r')
            | None => None
            end
          else if starts_with 93 (skip_ws r) then Some ([v], after_quote (skip_ws r))
          else None
      | None => None
      end
  end

(** One or more [key : value] members, up to the closing brace. *)
with members (fuel : nat) (s : string) : option (list (string * JSON) * string) :=
  match fuel with
  | O => None
  | S fuel' =>
      if negb (starts_with 34 (skip_ws s)) then None else
      let body := after_quote (skip_ws s) in
      match string_body body (S (String.length body)) with
      | Some (k, r) =>
          if negb (starts_with 58 (skip_ws r)) then None else
          match value fuel' (after_quote (skip_ws r)) with
          | Some (v, r2) =>
              if starts_with 44 (skip_ws r2) then
                match members fuel' (after_quote (skip_ws r2)) with
                | Some (kvs, r3) => Some ((k, v) :: kvs, r3)
                | None => None
                end
              else if starts_with 125 (skip_ws r2) then Some ([(k, v)], after_quote (skip_ws r2))
              else None
          | None => None
          end
      | None => None
      end
  end.

Definition parse (text : string) : option JSON :=
  match value (2 * String.length text + 2) text with
  | Some (v, rest) =>
      match skip_ws rest with
      | EmptyString => Some v
      | _ => None
      end
  | None => None
  end.

(** *** Measures for reasoning about the parser *)

(** What follows a value inside a text: nothing, a comma, or a closing
    bracket or brace. *)
Definition terminator (rest : string) : bool :=
  match rest with
  | EmptyString => true
  | String ch _ =>
      let n := N_of_ascii ch in (n =? 44)%N || (n =? 93)%N || (n =? 125)%N
  end.

(** The text of a value starts with a character that is neither white
    space nor a closing bracket or brace. *)
Definition opens_value (ch : ascii) : Prop :=
  is_space ch = false /\ (N_of_ascii ch =? 93)%N = false /\ (N_of_ascii ch =? 125)%N = false.

(** The fuel that reading a sequence takes, from what its members take. *)
Fixpoint needs (l : list nat) : nat :=
  match l with
  | [] => O
  | n :: rest => S (Nat.max n (needs rest))
  end.

(** The fuel that reading the text of a value takes. *)
Fixpoint need (v : JSON) : nat :=
  match v with
  | JArr items => S (needs (map need items))
  | JObj fields => S (needs (map (fun kv => need (snd kv)) fields))
  | _ => 1%nat
  end.

(** With enough fuel, the parser reads the text of [v] back as [normalize v],
    whatever terminator follows. *)
Definition reads_back (v : JSON) : Prop :=
  forall fuel rest,
    (need v <= fuel)%nat ->
    terminator rest = true ->
    value fuel (stringify v ++ rest) = Some (normalize v, rest).

(** The text of a member of an object, and the member as it is read. *)
Definition member_text (kv : string * JSON) : string :=
  quote (fst kv) ++ ":" ++ stringify (snd kv).

Definition member_read (kv : string * JSON) : string * JSON :=
  (fst kv, normalize (snd kv)).

(** *** Numeric coercion of strings and arrays

    Only decimal integer literals are read. [Number] also reads fractions,
    exponents and radix prefixes; these lie outside the integer model, and
    such a string converts to [NaN] here. *)
Fixpoint trim_right (s : string) : string :=
  match s with
  | EmptyString => ""
  | String ch rest =>
      match trim_right rest with
      | EmptyString => if is_space ch then "" else String ch ""
      | r => String ch r
      end
  end.

Definition string_to_number (s : string) : option Z :=
  let t := trim_right (skip_ws s) in
  if String.eqb t "" then Some 0 else
  let signed := starts_with 45 t || starts_with 43 t in
  let ds := if signed then after_quote t else t in
  if String.eqb ds "" then None else
  match read_N ds with
  | Some n => Some (if starts_with 45 t then - Z.of_N n else Z.of_N n)
  | None => None
  end.

Fixpoint array_to_number (fuel : nat) (items : list JSON) : option Z :=
  match fuel, items with
  | _, [] => Some 0
  | S fuel', [x] =>
      match x with
      | JNull => Some 0
      | JNum n => Some n
      | JStr s => string_to_number s
      | JArr inner => array_to_number fuel' inner
      | JBool _ | JObj _ => None
      end
  | _, _ => None
  end.

(** [JSON.stringify(obj, null, 2)] of the object built by [obj[k] = v]
    for each pair: an [undefined] value is left out, and assigning to
    [__proto__] creates no own property. *)
Definition stringify_entries (pairs : list (string * JSVal)) : string :=
  let own := List.filter (fun kv => negb (String.eqb (fst kv) "__proto__")) pairs in
  let fields := object_of own in
  stringify_indent 0
    (JObj (omap (fun kv => match snd kv with
                           | Json v => Some (fst kv, v)
                           | Undefined => None
                           end) fields)).

End RefJSON.

Definition reference_platform : Platform :=
  {| JSON_stringify := RefJSON.stringify;
     JSON_parse := RefJSON.parse;
     JSON_stringify_entries := RefJSON.stringify_entries;
     StringToNumber := RefJSON.string_to_number;
     ArrayToNumber := RefJSON.array_to_number 64 |}.

(** ** The public interface as data

    One constructor per public method, so that a statement can range over
    every call a client can make. [CallUnsubscribe] is the function that
    [subscribe] returns. *)
Inductive Call : Type :=
| CallSet (key : string) (value : JSVal) (ttl : option Z) (metadata : option JSON)
| CallGet (key : string)
| CallGetOrDefault (key : string) (defaultValue : JSVal)
| CallHas (key : string)
| CallGetMetadata (key : string)
| CallUpdate (key : string) (updater : JSVal -> Res JSVal)
| CallSetIfAbsent (key : string) (value : JSVal) (ttl : option Z)
| CallRemove (key : string)
| CallRemoveMany (keys : list string)
| CallClear
| CallKeys
| CallEntries
| CallCleanupExpired
| CallGetStats
| CallSubscribe (key : string) (callback : Callback)
| CallUnsubscribe (key : string) (callback : Callback)
| CallExport
| CallImport (jsonData : string) (merge : bool)
| CallGetTTL (key : string)
| CallExtendTTL (key : string) (additionalMs : Z).

Inductive Answer : Type :=
| AnsVoid
| AnsBool (b : bool)
| AnsValue (v : JSVal)
| AnsKeys (ks : list string)
| AnsEntries (es : list (string * JSVal))
| AnsCount (n : nat)
| AnsStats (st : VaultStats)
| AnsText (text : string)
| AnsTTL (remaining : option Z).

Definition answer {A} (f : A -> Answer) (m : M A) : M Answer :=
  bind m (fun a => ret (f a)).

Definition run (P : Platform) (c : Config) (call : Call) : M Answer :=
  match call with
  | CallSet key value ttl metadata => answer AnsBool (SafeVault.set P c key value ttl metadata)
  | CallGet key => answer AnsValue (SafeVault.get P c key)
  | CallGetOrDefault key d => answer AnsValue (SafeVault.getOrDefault P c key d)
  | CallHas key => answer AnsBool (SafeVault.has P c key)
  | CallGetMetadata key => answer AnsValue (SafeVault.getMetadata P c key)
  | CallUpdate key updater => answer AnsBool (SafeVault.update P c key updater)
  | CallSetIfAbsent key value ttl => answer AnsBool (SafeVault.setIfAbsent P c key value ttl)
  | CallRemove key => answer (fun _ => AnsVoid) (SafeVault.remove c key)
  | CallRemoveMany keys => answer (fun _ => AnsVoid) (SafeVault.removeMany c keys)
  | CallClear => answer (fun _ => AnsVoid) (SafeVault.clear c)
  | CallKeys => answer AnsKeys (SafeVault.keys c)
  | CallEntries => answer AnsEntries (SafeVault.entries P c)
  | CallCleanupExpired => answer AnsCount (SafeVault.cleanupExpired P c)
  | CallGetStats => answer AnsStats (SafeVault.getStats P c)
  | CallSubscribe key callback => answer (fun _ => AnsVoid) (SafeVault.subscribe key callback)
  | CallUnsubscribe key callback => answer (fun _ => AnsVoid) (SafeVault.unsubscribe key callback)
  | CallExport => answer AnsText (SafeVault.export P c)
  | CallImport jsonData merge => answer AnsBool (SafeVault.import P c jsonData merge)
  | CallGetTTL key => answer AnsTTL (SafeVault.getTTL P c key)
  | CallExtendTTL key ms => answer AnsBool (SafeVault.extendTTL P c key ms)
  end.

(** ** Vocabulary of the specification *)

(** The [onError] hook, when one is configured, returns to its caller. *)
Definition hook_returns (c : Config) : Prop :=
  forall hook, onError c = Some hook ->
  forall e operation key, hook e operation key = Ret tt.

(** The event by which an error is reported: to the hook when there is
    one, to the console otherwise. *)
Definition report (c : Config) (e : Exn) (operation key : string) : Event :=
  match onError c with
  | Some _ => EvOnError e operation key
  | None => EvConsoleError operation key e
  end.

(** Every registered subscriber returns to its caller. *)
Definition subscribers_return (s : State) : Prop :=
  forall key callbacks cb v,
    listeners s !! key = Some callbacks -> In cb callbacks -> cb_run cb v = Ret tt.

(** [raw] is what the write path stores for the record [d]. *)
Definition writes_as (P : Platform) (c : Config) (d : JSON) (raw : string) : Prop :=
  SafeVault.encode c (JSON_stringify P d) = Ret raw.

(** The read path recovers the record [d] from the stored text [raw]. *)
Definition reads_as (P : Platform) (c : Config) (raw : string) (d : JSON) : Prop :=
  raw <> "" /\
  exists text, SafeVault.decode c raw = Ret text /\ JSON_parse P text = Some d.

(** A stored key belongs to the vault when it starts with its prefix. *)
Definition owns (c : Config) (k : string) : bool :=
  negb (String.eqb k "") && String.prefix (prefix c) k.

(** The entries of the host store that belong to the vault, in the store's
    order. *)
Definition owned_entries (c : Config) (st : Storage.t) : list (string * string) :=
  List.filter (fun kv => owns c (fst kv)) (Storage.items st).

(** The entries of the host store that do not start with the prefix. *)
Definition foreign_entries (c : Config) (st : Storage.t) : list (string * string) :=
  List.filter (fun kv => negb (String.prefix (prefix c) (fst kv))) (Storage.items st).

(** Neither prefix is the beginning of the other. *)
Definition separate (p q : string) : Prop :=
  String.prefix p q = false /\ String.prefix q p = false.

(** In the words of the specification: a stored text is undecodable when
    decoding or parsing it fails or yields no record, and it is expired when
    its record has an expiry and the clock is past it. *)
Definition undecodable (P : Platform) (c : Config) (raw : string) : bool :=
  match SafeVault.decode c raw with
  | Throw _ => true
  | Ret text =>
      match JSON_parse P text with
      | None => true
      | Some JNull => true
      | Some _ => false
      end
  end.

Definition elapsed (P : Platform) (c : Config) (t : Z) (raw : string) : bool :=
  match SafeVault.decode c raw with
  | Throw _ => false
  | Ret text =>
      match JSON_parse P text with
      | Some (JObj fields) =>
          match lookup_field "expiry" fields with
          | Json JNull => false
          | expiry => js_gt P t expiry
          end
      | _ => false
      end
  end.

Definition stale (P : Platform) (c : Config) (t : Z) (raw : string) : bool :=
  undecodable P c raw || elapsed P c t raw.

(** The host store holds each key once. *)
Definition well_formed (st : Storage.t) : Prop :=
  NoDup (map fst (Storage.items st)).

(** A computation that returns to its caller from every state. *)
Definition returns {A} (m : M A) : Prop :=
  forall s, exists s' a, m s = (s', Ret a).

(** A computation whose effect on the state stays within the relation [R]. *)
Definition stays {A} (R : State -> State -> Prop) (m : M A) : Prop :=
  forall s s' r, m s = (s', r) -> R s s'.

(** The part of the state that only the registry methods and the clock
    change. *)
Definition same_registry (s s' : State) : Prop :=
  listeners s' = listeners s /\ now s' = now s.

(** What a vault with configuration [c] may change in the host store: its
    own entries. *)
Definition same_foreign (c : Config) (s s' : State) : Prop :=
  foreign_entries c (storage s') = foreign_entries c (storage s).

(** [JSON.parse] inverts [JSON.stringify] on the record [d]. *)
Definition faithful (P : Platform) (d : JSON) : Prop :=
  JSON_stringify P d <> "" /\ JSON_parse P (JSON_stringify P d) = Some d.

(** Whatever the write path stores for the record [d], the read path
    recovers [d] from it. *)
Definition round_trips (P : Platform) (c : Config) (d : JSON) : Prop :=
  forall raw, writes_as P c d raw -> reads_as P c raw d.

(** The encode and decode functions are the identity (or there are none). *)
Definition identity_coding (c : Config) : Prop :=
  forall text, SafeVault.encode c text = Ret text /\ SafeVault.decode c text = Ret text.

(** ** Concrete inputs *)

Definition default_options : Options :=
  {| opt_prefix := None; opt_version := None; opt_encryption := None; opt_onError := None |}.

Definition default_config : Config := SafeVault.configure default_options.

(** An empty, unbounded host store at time 0, no subscribers. *)
Definition fresh : State :=
  {| storage := Storage.empty; listeners := ∅; now := 0; log := [] |}.

(** The state after [set("token", "abc123", 1000)] at time 0. *)
Definition token_stored : State :=
  fst (SafeVault.set reference_platform default_config "token" (Json (JStr "abc123"))
         (Some 1000) None fresh).

(** The state after [set("user", {id: 1})] at time 0. *)
Definition user_stored : State :=
  fst (SafeVault.set reference_platform default_config "user"
         (Json (JObj [("id", JNum 1)])) None None fresh).

Definition with_prefix (p : string) : Config :=
  SafeVault.configure
    {| opt_prefix := Some p; opt_version := None; opt_encryption := None; opt_onError := None |}.

(** A host store shared by the vaults with prefixes [a_] and [b_], each
    holding one entry. *)
Definition shared_a_b : State :=
  fst (SafeVault.set reference_platform (with_prefix "b_") "y" (Json (JNum 2)) None None
         (fst (SafeVault.set reference_platform (with_prefix "a_") "x" (Json (JNum 1)) None None
                 fresh))).

(** A host store shared by the vaults with prefixes [a] and [ab], holding
    the entry that the second one wrote under its key [x]. *)
Definition shared_a_ab : State :=
  fst (SafeVault.set reference_platform (with_prefix "ab") "x" (Json (JNum 1)) None None fresh).

(** A subscriber that returns, and one that throws. *)
Definition quiet_subscriber (id : nat) : Callback :=
  {| cb_id := id; cb_run := fun _ => Ret tt |}.

Definition throwing_subscriber (id : nat) : Callback :=
  {| cb_id := id; cb_run := fun _ => Throw (UserError "subscriber failed") |}.

(** The token of the first scenario, with two subscribers for its key. *)
Definition token_watched : State :=
  fst (SafeVault.subscribe "token" (quiet_subscriber 2)
         (fst (SafeVault.subscribe "token" (quiet_subscriber 1) token_stored))).

(** No record, and a subscriber for [token] that throws. *)
Definition fragile : State :=
  fst (SafeVault.subscribe "token" (throwing_subscriber 1) fresh).

(** A host store in which text that is not JSON sits under the key [draft]
    of the default vault, with a subscriber for that key. *)
Definition corrupted : State :=
  fst (SafeVault.subscribe "draft" (quiet_subscriber 1)
         {| storage := {| Storage.items := [("sv_draft", "{oops")]; Storage.capacity := None |};
            listeners := ∅; now := 0; log := [] |}).

(** A host store in which the empty text sits under the key [draft] of the
    default vault. *)
Definition blank : State :=
  {| storage := {| Storage.items := [("sv_draft", "")]; Storage.capacity := None |};
     listeners := ∅; now := 0; log := [] |}.

(** The events that are calls of a subscriber. *)
Definition is_notification (ev : Event) : bool :=
  match ev with
  | EvNotify _ _ _ => true
  | _ => false
  end.



(** What the read path throws on stored text that is undecodable. *)
Definition decoding_error (P : Platform) (c : Config) (raw : string) : Exn :=
  match SafeVault.decode c raw with
  | Throw e => e
  | Ret text =>
      match JSON_parse P text with
      | None => SyntaxError
      | Some _ => TypeError
      end
  end.



(** What a call needs from the functions it invokes outside any [try]:
    [remove] and [removeMany] call the subscribers, [update] calls the
    updater. *)
Definition callbacks_return (call : Call) (s : State) : Prop :=
  match call with
  | CallRemove _ | CallRemoveMany _ => subscribers_return s
  | CallUpdate _ fn => forall v, exists v', fn v = Ret v'
  | _ => True
  end.

(** A configuration whose encode function and whose error hook both
    throw. *)
Definition brittle_config : Config :=
  SafeVault.configure
    {| opt_prefix := None;
       opt_version := None;
       opt_encryption :=
         Some {| encrypt := fun _ => Throw (UserError "encrypt failed");
                 decrypt := fun text => Ret text |};
       opt_onError := Some (fun _ _ _ => Throw (UserError "hook failed")) |}.

(** The host store after deleting the given keys one after the other. *)
Definition remove_all (ks : list string) (st : Storage.t) : Storage.t :=
  foldl (fun acc k => Storage.removeItem k acc) st ks.

(** The text of the object [{a: 1, b: x}] with the string [x]. *)
Definition backup_text : string :=
  RefJSON.stringify (JObj [("a", JNum 1); ("b", JStr "x")]).

(** The text stored under the key [k] is stale at time [t]. *)
Definition stale_key (P : Platform) (c : Config) (t : Z) (st : Storage.t) (k : string) : bool :=
  match Storage.getItem k st with
  | Some raw => stale P c t raw
  | None => false
  end.

(** No entry of the vault holds the empty text. *)
Definition no_blank_entry (c : Config) (st : Storage.t) : Prop :=
  forall k raw, In (k, raw) (owned_entries c st) -> raw <> "".

(** A host store at time 20 holding, for the default vault, a permanent
    record, a record that expired at time 10 and text that is not JSON, and
    an entry of somebody else. *)
Definition mixed : State :=
  {| storage :=
       {| Storage.items :=
            [("sv_live", RefJSON.stringify (envelope (Json (JNum 1)) JNull "1.0.0" None));
             ("sv_old", RefJSON.stringify (envelope (Json (JNum 2)) (JNum 10) "1.0.0" None));
             ("other", "{oops");
             ("sv_bad", "{oops")];
          Storage.capacity := None |};
     listeners := ∅;
     now := 20;
     log := [] |}.

(** ** Vocabulary for the properties of the single methods *)

(** The key that a call reads or writes, for the calls that name one. *)
Definition key_of (call : Call) : option string :=
  match call with
  | CallSet key _ _ _ => Some key
  | CallGet key => Some key
  | CallGetOrDefault key _ => Some key
  | CallHas key => Some key
  | CallGetMetadata key => Some key
  | CallUpdate key _ => Some key
  | CallSetIfAbsent key _ _ => Some key
  | CallRemove key => Some key
  | CallGetTTL key => Some key
  | CallExtendTTL key _ => Some key
  | _ => None
  end.

(** Between [s] and [s'] the registry, the clock and the quota are the
    same, and so is what the host store holds under every key but [k]. *)
Definition only_key (k : string) (s s' : State) : Prop :=
  listeners s' = listeners s /\
  now s' = now s /\
  Storage.capacity (storage s') = Storage.capacity (storage s) /\
  forall k', k' <> k -> Storage.getItem k' (storage s') = Storage.getItem k' (storage s).

(** Between [s] and [s'] only the log may differ. *)
Definition only_log (s s' : State) : Prop :=
  storage s' = storage s /\ listeners s' = listeners s /\ now s' = now s.

(** Between [s] and [s'] only the host store may differ. *)
Definition only_store (s s' : State) : Prop :=
  listeners s' = listeners s /\ now s' = now s /\ log s' = log s.

(** The record that [set] builds at time [t]. *)
Definition record (c : Config) (t : Z) (value : JSVal) (ttl : option Z)
    (metadata : option JSON) : JSON :=
  envelope value (match ttl with Some ms => JNum (t + ms) | None => JNull end)
    (version c) metadata.

(** What the write path of [set] does to the host store for the record
    [d]: encode the serialized record and put it under the namespaced
    key. *)
Definition write (P : Platform) (c : Config) (key : string) (d : JSON)
    (st : Storage.t) : Res Storage.t :=
  match SafeVault.encode c (JSON_stringify P d) with
  | Ret raw => Storage.setItem (SafeVault.getKey c key) raw st
  | Throw e => Throw e
  end.

(** The key holds text from which the read path recovers the record [d]. *)
Definition holds (P : Platform) (c : Config) (s : State) (key : string) (d : JSON) : Prop :=
  exists raw,
    Storage.getItem (SafeVault.getKey c key) (storage s) = Some raw /\ reads_as P c raw d.

(** The record [d] is not expired at time [t]. *)
Definition live (P : Platform) (t : Z) (d : JSON) : Prop :=
  exists expiry, get_prop "expiry" d = Ret expiry /\ SafeVault.expired P t expiry = false.

(** The test of the expiry returns [false] for the record [d] at time
    [t]: the record is not expired, and its expiry can be compared with the
    clock. *)
Definition unexpired (P : Platform) (t : Z) (d : JSON) : Prop :=
  exists expiry,
    get_prop "expiry" d = Ret expiry /\ SafeVault.check_expiry P t expiry = Ret false.

(** The record [d] is expired at time [t]. *)
Definition lapsed (P : Platform) (t : Z) (d : JSON) : Prop :=
  exists expiry, get_prop "expiry" d = Ret expiry /\ SafeVault.expired P t expiry = true.

(** What [getMetadata] answers for a record written with [metadata]. *)
Definition metadata_answer (metadata : option JSON) : JSVal :=
  match metadata with
  | Some m => if truthy (Json m) then Json m else null
  | None => null
  end.

(** The notifications that a change of [key] to [v] sends: one call per
    subscriber of the key, in the order of subscription. *)
Definition notifications (key : string) (v : JSVal) (s : State) : list Event :=
  map (fun cb => EvNotify key (cb_id cb) v) (default [] (listeners s !! key)).

(** The callback is registered for the key. *)
Definition subscribed (key : string) (cb : Callback) (s : State) : bool :=
  existsb (fun x => Nat.eqb (cb_id x) (cb_id cb)) (default [] (listeners s !! key)).

(** The registry holds no empty set of callbacks. *)
Definition no_empty_set (s : State) : Prop :=
  forall key, listeners s !! key <> Some [].

(** The stored text holds a record whose expiry cannot be compared with
    the clock: the test of the expiry throws. *)
Definition incomparable (P : Platform) (c : Config) (raw : string) : bool :=
  match SafeVault.decode c raw with
  | Throw _ => false
  | Ret text =>
      match JSON_parse P text with
      | Some (JObj fields) =>
          match lookup_field "expiry" fields with
          | Json JNull => false
          | expiry => match coerce expiry with Ret _ => false | Throw _ => true end
          end
      | _ => false
      end
  end.

(** What the sweep of [cleanupExpired] takes for gone: text that is
    undecodable or expired, or whose expiry cannot be compared. *)
Definition swept (P : Platform) (c : Config) (t : Z) (raw : string) : bool :=
  stale P c t raw || incomparable P c raw.

Definition swept_key (P : Platform) (c : Config) (t : Z) (st : Storage.t) (k : string) : bool :=
  match Storage.getItem k st with
  | Some raw => swept P c t raw
  | None => false
  end.

(** What the loops of [cleanupExpired] and [getStats] count under a stored
    key: text that is not empty and that the sweep takes for gone. *)
Definition counted (P : Platform) (c : Config) (t : Z) (st : Storage.t) (k : string) : bool :=
  match Storage.getItem k st with
  | Some raw => negb (String.eqb raw "") && swept P c t raw
  | None => false
  end.

(** A safe integer ([Number.isSafeInteger]): sums and differences of safe
    integers that are safe integers are exact in the arithmetic of the
    source. *)
Definition safe_integer (n : Z) : Prop :=
  - 9007199254740991 <= n <= 9007199254740991.

(** The byte estimate of [getStats] for the text under a stored key. *)
Definition estimate (st : Storage.t) (k : string) : nat :=
  (String.length (item_text (Storage.getItem k st)) * 2)%nat.

Definition sum_list (l : list nat) : nat := foldr Nat.add 0%nat l.

(** The stored keys of the vault, in the store's order. *)
Definition owned_keys (c : Config) (st : Storage.t) : list string :=
  List.filter (owns c) (map fst (Storage.items st)).

(** The key without the prefix, as [keys()] lists it. *)
Definition strip (c : Config) (k : string) : string :=
  substring_from (String.length (prefix c)) k.

(** The configuration with another version string. *)
Definition with_version (ver : string) (c : Config) : Config :=
  {| prefix := prefix c; version := ver; encryption := encryption c; onError := onError c |}.

(** What [get] reads from stored text that holds a live record: the
    [value] property; [null] stands for text that does not decode. *)
Definition stored_value (P : Platform) (c : Config) (raw : string) : JSVal :=
  match SafeVault.decode c raw with
  | Ret text =>
      match JSON_parse P text with
      | Some (JObj fields) => lookup_field "value" fields
      | Some JNull => null
      | Some _ => Undefined
      | None => null
      end
  | Throw _ => null
  end.

(** Every entry of the vault holds a record that is not expired at time
    [t]. *)
Definition all_unexpired (P : Platform) (c : Config) (t : Z) (st : Storage.t) : Prop :=
  forall k raw, In (k, raw) (owned_entries c st) ->
    exists d, reads_as P c raw d /\ unexpired P t d.

(** ** More concrete inputs *)

(** A host store with room for ten characters. *)
Definition cramped : State :=
  {| storage := {| Storage.items := []; Storage.capacity := Some 10%nat |};
     listeners := ∅; now := 0; log := [] |}.

(** The token of the first scenario and the user of the second in one
    store. *)
Definition both_stored : State :=
  fst (SafeVault.set reference_platform default_config "user"
         (Json (JObj [("id", JNum 1)])) None None token_stored).

(** The state after [set("doc", "text", 1000, {author: "ann"})] at time 0. *)
Definition doc_stored : State :=
  fst (SafeVault.set reference_platform default_config "doc" (Json (JStr "text"))
         (Some 1000) (Some (JObj [("author", JStr "ann")])) fresh).

(** The document of [doc_stored] after [extendTTL("doc", 500)] at time
    400. *)
Definition doc_extended : State :=
  fst (SafeVault.extendTTL reference_platform default_config "doc" 500 (at_time 400 doc_stored)).

(** The record of the token in [token_stored], and the record that takes
    its place in the scenarios. *)
Definition token_record : JSON :=
  record default_config 0 (Json (JStr "abc123")) (Some 1000) None.

Definition doc_record : JSON :=
  record default_config 0 (Json (JStr "text")) (Some 1000) (Some (JObj [("author", JStr "ann")])).

(** The token of the first scenario with its two subscribers, and the user
    of the second. *)
Definition both_watched : State :=
  fst (SafeVault.set reference_platform default_config "user"
         (Json (JObj [("id", JNum 1)])) None None token_watched).

(** The token stored, with a subscriber for its key that throws. *)
Definition token_fragile : State :=
  fst (SafeVault.subscribe "token" (throwing_subscriber 1) both_stored).

(** The calls of the callback with identity [id] in a log. *)
Definition calls_of (id : nat) (l : list Event) : list Event :=
  List.filter
    (fun ev => match ev with EvNotify _ i _ => Nat.eqb i id | _ => false end) l.

(** The token of the first scenario after a third subscriber was added
    and the first one removed. *)
Definition token_rewatched : State :=
  fst (SafeVault.unsubscribe "token" (quiet_subscriber 1)
         (fst (SafeVault.subscribe "token" (quiet_subscriber 3) token_watched))).

(** The decode function undoes the encode function, and the encoded text
    is never empty. *)
Definition inverse_coding (c : Config) : Prop :=
  forall text raw,
    SafeVault.encode c text = Ret raw -> raw <> "" /\ SafeVault.decode c raw = Ret text.

(** A cipher that marks the text: it puts a [#] in front, and refuses to
    decrypt text without the mark. *)
Definition marking_cipher : Cipher :=
  {| encrypt := fun text => Ret (String "#" text);
     decrypt := fun raw =>
       match raw with
       | String "#" text => Ret text
       | _ => Throw (UserError "not encrypted")
       end |}.

Definition marking_config : Config :=
  SafeVault.configure
    {| opt_prefix := None; opt_version := None;
       opt_encryption := Some marking_cipher; opt_onError := None |}.

(** The state after [set("token", "abc123", 1000)] at time 0 through the
    marking cipher. *)
Definition token_marked : State :=
  fst (SafeVault.set reference_platform marking_config "token" (Json (JStr "abc123"))
         (Some 1000) None fresh).

(** The stored token with three subscribers for its key, the second of
    which throws. *)
Definition token_three : State :=
  fst (SafeVault.subscribe "token" (quiet_subscriber 3)
         (fst (SafeVault.subscribe "token" (throwing_subscriber 2)
                 (fst (SafeVault.subscribe "token" (quiet_subscriber 1) token_stored))))).

(** The state after [set("token", "abc123", -5)] at time 0. *)
Definition token_stillborn : State :=
  fst (SafeVault.set reference_platform default_config "token" (Json (JStr "abc123"))
         (Some (-5)) None fresh).

(** The write path stores the record [d] as some text, and the read path
    recovers [d] from that text. *)
Definition storable (P : Platform) (c : Config) (d : JSON) : Prop :=
  exists raw, writes_as P c d raw /\ reads_as P c raw d.

(** The store of [mixed] with one more record of the vault, whose expiry
    is an object with a property [toString]: the test of its expiry
    throws. *)
Definition odd_record : JSON :=
  envelope (Json (JNum 3)) (JObj [("toString", JNum 1)]) "1.0.0" None.

Definition tangled : State :=
  {| storage :=
       {| Storage.items :=
            (Storage.items (storage mixed) ++ [("sv_odd", RefJSON.stringify odd_record)])%list;
          Storage.capacity := None |};
     listeners := ∅;
     now := 20;
     log := [] |}.

(** * Properties of the host store *)
Section StorageFacts.
Implicit Types (k v : string) (l : list (string * string)) (s : Storage.t).

Lemma assoc_put_eq k v l : Storage.assoc k (Storage.put k v l) = Some v.
Proof.
  unfold Storage.put. destruct (Storage.has_key k l) eqn:Hk.
  - induction l as [|[k' v'] l IH]; simpl in *; [discriminate|].
    destruct (String.eqb k' k) eqn:E; simpl.
    + now rewrite String.eqb_refl.
    + rewrite E. apply IH. exact Hk.
  - induction l as [|[k' v'] l IH]; simpl in *.
    + now rewrite String.eqb_refl.
    + destruct (String.eqb k' k) eqn:E; simpl in *; [discriminate|]. now apply IH.
Qed.

Lemma assoc_put_ne k k' v l : k <> k' -> Storage.assoc k' (Storage.put k v l) = Storage.assoc k' l.
Proof.
  intros Hne. unfold Storage.put. destruct (Storage.has_key k l).
  - induction l as [|[k0 v0] l IH]; simpl; [reflexivity|].
    destruct (String.eqb k0 k) eqn:E; simpl.
    + apply String.eqb_eq in E. subst k0.
      destruct (String.eqb k k') eqn:E'; [apply String.eqb_eq in E'; contradiction|]. exact IH.
    + destruct (String.eqb k0 k'); [reflexivity|exact IH].
  - induction l as [|[k0 v0] l IH]; simpl.
    + destruct (String.eqb k k') eqn:E'; [apply String.eqb_eq in E'; contradiction|]. reflexivity.
    + destruct (String.eqb k0 k'); [reflexivity|exact IH].
Qed.

Lemma getItem_setItem_eq k v s s' :
  Storage.setItem k v s = Ret s' -> Storage.getItem k s' = Some v.
Proof.
  unfold Storage.setItem, Storage.getItem.
  destruct (Storage.fits _ _); [|discriminate].
  intros [= <-]. simpl. apply assoc_put_eq.
Qed.

Lemma getItem_setItem_ne k k' v s s' :
  k <> k' -> Storage.setItem k v s = Ret s' -> Storage.getItem k' s' = Storage.getItem k' s.
Proof.
  unfold Storage.setItem, Storage.getItem. intros Hne.
  destruct (Storage.fits _ _); [|discriminate].
  intros [= <-]. simpl. now apply assoc_put_ne.
Qed.

Lemma setItem_unbounded k v s :
  Storage.capacity s = None ->
  Storage.setItem k v s =
    Ret {| Storage.items := Storage.put k v (Storage.items s); Storage.capacity := None |}.
Proof. unfold Storage.setItem. intros ->. reflexivity. Qed.

Lemma getItem_removeItem_eq k s : Storage.getItem k (Storage.removeItem k s) = None.
Proof.
  unfold Storage.getItem, Storage.removeItem. simpl.
  induction (Storage.items s) as [|[k' v'] l IH]; simpl; [reflexivity|].
  destruct (String.eqb k' k) eqn:E; simpl; [exact IH|]. now rewrite E.
Qed.

Lemma getItem_removeItem_ne k k' s :
  k <> k' -> Storage.getItem k' (Storage.removeItem k s) = Storage.getItem k' s.
Proof.
  intros Hne. unfold Storage.getItem, Storage.removeItem. simpl.
  induction (Storage.items s) as [|[k0 v0] l IH]; simpl; [reflexivity|].
  destruct (String.eqb k0 k) eqn:E; simpl.
  - apply String.eqb_eq in E. subst k0.
    destruct (String.eqb k k') eqn:E'; [apply String.eqb_eq in E'; contradiction|]. exact IH.
  - destruct (String.eqb k0 k'); [reflexivity|exact IH].
Qed.

Lemma removeItem_absent k s :
  Storage.getItem k s = None -> Storage.removeItem k s = s.
Proof.
  unfold Storage.getItem, Storage.removeItem. destruct s as [l cap]. simpl.
  intros H. f_equal.
  induction l as [|[k0 v0] l IH]; simpl in *; [reflexivity|].
  destruct (String.eqb k0 k); [discriminate|]. simpl. f_equal. now apply IH.
Qed.
End StorageFacts.

(** * Reasoning about vault computations *)

Local Open Scope vault_scope.

Section Steps.
Context {A B : Type}.

(** Running the first step of a sequence. *)
Lemma bind_ret_step (m : M A) (k : A -> M B) s s1 a :
  m s = (s1, Ret a) -> bind m k s = k a s1.
Proof. intros H. unfold bind. now rewrite H. Qed.

Lemma bind_throw_step (m : M A) (k : A -> M B) s s1 e :
  m s = (s1, Throw e) -> bind m k s = (s1, Throw e).
Proof. intros H. unfold bind. now rewrite H. Qed.

(** Running the first step of a sequence inside a [try]. *)
Lemma try_bind_ret_step (m : M A) (k : A -> M B) (h : Exn -> M B) s s1 a :
  m s = (s1, Ret a) -> try_catch (bind m k) h s = try_catch (k a) h s1.
Proof. intros H. unfold try_catch, bind. now rewrite H. Qed.

End Steps.

Section Effects.
Variable P : Platform.
Variable c : Config.

Lemma call_each_frame key v cbs s s' r :
  SafeVault.call_each key v cbs s = (s', r) ->
  storage s' = storage s /\ listeners s' = listeners s /\ now s' = now s.
Proof.
  revert s. induction cbs as [|cb cbs IH]; intros s; simpl.
  - intros [= <- _]. auto.
  - unfold bind, emit, lift. simpl. destruct (cb_run cb v).
    + intros H. apply IH in H. simpl in H. exact H.
    + intros [= <- _]. simpl. auto.
Qed.

Lemma notifyListeners_frame key v s s' r :
  SafeVault.notifyListeners key v s = (s', r) ->
  storage s' = storage s /\ listeners s' = listeners s /\ now s' = now s.
Proof.
  unfold SafeVault.notifyListeners. destruct (listeners s !! key).
  - apply call_each_frame.
  - intros [= <- _]. auto.
Qed.

Lemma handleError_frame e op k s s' r :
  SafeVault.handleError c e op k s = (s', r) ->
  storage s' = storage s /\ listeners s' = listeners s /\ now s' = now s.
Proof.
  unfold SafeVault.handleError. destruct (onError c) as [hook|].
  - unfold bind, emit, lift. simpl. destruct (hook e op k); intros [= <- _]; simpl; auto.
  - unfold emit. intros [= <- _]. simpl. auto.
Qed.

Lemma handleError_returns e op k s :
  hook_returns c ->
  SafeVault.handleError c e op k s = (with_log (log s ++ [report c e op k]) s, Ret tt).
Proof.
  intros Hq. unfold SafeVault.handleError, report.
  destruct (onError c) as [hook|] eqn:Hh.
  - unfold bind, emit, lift. simpl. rewrite (Hq hook Hh). reflexivity.
  - reflexivity.
Qed.

(** Notifying subscribers that all return: each is called once, in the
    order of registration. *)
Lemma call_each_returns key v cbs s :
  (forall cb, In cb cbs -> cb_run cb v = Ret tt) ->
  SafeVault.call_each key v cbs s =
    (with_log (log s ++ map (fun cb => EvNotify key (cb_id cb) v) cbs) s, Ret tt).
Proof.
  revert s. induction cbs as [|cb cbs IH]; intros s Hall; simpl.
  - unfold ret, with_log. rewrite app_nil_r. destruct s; reflexivity.
  - unfold bind, emit, lift. simpl. rewrite (Hall cb) by (left; reflexivity).
    rewrite IH by (intros; apply Hall; right; assumption).
    unfold with_log. simpl. rewrite <- app_assoc. reflexivity.
Qed.

(** A successful [set] has written the encoded record and changed nothing
    else in the store. *)
Lemma set_true_inv key value ttl md s s1 :
  SafeVault.set P c key value ttl md s = (s1, Ret true) ->
  exists raw st,
    writes_as P c
      (envelope value (match ttl with Some ms => JNum (now s + ms) | None => JNull end)
         (version c) md) raw /\
    Storage.setItem (SafeVault.getKey c key) raw (storage s) = Ret st /\
    storage s1 = st /\ listeners s1 = listeners s /\ now s1 = now s.
Proof.
  unfold SafeVault.set, try_catch, bind, Date_now, lift, storage_setItem, writes_as.
  set (d := envelope _ _ _ _).
  destruct (SafeVault.encode c (JSON_stringify P d)) as [raw|e] eqn:He.
  - destruct (Storage.setItem _ raw (storage s)) as [st|e] eqn:Hs.
    + destruct (SafeVault.notifyListeners key value (with_storage st s)) as [s2 [[]|e]] eqn:Hn.
      * unfold ret. intros [= <-]. exists raw, st.
        apply notifyListeners_frame in Hn. simpl in Hn. tauto.
      * destruct (SafeVault.handleError c e "set" key s2) as [s3 [[]|e']]; unfold ret; intros [=].
    + destruct (SafeVault.handleError c e "set" key s) as [s3 [[]|e']]; unfold ret; intros [=].
  - destruct (SafeVault.handleError c e "set" key s) as [s3 [[]|e']]; unfold ret; intros [=].
Qed.

(** *** The read path of [get] *)

Lemma get_absent key s :
  Storage.getItem (SafeVault.getKey c key) (storage s) = None ->
  SafeVault.get P c key s = (s, Ret null).
Proof.
  intros H. unfold SafeVault.get, try_catch, bind, storage_getItem. rewrite H. reflexivity.
Qed.

Lemma get_empty key s :
  Storage.getItem (SafeVault.getKey c key) (storage s) = Some "" ->
  SafeVault.get P c key s = (s, Ret null).
Proof.
  intros H. unfold SafeVault.get, try_catch, bind, storage_getItem. rewrite H. reflexivity.
Qed.

Lemma no_item_some raw : raw <> "" -> no_item (Some raw) = false.
Proof.
  intros H. simpl. destruct (String.eqb raw "") eqn:E; [|reflexivity].
  apply String.eqb_eq in E. contradiction.
Qed.

(** The test of the expiry, where it returns. *)
Lemma expired_check t expiry :
  SafeVault.expired P t expiry = true -> SafeVault.check_expiry P t expiry = Ret true.
Proof.
  unfold SafeVault.expired.
  destruct (SafeVault.check_expiry P t expiry) as [due|e]; [now intros ->|discriminate].
Qed.

Lemma check_expiry_null t : SafeVault.check_expiry P t null = Ret false.
Proof. reflexivity. Qed.

Lemma check_expiry_number t e : SafeVault.check_expiry P t (Json (JNum e)) = Ret (e <? t).
Proof. reflexivity. Qed.

(** A record that is not expired is returned and nothing changes. *)
Lemma get_live key s raw d expiry :
  Storage.getItem (SafeVault.getKey c key) (storage s) = Some raw ->
  reads_as P c raw d ->
  get_prop "expiry" d = Ret expiry ->
  SafeVault.check_expiry P (now s) expiry = Ret false ->
  exists v, get_prop "value" d = Ret v /\ SafeVault.get P c key s = (s, Ret v).
Proof.
  intros Hget (Hne & text & Hdec & Hparse) Hexp Hlive.
  assert (Hd : d <> JNull) by (intros ->; discriminate).
  assert (Hv : exists v, get_prop "value" d = Ret v)
    by (destruct d; simpl; eauto; contradiction).
  assert (Hver : exists ver, get_prop "version" d = Ret ver)
    by (destruct d; simpl; eauto; contradiction).
  destruct Hv as [v Hv]. destruct Hver as [ver Hver]. exists v. split; [exact Hv|].
  unfold SafeVault.get, try_catch, bind, storage_getItem, lift, Date_now, SafeVault.parse.
  rewrite Hget, (no_item_some raw Hne). simpl item_text.
  rewrite Hdec, Hparse, Hexp, Hlive, Hver, Hv.
  destruct (truthy ver && differs_from_string ver (version c)); reflexivity.
Qed.

(** An expired record: [get] does what [remove] does and answers
    [null]; if a subscriber throws, the error is reported and the key is
    removed once more. *)
Lemma get_expired key s raw d expiry :
  Storage.getItem (SafeVault.getKey c key) (storage s) = Some raw ->
  reads_as P c raw d ->
  get_prop "expiry" d = Ret expiry ->
  SafeVault.expired P (now s) expiry = true ->
  SafeVault.get P c key s =
    try_catch (SafeVault.remove c key ;; ret null)
      (fun error =>
         SafeVault.handleError c error "get" key ;;
         storage_removeItem (SafeVault.getKey c key) ;;
         ret null) s.
Proof.
  intros Hget (Hne & text & Hdec & Hparse) Hexp Hdue. apply expired_check in Hdue.
  unfold SafeVault.get, try_catch, bind at 1 2 3 4 5 6, storage_getItem, lift, Date_now,
    SafeVault.parse.
  rewrite Hget, (no_item_some raw Hne). simpl item_text.
  rewrite Hdec, Hparse, Hexp, Hdue. reflexivity.
Qed.

Lemma removeItem_twice k st :
  Storage.removeItem k (Storage.removeItem k st) = Storage.removeItem k st.
Proof. apply removeItem_absent, getItem_removeItem_eq. Qed.

(** Whatever the subscribers do, an expired record is gone after [get],
    and the answer is [null] when the error hook returns. *)
Lemma get_expired_gone key s raw d expiry :
  Storage.getItem (SafeVault.getKey c key) (storage s) = Some raw ->
  reads_as P c raw d ->
  get_prop "expiry" d = Ret expiry ->
  SafeVault.expired P (now s) expiry = true ->
  hook_returns c ->
  exists s',
    SafeVault.get P c key s = (s', Ret null) /\
    storage s' = Storage.removeItem (SafeVault.getKey c key) (storage s) /\
    listeners s' = listeners s /\ now s' = now s.
Proof.
  intros Hget Hread Hexp Hdue Hq.
  rewrite (get_expired key s raw d expiry Hget Hread Hexp Hdue).
  unfold try_catch, SafeVault.remove, bind at 1 2, storage_removeItem.
  destruct (SafeVault.notifyListeners key null _) as [s1 [[]|e]] eqn:Hn;
    apply notifyListeners_frame in Hn; simpl in Hn; destruct Hn as (Hs & Hl & Ht).
  - exists s1. unfold ret. auto.
  - unfold bind. rewrite (handleError_returns e "get" key s1 Hq).
    eexists. split; [reflexivity|]. simpl. rewrite Hs, removeItem_twice. auto.
Qed.
End Effects.

(** * What a computation may change

    [stays R m]: every run of [m], whether it returns or throws, relates the
    state before and after by [R]. For a reflexive and transitive [R] the
    property is closed under sequencing, [try]/[catch] and loops. *)
Section Stays.
Variable R : State -> State -> Prop.
Hypothesis R_refl : forall s, R s s.
Hypothesis R_trans : forall s1 s2 s3, R s1 s2 -> R s2 s3 -> R s1 s3.

Lemma stays_ret {A} (a : A) : stays R (ret a).
Proof. intros s s' r [= <- _]. apply R_refl. Qed.

Lemma stays_throw {A} e : stays R (@throw A e).
Proof. intros s s' r [= <- _]. apply R_refl. Qed.

Lemma stays_lift {A} (x : Res A) : stays R (lift x).
Proof. intros s s' r [= <- _]. apply R_refl. Qed.

Lemma stays_bind {A B} (m : M A) (f : A -> M B) :
  stays R m -> (forall a, stays R (f a)) -> stays R (bind m f).
Proof.
  intros Hm Hf s s' r. unfold bind.
  destruct (m s) as [s1 [a|e]] eqn:E.
  - intros H. eapply R_trans; [eapply Hm; exact E | eapply Hf; exact H].
  - intros [= <- _]. eapply Hm; exact E.
Qed.

Lemma stays_try_catch {A} (m : M A) (h : Exn -> M A) :
  stays R m -> (forall e, stays R (h e)) -> stays R (try_catch m h).
Proof.
  intros Hm Hh s s' r. unfold try_catch.
  destruct (m s) as [s1 [a|e]] eqn:E.
  - intros [= <- _]. eapply Hm; exact E.
  - intros H. eapply R_trans; [eapply Hm; exact E | eapply Hh; exact H].
Qed.

Lemma stays_forEach {A} (f : A -> M unit) (l : list A) :
  (forall x, In x l -> stays R (f x)) -> stays R (forEach f l).
Proof.
  induction l as [|x l IH]; intros Hf; simpl.
  - apply stays_ret.
  - apply stays_bind; [apply Hf; left; reflexivity|].
    intros _. apply IH. intros y Hy. apply Hf. right. exact Hy.
Qed.

Lemma stays_mapM {A B} (f : A -> M B) (l : list A) :
  (forall x, stays R (f x)) -> stays R (mapM f l).
Proof.
  intros Hf. induction l as [|x l IH]; simpl.
  - apply stays_ret.
  - apply stays_bind; [apply Hf|]. intros y.
    apply stays_bind; [exact IH|]. intros ys. apply stays_ret.
Qed.

Lemma stays_storage_only {A} (m : M A) :
  (forall s s', storage s' = storage s -> R s s') ->
  (forall s s' r, m s = (s', r) -> storage s' = storage s) ->
  stays R m.
Proof. intros HR Hm s s' r H. apply HR. eapply Hm. exact H. Qed.
End Stays.

(** Steps that leave the host store alone. *)
Section StoreUntouched.
Variable P : Platform.
Variable c : Config.

Lemma emit_storage ev s s' r : emit ev s = (s', r) -> storage s' = storage s.
Proof. unfold emit. intros [= <- _]. reflexivity. Qed.

Lemma Date_now_storage s s' r : Date_now s = (s', r) -> storage s' = storage s.
Proof. unfold Date_now. intros [= <- _]. reflexivity. Qed.

Lemma storage_getItem_storage k s s' r :
  storage_getItem k s = (s', r) -> storage s' = storage s.
Proof. unfold storage_getItem. intros [= <- _]. reflexivity. Qed.

Lemma getAllKeys_storage s s' r :
  SafeVault.getAllKeys c s = (s', r) -> storage s' = storage s.
Proof. unfold SafeVault.getAllKeys. intros [= <- _]. reflexivity. Qed.

Lemma notifyListeners_storage key v s s' r :
  SafeVault.notifyListeners key v s = (s', r) -> storage s' = storage s.
Proof. intros H. apply notifyListeners_frame in H. tauto. Qed.

Lemma handleError_storage e op k s s' r :
  SafeVault.handleError c e op k s = (s', r) -> storage s' = storage s.
Proof. intros H. apply handleError_frame in H. tauto. Qed.

Lemma subscribe_storage key cb s s' r :
  SafeVault.subscribe key cb s = (s', r) -> storage s' = storage s.
Proof. unfold SafeVault.subscribe. intros [= <- _]. reflexivity. Qed.

Lemma unsubscribe_storage key cb s s' r :
  SafeVault.unsubscribe key cb s = (s', r) -> storage s' = storage s.
Proof.
  unfold SafeVault.unsubscribe. destruct (listeners s !! key).
  - destruct (Nat.eqb _ _); intros [= <- _]; reflexivity.
  - intros [= <- _]. reflexivity.
Qed.
End StoreUntouched.

(** ** Keys and prefixes *)
Section Keys.
Variable c : Config.

Lemma prefix_append p k : String.prefix p (p ++ k) = true.
Proof.
  induction p as [|a p IH]; simpl.
  - destruct k; reflexivity.
  - destruct (ascii_dec a a) as [_|Hne]; [exact IH | contradiction].
Qed.

Lemma getKey_prefixed key : String.prefix (prefix c) (SafeVault.getKey c key) = true.
Proof. apply prefix_append. Qed.

(** Two prefixes of one string: one is a prefix of the other. *)
Lemma prefixes_comparable p q k :
  String.prefix p k = true -> String.prefix q k = true ->
  String.prefix p q = true \/ String.prefix q p = true.
Proof.
  revert q k. induction p as [|a p IH]; intros q k Hp Hq.
  - left. destruct q; reflexivity.
  - destruct q as [|b q]; [right; reflexivity|].
    destruct k as [|x k]; simpl in Hp, Hq; [discriminate|].
    destruct (ascii_dec a x) as [->|]; [|discriminate].
    destruct (ascii_dec b x) as [->|]; [|discriminate].
    simpl. destruct (ascii_dec x x) as [_|Hne]; [|contradiction].
    eapply IH; eassumption.
Qed.

Lemma separate_not_both p q k :
  separate p q -> String.prefix p k = true -> String.prefix q k = true -> False.
Proof.
  intros [Hpq Hqp] Hp Hq.
  destruct (prefixes_comparable p q k Hp Hq) as [H|H]; congruence.
Qed.

(** The loop of [getAllKeys] collects the owned keys in the store's
    order. *)
Lemma getAllKeys_spec s :
  SafeVault.getAllKeys c s =
    (s, Ret (List.filter (owns c) (map fst (Storage.items (storage s))))).
Proof.
  unfold SafeVault.getAllKeys. f_equal. f_equal.
  unfold Storage.length, Storage.key.
  set (l := Storage.items (storage s)).
  set (push := fun (keys : list string) (i : nat) => _).
  assert (H : forall m, (m <= List.length l)%nat ->
            foldl push [] (seq 0 m) = List.filter (owns c) (map fst (take m l))).
  { induction m as [|m IH]; intros Hm.
    - reflexivity.
    - rewrite seq_S, foldl_app, IH by lia. simpl.
      destruct (lookup_lt_is_Some_2 l m ltac:(lia)) as [kv Hkv].
      rewrite (take_S_r l m kv Hkv), map_app, List.filter_app.
      unfold push at 1. rewrite Hkv. simpl.
      destruct (owns c (fst kv)) eqn:E; unfold owns in E; rewrite E;
        [reflexivity | now rewrite app_nil_r]. }
  rewrite H by lia. now rewrite firstn_all.
Qed.

Lemma getAllKeys_owned s s' ks :
  SafeVault.getAllKeys c s = (s', Ret ks) ->
  forall k, In k ks -> String.prefix (prefix c) k = true.
Proof.
  rewrite getAllKeys_spec. intros [= _ <-] k Hk.
  apply List.filter_In in Hk. destruct Hk as [_ Hk].
  unfold owns in Hk. apply andb_true_iff in Hk. tauto.
Qed.
End Keys.

(** ** A vault writes and deletes only keys that start with its prefix *)
Section Frame.
Variable P : Platform.
Variable c : Config.

Lemma same_foreign_refl s : same_foreign c s s.
Proof. reflexivity. Qed.

Lemma same_foreign_trans s1 s2 s3 :
  same_foreign c s1 s2 -> same_foreign c s2 s3 -> same_foreign c s1 s3.
Proof. unfold same_foreign. congruence. Qed.

Lemma frame_ret {A} (a : A) : stays (same_foreign c) (ret a).
Proof. apply stays_ret, same_foreign_refl. Qed.

Lemma frame_throw {A} e : stays (same_foreign c) (@throw A e).
Proof. apply stays_throw, same_foreign_refl. Qed.

Lemma frame_lift {A} (x : Res A) : stays (same_foreign c) (lift x).
Proof. apply stays_lift, same_foreign_refl. Qed.

Lemma frame_bind {A B} (m : M A) (f : A -> M B) :
  stays (same_foreign c) m -> (forall a, stays (same_foreign c) (f a)) ->
  stays (same_foreign c) (bind m f).
Proof. apply stays_bind, same_foreign_trans. Qed.

Lemma frame_try_catch {A} (m : M A) (h : Exn -> M A) :
  stays (same_foreign c) m -> (forall e, stays (same_foreign c) (h e)) ->
  stays (same_foreign c) (try_catch m h).
Proof. apply stays_try_catch, same_foreign_trans. Qed.

Lemma frame_untouched {A} (m : M A) :
  (forall s s' r, m s = (s', r) -> storage s' = storage s) ->
  stays (same_foreign c) m.
Proof.
  apply stays_storage_only. intros s s' H. unfold same_foreign. now rewrite H.
Qed.

Lemma foreign_put k v (l : list (string * string)) :
  String.prefix (prefix c) k = true ->
  List.filter (fun kv : string * string => negb (String.prefix (prefix c) (fst kv))) (Storage.put k v l)
  = List.filter (fun kv : string * string => negb (String.prefix (prefix c) (fst kv))) l.
Proof.
  intros Hk. unfold Storage.put. destruct (Storage.has_key k l).
  - induction l as [|[k0 v0] l IH]; simpl; [reflexivity|].
    destruct (String.eqb k0 k) eqn:E; simpl.
    + apply String.eqb_eq in E. subst k0. rewrite Hk. simpl. exact IH.
    + rewrite IH. reflexivity.
  - rewrite List.filter_app. simpl. rewrite Hk. simpl. apply app_nil_r.
Qed.

Lemma foreign_remove k (l : list (string * string)) :
  String.prefix (prefix c) k = true ->
  List.filter (fun kv : string * string => negb (String.prefix (prefix c) (fst kv)))
    (List.filter (fun kv : string * string => negb (String.eqb (fst kv) k)) l)
  = List.filter (fun kv : string * string => negb (String.prefix (prefix c) (fst kv))) l.
Proof.
  intros Hk. induction l as [|[k0 v0] l IH]; simpl; [reflexivity|].
  destruct (String.eqb k0 k) eqn:E; simpl.
  - apply String.eqb_eq in E. subst k0. rewrite Hk. simpl. exact IH.
  - rewrite IH. reflexivity.
Qed.

Lemma frame_setItem k v :
  String.prefix (prefix c) k = true -> stays (same_foreign c) (storage_setItem k v).
Proof.
  intros Hk s s' r. unfold storage_setItem, Storage.setItem.
  destruct (Storage.fits _ _); intros [= <- _]; [|reflexivity].
  unfold same_foreign, foreign_entries. simpl. now apply foreign_put.
Qed.

Lemma frame_removeItem k :
  String.prefix (prefix c) k = true -> stays (same_foreign c) (storage_removeItem k).
Proof.
  intros Hk s s' r. unfold storage_removeItem. intros [= <- _].
  unfold same_foreign, foreign_entries. simpl. now apply foreign_remove.
Qed.

Ltac frame :=
  repeat first
    [ assumption
    | apply frame_ret
    | apply frame_lift
    | apply frame_throw
    | apply frame_bind; [|intros ?]
    | apply frame_try_catch; [|intros ?]
    | apply frame_setItem; apply getKey_prefixed
    | apply frame_removeItem; apply getKey_prefixed
    | apply frame_untouched;
      solve [ apply emit_storage | apply Date_now_storage | apply storage_getItem_storage
            | apply getAllKeys_storage | apply notifyListeners_storage
            | apply handleError_storage | apply subscribe_storage
            | apply unsubscribe_storage ]
    | match goal with
      | |- stays _ (if ?b then _ else _) => destruct b
      | |- stays _ (match ?x with _ => _ end) => destruct x
      end ].

Lemma frame_handleError e op k : stays (same_foreign c) (SafeVault.handleError c e op k).
Proof. frame. Qed.

Lemma frame_notifyListeners key v : stays (same_foreign c) (SafeVault.notifyListeners key v).
Proof. frame. Qed.

Lemma frame_set key value ttl md : stays (same_foreign c) (SafeVault.set P c key value ttl md).
Proof.
  pose proof frame_handleError. pose proof frame_notifyListeners.
  unfold SafeVault.set. frame.
Qed.

Lemma frame_remove key : stays (same_foreign c) (SafeVault.remove c key).
Proof. pose proof frame_notifyListeners. unfold SafeVault.remove. frame. Qed.

Lemma frame_get key : stays (same_foreign c) (SafeVault.get P c key).
Proof.
  pose proof frame_handleError. pose proof frame_remove.
  unfold SafeVault.get. frame.
Qed.

Lemma frame_getMetadata key : stays (same_foreign c) (SafeVault.getMetadata P c key).
Proof. unfold SafeVault.getMetadata. frame. Qed.

Lemma frame_getTTL key : stays (same_foreign c) (SafeVault.getTTL P c key).
Proof. unfold SafeVault.getTTL. frame. Qed.

Lemma frame_has key : stays (same_foreign c) (SafeVault.has P c key).
Proof. pose proof frame_get. unfold SafeVault.has. frame. Qed.

Lemma frame_getOrDefault key d : stays (same_foreign c) (SafeVault.getOrDefault P c key d).
Proof. pose proof frame_get. unfold SafeVault.getOrDefault. frame. Qed.

Lemma frame_update key f : stays (same_foreign c) (SafeVault.update P c key f).
Proof. pose proof frame_get. pose proof frame_set. unfold SafeVault.update. frame. Qed.

Lemma frame_setIfAbsent key value ttl :
  stays (same_foreign c) (SafeVault.setIfAbsent P c key value ttl).
Proof. pose proof frame_has. pose proof frame_set. unfold SafeVault.setIfAbsent. frame. Qed.

Lemma frame_extendTTL key ms : stays (same_foreign c) (SafeVault.extendTTL P c key ms).
Proof.
  pose proof frame_get. pose proof frame_getTTL. pose proof frame_set.
  unfold SafeVault.extendTTL. frame.
Qed.

Lemma frame_removeMany keys : stays (same_foreign c) (SafeVault.removeMany c keys).
Proof.
  unfold SafeVault.removeMany. apply stays_forEach.
  - apply same_foreign_refl.
  - apply same_foreign_trans.
  - intros key _. apply frame_remove.
Qed.

Lemma frame_remove_each ks :
  (forall k, In k ks -> String.prefix (prefix c) k = true) ->
  stays (same_foreign c) (forEach storage_removeItem ks).
Proof.
  intros Hks. apply stays_forEach.
  - apply same_foreign_refl.
  - apply same_foreign_trans.
  - intros k Hk. apply frame_removeItem. now apply Hks.
Qed.

Lemma frame_clear : stays (same_foreign c) (SafeVault.clear c).
Proof.
  intros s s' r. unfold SafeVault.clear, bind at 1.
  destruct (SafeVault.getAllKeys c s) as [s1 [ks|e]] eqn:Hk.
  - pose proof (getAllKeys_owned c s s1 ks Hk) as Hown.
    apply getAllKeys_storage in Hk. intros H.
    apply same_foreign_trans with s1; [unfold same_foreign; now rewrite Hk|].
    revert H. apply frame_bind; [now apply frame_remove_each|].
    intros _ s2 s3 r3 [= <- _]. reflexivity.
  - rewrite getAllKeys_spec in Hk. discriminate.
Qed.

Lemma frame_keys : stays (same_foreign c) (SafeVault.keys c).
Proof. unfold SafeVault.keys. frame. Qed.

Lemma frame_entries : stays (same_foreign c) (SafeVault.entries P c).
Proof.
  pose proof frame_keys. unfold SafeVault.entries. frame.
  apply stays_mapM; [apply same_foreign_refl | apply same_foreign_trans|].
  intros key. pose proof frame_get. frame.
Qed.

Lemma frame_cleanup_step count k :
  String.prefix (prefix c) k = true ->
  stays (same_foreign c) (SafeVault.cleanup_step P c count k).
Proof.
  intros Hk. pose proof (frame_removeItem k Hk). unfold SafeVault.cleanup_step. frame.
Qed.

Lemma frame_cleanup_loop ks :
  (forall k, In k ks -> String.prefix (prefix c) k = true) ->
  forall count, stays (same_foreign c) (SafeVault.cleanup_loop P c count ks).
Proof.
  induction ks as [|k ks IH]; intros Hks count; simpl.
  - apply frame_ret.
  - apply frame_bind.
    + apply frame_cleanup_step, Hks. left. reflexivity.
    + intros count'. apply IH. intros k' Hk'. apply Hks. right. exact Hk'.
Qed.

Lemma frame_cleanupExpired : stays (same_foreign c) (SafeVault.cleanupExpired P c).
Proof.
  intros s s' r. unfold SafeVault.cleanupExpired, bind at 1.
  rewrite getAllKeys_spec. apply frame_cleanup_loop.
  intros k Hk. apply List.filter_In in Hk. destruct Hk as [_ Hk].
  unfold owns in Hk. apply andb_true_iff in Hk. tauto.
Qed.

Lemma frame_stats_loop ks :
  forall acc, stays (same_foreign c) (SafeVault.stats_loop P c acc ks).
Proof.
  induction ks as [|k ks IH]; intros acc; simpl.
  - apply frame_ret.
  - apply frame_bind; [|intros acc'; apply IH].
    unfold SafeVault.stats_step. frame.
Qed.

Lemma frame_getStats : stays (same_foreign c) (SafeVault.getStats P c).
Proof. unfold SafeVault.getStats. frame. apply frame_stats_loop. Qed.

Lemma frame_export : stays (same_foreign c) (SafeVault.export P c).
Proof. pose proof frame_entries. unfold SafeVault.export. frame. Qed.

Lemma frame_import text merge : stays (same_foreign c) (SafeVault.import P c text merge).
Proof.
  pose proof frame_clear. pose proof frame_handleError.
  unfold SafeVault.import. frame.
  apply stays_forEach; [apply same_foreign_refl | apply same_foreign_trans|].
  intros kv _. pose proof frame_set. frame.
Qed.

(** Every call of the public interface leaves the entries that do not
    start with the vault's prefix as they are. *)
Lemma frame_run call : stays (same_foreign c) (run P c call).
Proof.
  destruct call; unfold run, answer; (apply frame_bind; [|intros ?; apply frame_ret]);
    first
      [ apply frame_set | apply frame_get | apply frame_getOrDefault | apply frame_has
      | apply frame_getMetadata | apply frame_update | apply frame_setIfAbsent
      | apply frame_remove | apply frame_removeMany | apply frame_clear
      | apply frame_keys | apply frame_entries | apply frame_cleanupExpired
      | apply frame_getStats | apply frame_export | apply frame_import
      | apply frame_getTTL | apply frame_extendTTL
      | apply frame_untouched, subscribe_storage
      | apply frame_untouched, unsubscribe_storage ].
Qed.
End Frame.

(** ** [set] calls no updater *)
Section UpdaterCalls.
Variable P : Platform.
Variable c : Config.








End UpdaterCalls.

(** * Computations that return to their caller *)
Section Returns.

Lemma returns_ret {A} (a : A) : returns (ret a).
Proof. intros s. exists s, a. reflexivity. Qed.

Lemma returns_lift {A} (a : A) : returns (lift (Ret a)).
Proof. intros s. exists s, a. reflexivity. Qed.

Lemma returns_bind {A B} (m : M A) (f : A -> M B) :
  returns m -> (forall a, returns (f a)) -> returns (bind m f).
Proof.
  intros Hm Hf s. unfold bind. destruct (Hm s) as (s1 & a & ->). apply Hf.
Qed.

(** A [try] whose handler returns does return, whatever is tried. *)
Lemma returns_try_catch {A} (m : M A) (h : Exn -> M A) :
  (forall e, returns (h e)) -> returns (try_catch m h).
Proof.
  intros Hh s. unfold try_catch. destruct (m s) as [s1 [a|e]].
  - exists s1, a. reflexivity.
  - apply Hh.
Qed.

Lemma returns_forEach {A} (f : A -> M unit) (l : list A) :
  (forall x, returns (f x)) -> returns (forEach f l).
Proof.
  intros Hf. induction l as [|x l IH]; simpl.
  - apply returns_ret.
  - apply returns_bind; [apply Hf | intros _; exact IH].
Qed.

Lemma returns_mapM {A B} (f : A -> M B) (l : list A) :
  (forall x, returns (f x)) -> returns (mapM f l).
Proof.
  intros Hf. induction l as [|x l IH]; simpl.
  - apply returns_ret.
  - apply returns_bind; [apply Hf|]. intros y.
    apply returns_bind; [exact IH|]. intros ys. apply returns_ret.
Qed.

Lemma returns_emit ev : returns (emit ev).
Proof. intros s. eexists. exists tt. reflexivity. Qed.

Lemma returns_Date_now : returns Date_now.
Proof. intros s. exists s, (now s). reflexivity. Qed.

Lemma returns_getItem k : returns (storage_getItem k).
Proof. intros s. eexists. eexists. reflexivity. Qed.

Lemma returns_removeItem k : returns (storage_removeItem k).
Proof. intros s. eexists. exists tt. reflexivity. Qed.

Lemma returns_getAllKeys c : returns (SafeVault.getAllKeys c).
Proof. intros s. eexists. eexists. reflexivity. Qed.

Lemma returns_subscribe key cb : returns (SafeVault.subscribe key cb).
Proof. intros s. eexists. exists tt. reflexivity. Qed.

Lemma returns_unsubscribe key cb : returns (SafeVault.unsubscribe key cb).
Proof.
  intros s. unfold SafeVault.unsubscribe. destruct (listeners s !! key).
  - destruct (Nat.eqb _ _); eexists; exists tt; reflexivity.
  - exists s, tt. reflexivity.
Qed.

Variable P : Platform.
Variable c : Config.
Hypothesis Hhook : hook_returns c.

Lemma returns_handleError e op k : returns (SafeVault.handleError c e op k).
Proof. intros s. rewrite (handleError_returns c e op k s Hhook). eexists. exists tt. reflexivity. Qed.

Ltac returning :=
  repeat first
    [ assumption
    | apply returns_ret
    | apply returns_lift
    | apply returns_emit
    | apply returns_Date_now
    | apply returns_getItem
    | apply returns_removeItem
    | apply returns_getAllKeys
    | apply returns_handleError
    | apply returns_try_catch; intros ?
    | apply returns_bind; [|intros ?]
    | match goal with
      | |- returns (if ?b then _ else _) => destruct b
      | |- returns (match ?x with _ => _ end) => destruct x
      end ].

Lemma returns_set key value ttl md : returns (SafeVault.set P c key value ttl md).
Proof. unfold SafeVault.set. returning. Qed.

Lemma returns_get key : returns (SafeVault.get P c key).
Proof. unfold SafeVault.get. returning. Qed.

Lemma returns_getOrDefault key d : returns (SafeVault.getOrDefault P c key d).
Proof. pose proof returns_get. unfold SafeVault.getOrDefault. returning. Qed.

Lemma returns_has key : returns (SafeVault.has P c key).
Proof. pose proof returns_get. unfold SafeVault.has. returning. Qed.

Lemma returns_getMetadata key : returns (SafeVault.getMetadata P c key).
Proof. unfold SafeVault.getMetadata. returning. Qed.

Lemma returns_getTTL key : returns (SafeVault.getTTL P c key).
Proof. unfold SafeVault.getTTL. returning. Qed.

Lemma returns_setIfAbsent key value ttl : returns (SafeVault.setIfAbsent P c key value ttl).
Proof.
  pose proof returns_has. pose proof returns_set. unfold SafeVault.setIfAbsent. returning.
Qed.

Lemma returns_extendTTL key ms : returns (SafeVault.extendTTL P c key ms).
Proof.
  pose proof returns_get. pose proof returns_getTTL. pose proof returns_set.
  unfold SafeVault.extendTTL. returning.
Qed.

(** [update] returns when the updater does. *)
Lemma returns_update key fn :
  (forall v, exists v', fn v = Ret v') -> returns (SafeVault.update P c key fn).
Proof.
  intros Hfn. pose proof returns_get. pose proof returns_set.
  unfold SafeVault.update. returning.
  match goal with |- returns (lift (fn ?v)) => destruct (Hfn v) as [v' ->] end.
  apply returns_lift.
Qed.

Lemma returns_clear : returns (SafeVault.clear c).
Proof.
  unfold SafeVault.clear. returning.
  - apply returns_forEach. intros k. apply returns_removeItem.
  - intros s. eexists. exists tt. reflexivity.
Qed.

Lemma returns_keys : returns (SafeVault.keys c).
Proof. unfold SafeVault.keys. returning. Qed.

Lemma returns_entries : returns (SafeVault.entries P c).
Proof.
  pose proof returns_keys. unfold SafeVault.entries. returning.
  apply returns_mapM. intros key. pose proof returns_get. returning.
Qed.

Lemma returns_cleanup_loop ks : forall count, returns (SafeVault.cleanup_loop P c count ks).
Proof.
  induction ks as [|k ks IH]; intros count; simpl.
  - apply returns_ret.
  - apply returns_bind; [|intros count'; apply IH].
    unfold SafeVault.cleanup_step. returning.
Qed.

Lemma returns_cleanupExpired : returns (SafeVault.cleanupExpired P c).
Proof. unfold SafeVault.cleanupExpired. returning. apply returns_cleanup_loop. Qed.

Lemma returns_stats_loop ks : forall acc, returns (SafeVault.stats_loop P c acc ks).
Proof.
  induction ks as [|k ks IH]; intros acc; simpl.
  - apply returns_ret.
  - apply returns_bind; [|intros acc'; apply IH].
    unfold SafeVault.stats_step. returning.
Qed.

Lemma returns_getStats : returns (SafeVault.getStats P c).
Proof. unfold SafeVault.getStats. returning. apply returns_stats_loop. Qed.

Lemma returns_export : returns (SafeVault.export P c).
Proof. pose proof returns_entries. unfold SafeVault.export. returning. Qed.

Lemma returns_import text merge : returns (SafeVault.import P c text merge).
Proof. unfold SafeVault.import. returning. Qed.

(** [remove] returns when the subscribers do; it leaves the registry as it
    is. *)
Lemma remove_returns key s :
  subscribers_return s ->
  exists s',
    SafeVault.remove c key s = (s', Ret tt) /\ listeners s' = listeners s.
Proof.
  intros Hsub. unfold SafeVault.remove, bind, storage_removeItem, SafeVault.notifyListeners.
  simpl. destruct (listeners s !! key) as [cbs|] eqn:Hcbs.
  - rewrite call_each_returns.
    + eexists. split; reflexivity.
    + intros cb Hcb. eapply Hsub; eassumption.
  - eexists. split; reflexivity.
Qed.

Lemma removeMany_returns keys s :
  subscribers_return s ->
  exists s', SafeVault.removeMany c keys s = (s', Ret tt).
Proof.
  unfold SafeVault.removeMany. revert s.
  induction keys as [|key keys IH]; intros s Hsub; simpl.
  - exists s. reflexivity.
  - unfold bind. destruct (remove_returns key s Hsub) as (s1 & -> & Hl).
    apply IH. unfold subscribers_return. rewrite Hl. exact Hsub.
Qed.
End Returns.

(** * Writing into a store that has room *)
Section Unbounded.
Variable P : Platform.
Variable c : Config.

Lemma append_inj (p k k' : string) : p ++ k = p ++ k' -> k = k'.
Proof. induction p as [|a p IH]; simpl; [auto|]. intros [= H]. auto. Qed.

Lemma getKey_inj key key' : SafeVault.getKey c key = SafeVault.getKey c key' -> key = key'.
Proof. apply append_inj. Qed.

Lemma forEach_removeItem ks s :
  forEach storage_removeItem ks s = (with_storage (remove_all ks (storage s)) s, Ret tt).
Proof.
  revert s. induction ks as [|k ks IH]; intros s; simpl.
  - destruct s; reflexivity.
  - unfold bind, storage_removeItem at 1. rewrite IH. reflexivity.
Qed.

Lemma remove_all_capacity ks st : Storage.capacity (remove_all ks st) = Storage.capacity st.
Proof. revert st. induction ks as [|k ks IH]; intros st; simpl; [reflexivity|]. now rewrite IH. Qed.

(** [clear] deletes the owned keys and empties the registry. *)
Lemma clear_spec s :
  SafeVault.clear c s
  = (with_listeners ∅
       (with_storage
          (remove_all (List.filter (owns c) (map fst (Storage.items (storage s)))) (storage s)) s),
     Ret tt).
Proof.
  unfold SafeVault.clear, bind at 1. rewrite getAllKeys_spec.
  unfold bind. rewrite forEach_removeItem. reflexivity.
Qed.

Hypothesis Hhook : hook_returns c.

(** With room in the store and a hook that returns, [set] returns, the
    store still has room, the other keys are as before, and the key holds
    what the write path produces for the record, if it produces
    anything. *)
Lemma set_unbounded key value ttl md s :
  Storage.capacity (storage s) = None ->
  exists s1 b,
    SafeVault.set P c key value ttl md s = (s1, Ret b) /\
    Storage.capacity (storage s1) = None /\
    (forall key', key' <> key ->
       Storage.getItem (SafeVault.getKey c key') (storage s1)
       = Storage.getItem (SafeVault.getKey c key') (storage s)) /\
    (forall raw,
       writes_as P c
         (envelope value (match ttl with Some ms => JNum (now s + ms) | None => JNull end)
            (version c) md) raw ->
       Storage.getItem (SafeVault.getKey c key) (storage s1) = Some raw).
Proof.
  intros Hcap.
  unfold SafeVault.set, try_catch, bind at 1 2 3 4, Date_now, lift, storage_setItem, writes_as.
  set (d := envelope _ _ _ _).
  destruct (SafeVault.encode c (JSON_stringify P d)) as [raw|e] eqn:He.
  - rewrite (setItem_unbounded _ raw (storage s) Hcap).
    set (st := {| Storage.items := _; Storage.capacity := None |}).
    assert (Hst : Storage.setItem (SafeVault.getKey c key) raw (storage s) = Ret st)
      by apply (setItem_unbounded _ raw (storage s) Hcap).
    assert (Hkeep : forall key', key' <> key ->
              Storage.getItem (SafeVault.getKey c key') st
              = Storage.getItem (SafeVault.getKey c key') (storage s)).
    { intros key' Hne. eapply getItem_setItem_ne; [|exact Hst].
      intros Heq. apply getKey_inj in Heq. congruence. }
    assert (Hhas : Storage.getItem (SafeVault.getKey c key) st = Some raw)
      by (eapply getItem_setItem_eq; exact Hst).
    destruct (SafeVault.notifyListeners key value (with_storage st s)) as [s2 [[]|e]] eqn:Hn;
      apply notifyListeners_frame in Hn; simpl in Hn; destruct Hn as (Hs2 & _ & _).
    + exists s2, true. unfold ret. rewrite Hs2.
      split; [reflexivity|]. split; [reflexivity|]. split; [exact Hkeep|].
      intros raw' [= <-]. exact Hhas.
    + unfold bind. rewrite (handleError_returns c e "set" key s2 Hhook).
      exists (with_log (log s2 ++ [report c e "set" key]) s2), false.
      unfold ret. simpl. rewrite Hs2.
      split; [reflexivity|]. split; [reflexivity|]. split; [exact Hkeep|].
      intros raw' [= <-]. exact Hhas.
  - unfold bind. rewrite (handleError_returns c e "set" key s Hhook).
    exists (with_log (log s ++ [report c e "set" key]) s), false. unfold ret. simpl.
    split; [reflexivity|]. split; [exact Hcap|]. split; [reflexivity|].
    intros raw' [=].
Qed.

(** The loop of [import]: every pair is stored as a record without
    expiry. *)
Lemma import_loop pairs :
  NoDup (map fst pairs) ->
  forall s,
    Storage.capacity (storage s) = None ->
    exists s',
      forEach (fun kv : string * JSON =>
                 bind (SafeVault.set P c (fst kv) (Json (snd kv)) None None) (fun _ => ret tt))
        pairs s = (s', Ret tt) /\
      Storage.capacity (storage s') = None /\
      (forall key, ~ In key (map fst pairs) ->
         Storage.getItem (SafeVault.getKey c key) (storage s')
         = Storage.getItem (SafeVault.getKey c key) (storage s)) /\
      (forall k v raw,
         In (k, v) pairs ->
         writes_as P c (envelope (Json v) JNull (version c) None) raw ->
         Storage.getItem (SafeVault.getKey c k) (storage s') = Some raw).
Proof.
  induction pairs as [|[k v] pairs IH]; intros Hnd s Hcap; simpl.
  - exists s. repeat split; auto. intros k v raw [].
  - apply NoDup_cons in Hnd. destruct Hnd as [Hk Hnd].
    destruct (set_unbounded k (Json v) None None s Hcap) as (s1 & b & Hset & Hcap1 & Hkeep & Hhas).
    destruct (IH Hnd s1 Hcap1) as (s' & Hloop & Hcap' & Hkeep' & Hhas').
    exists s'. unfold bind at 1. unfold bind at 1. rewrite Hset. unfold ret at 1.
    split; [exact Hloop|]. split; [exact Hcap'|]. split.
    + intros key Hnot. rewrite Hkeep'; [apply Hkeep|]; intros Hin; apply Hnot.
      * left. simpl. congruence.
      * right. exact Hin.
    + intros k0 v0 raw [[= <- <-]|Hin] Hw.
      * rewrite Hkeep'; [now apply Hhas|]. rewrite <- list_elem_of_In. exact Hk.
      * eapply Hhas'; eassumption.
Qed.
End Unbounded.

(** * The sweep of [cleanupExpired] *)
Section Sweep.
Variable P : Platform.
Variable c : Config.

(** One turn of the loop on a key that holds text: the key is deleted and
    counted exactly when the text is stale or its expiry cannot be
    compared. *)
Lemma cleanup_step_spec count k s raw :
  Storage.getItem k (storage s) = Some raw ->
  raw <> "" ->
  SafeVault.cleanup_step P c count k s
  = if swept P c (now s) raw
    then (with_storage (Storage.removeItem k (storage s)) s, Ret (S count))
    else (s, Ret count).
Proof.
  intros Hget Hne.
  unfold SafeVault.cleanup_step, try_catch, bind, storage_getItem, lift, Date_now,
    SafeVault.parse, storage_removeItem, ret.
  unfold swept, stale, undecodable, elapsed, incomparable.
  rewrite Hget, (no_item_some raw Hne). simpl item_text.
  destruct (SafeVault.decode c raw) as [text|e]; [|reflexivity].
  destruct (JSON_parse P text) as [d|]; [|reflexivity].
  destruct d; try reflexivity.
  unfold SafeVault.check_expiry, coerce. cbn [get_prop].
  destruct (lookup_field "expiry" fields) as [|j]; cbn -[js_gt unconvertible].
  - destruct (js_gt P (now s) Undefined); reflexivity.
  - destruct j; cbn -[js_gt unconvertible]; try reflexivity;
      try (match goal with |- context [js_gt P (now s) ?v] => destruct (js_gt P (now s) v) end;
           reflexivity);
      match goal with
      | |- context [unconvertible ?v] =>
          destruct (unconvertible v); cbn -[js_gt];
          [ now rewrite orb_true_r
          | match goal with
            | |- context [js_gt P (now s) ?w] => destruct (js_gt P (now s) w)
            end; reflexivity ]
      end.
Qed.

Lemma getItem_remove_all k ks st :
  Storage.getItem k (remove_all ks st)
  = if existsb (String.eqb k) ks then None else Storage.getItem k st.
Proof.
  revert st. induction ks as [|k0 ks IH]; intros st; simpl; [reflexivity|].
  rewrite IH. destruct (String.eqb k k0) eqn:E; simpl.
  - apply String.eqb_eq in E. subst k0.
    destruct (existsb (String.eqb k) ks); [reflexivity | apply getItem_removeItem_eq].
  - destruct (existsb (String.eqb k) ks); [reflexivity|].
    apply getItem_removeItem_ne. intros ->. rewrite String.eqb_refl in E. discriminate.
Qed.

Lemma swept_key_ext t st st' ks :
  (forall k, In k ks -> Storage.getItem k st' = Storage.getItem k st) ->
  List.filter (swept_key P c t st') ks = List.filter (swept_key P c t st) ks.
Proof.
  intros H. apply List.filter_ext_in. intros k Hk. unfold swept_key. now rewrite H.
Qed.

(** The loop deletes the swept keys of its list and adds their number to
    the count. *)
Lemma cleanup_loop_spec ks :
  NoDup ks ->
  forall count s,
    (forall k, In k ks -> exists raw, Storage.getItem k (storage s) = Some raw /\ raw <> "") ->
    SafeVault.cleanup_loop P c count ks s
    = (with_storage
         (remove_all (List.filter (swept_key P c (now s) (storage s)) ks) (storage s)) s,
       Ret (count + List.length (List.filter (swept_key P c (now s) (storage s)) ks))%nat).
Proof.
  induction ks as [|k ks IH]; intros Hnd count s Hks; simpl.
  - unfold ret. rewrite Nat.add_0_r. destruct s; reflexivity.
  - apply NoDup_cons in Hnd. destruct Hnd as [Hk Hnd].
    rewrite list_elem_of_In in Hk.
    destruct (Hks k (or_introl eq_refl)) as (raw & Hget & Hne).
    assert (Hsk : swept_key P c (now s) (storage s) k = swept P c (now s) raw)
      by (unfold swept_key; now rewrite Hget).
    unfold bind. rewrite (cleanup_step_spec count k s raw Hget Hne), Hsk.
    destruct (swept P c (now s) raw).
    + rewrite IH; [|exact Hnd|].
      * simpl. rewrite (swept_key_ext (now s) (storage s) (Storage.removeItem k (storage s)) ks).
        -- f_equal. f_equal. lia.
        -- intros k' Hk'. apply getItem_removeItem_ne. intros ->. contradiction.
      * intros k' Hk'. simpl. rewrite getItem_removeItem_ne by (intros ->; contradiction).
        apply Hks. right. exact Hk'.
    + apply IH; [exact Hnd|]. intros k' Hk'. apply Hks. right. exact Hk'.
Qed.

Lemma assoc_in k raw (l : list (string * string)) :
  NoDup (map fst l) -> In (k, raw) l -> Storage.assoc k l = Some raw.
Proof.
  induction l as [|[k0 v0] l IH]; simpl; intros Hnd Hin; [contradiction|].
  apply NoDup_cons in Hnd. destruct Hnd as [Hk0 Hnd].
  destruct Hin as [[= -> ->]|Hin].
  - now rewrite String.eqb_refl.
  - destruct (String.eqb k0 k) eqn:E; [|now apply IH].
    apply String.eqb_eq in E. subst k0. exfalso. apply Hk0.
    rewrite list_elem_of_In. apply in_map_iff. exists (k, raw). split; [reflexivity|exact Hin].
Qed.

Lemma in_assoc k (l : list (string * string)) :
  In k (map fst l) -> exists raw, Storage.assoc k l = Some raw /\ In (k, raw) l.
Proof.
  induction l as [|[k0 v0] l IH]; simpl; intros Hin; [contradiction|].
  destruct (String.eqb k0 k) eqn:E.
  - apply String.eqb_eq in E. subst k0. exists v0. split; [reflexivity|left; reflexivity].
  - destruct Hin as [->|Hin]; [rewrite String.eqb_refl in E; discriminate|].
    destruct (IH Hin) as (raw & Ha & Hi). exists raw. split; [exact Ha|right; exact Hi].
Qed.

(** Counting the swept keys is counting the swept entries. *)
Lemma swept_keys_entries t st (l : list (string * string)) :
  (forall k raw, In (k, raw) l -> Storage.getItem k st = Some raw) ->
  List.length (List.filter (swept_key P c t st) (List.filter (owns c) (map fst l)))
  = List.length
      (List.filter (fun kv : string * string => swept P c t (snd kv))
         (List.filter (fun kv : string * string => owns c (fst kv)) l)).
Proof.
  induction l as [|[k raw] l IH]; intros Hl; simpl; [reflexivity|].
  assert (IH' := IH (fun k' raw' H => Hl k' raw' (or_intror H))).
  destruct (owns c k); simpl; [|exact IH'].
  unfold swept_key at 1. rewrite (Hl k raw (or_introl eq_refl)).
  destruct (swept P c t raw); simpl; now rewrite IH'.
Qed.

Lemma NoDup_bool_filter {A} (f : A -> bool) (l : list A) :
  NoDup l -> NoDup (List.filter f l).
Proof.
  induction l as [|x l IH]; simpl; intros Hnd; [constructor|].
  apply NoDup_cons in Hnd. destruct Hnd as [Hx Hnd].
  destruct (f x); [|now apply IH].
  apply NoDup_cons. split; [|now apply IH].
  rewrite list_elem_of_In in *. intros Hin. apply Hx.
  apply List.filter_In in Hin. tauto.
Qed.

Lemma prefix_strip p k :
  String.prefix p k = true -> p ++ substring_from (String.length p) k = k.
Proof.
  revert k. induction p as [|a p IH]; intros k Hk; simpl.
  - reflexivity.
  - destruct k as [|b k]; simpl in Hk; [discriminate|].
    destruct (ascii_dec a b) as [->|]; [|discriminate].
    change (String b (p ++ substring_from (String.length p) k) = String b k).
    f_equal. now apply IH.
Qed.

(** Where no entry of the vault is the empty text, [cleanupExpired] does
    what the specification says: the count is the number of entries that
    are expired or undecodable, to which the code adds those whose expiry
    cannot be compared with the clock (the comparison throws); exactly
    their keys are deleted, and [keys()] afterwards lists none of them. *)
Theorem cleanupExpired_sweeps s :
  well_formed (storage s) ->
  no_blank_entry c (storage s) ->
  exists s',
    SafeVault.cleanupExpired P c s
    = (s', Ret (List.length
                  (List.filter (fun kv : string * string => swept P c (now s) (snd kv))
                     (owned_entries c (storage s))))) /\
    (forall k,
       Storage.getItem k (storage s')
       = if owns c k && swept_key P c (now s) (storage s) k
         then None else Storage.getItem k (storage s)) /\
    (forall ks,
       SafeVault.keys c s' = (s', Ret ks) ->
       forall key, In key ks ->
         swept_key P c (now s) (storage s) (SafeVault.getKey c key) = false).
Proof.
  intros Hwf Hnb.
  set (l := Storage.items (storage s)) in *.
  set (ks := List.filter (owns c) (map fst l)).
  assert (Hnd : NoDup ks) by (apply NoDup_bool_filter; exact Hwf).
  assert (Hin : forall k raw, In (k, raw) l -> Storage.getItem k (storage s) = Some raw)
    by (intros k raw H; apply assoc_in; assumption).
  assert (Hks : forall k, In k ks ->
            exists raw, Storage.getItem k (storage s) = Some raw /\ raw <> "").
  { intros k Hk. apply List.filter_In in Hk. destruct Hk as [Hk Ho].
    destruct (in_assoc k l Hk) as (raw & Ha & Hi). exists raw. split; [exact Ha|].
    apply (Hnb k raw). unfold owned_entries. apply List.filter_In. split; [exact Hi|exact Ho]. }
  pose proof (cleanup_loop_spec ks Hnd 0%nat s Hks) as Hloop.
  set (dead := List.filter (swept_key P c (now s) (storage s)) ks) in *.
  assert (Hread : forall k,
            Storage.getItem k (remove_all dead (storage s))
            = if owns c k && swept_key P c (now s) (storage s) k
              then None else Storage.getItem k (storage s)).
  { intros k. rewrite getItem_remove_all.
    destruct (existsb (String.eqb k) dead) eqn:E.
    - apply existsb_exists in E. destruct E as (k' & Hk' & E).
      apply String.eqb_eq in E. subst k'.
      apply List.filter_In in Hk'. destruct Hk' as [Hk' Hs].
      apply List.filter_In in Hk'. destruct Hk' as [_ Ho]. now rewrite Ho, Hs.
    - destruct (owns c k && swept_key P c (now s) (storage s) k) eqn:E'; [|reflexivity].
      apply andb_true_iff in E'. destruct E' as [Ho Hs].
      assert (Hk : In k dead).
      { apply List.filter_In. split; [|exact Hs]. apply List.filter_In. split; [|exact Ho].
        unfold swept_key in Hs. destruct (Storage.getItem k (storage s)) as [raw|] eqn:Hg;
          [|discriminate].
        unfold Storage.getItem in Hg. fold l in Hg.
        clear -Hg. induction l as [|[k0 v0] l' IH]; simpl in *; [discriminate|].
        destruct (String.eqb k0 k) eqn:E0; [left; now apply String.eqb_eq|right; auto]. }
      assert (Hex : existsb (String.eqb k) dead = true).
      { apply existsb_exists. exists k. split; [exact Hk|apply String.eqb_refl]. }
      congruence. }
  eexists. split; [|split].
  - unfold SafeVault.cleanupExpired, bind. rewrite getAllKeys_spec. fold l. fold ks.
    rewrite Hloop. simpl. f_equal. f_equal. apply (swept_keys_entries _ _ l Hin).
  - exact Hread.
  - simpl. intros ks' Hkeys key Hkey.
    unfold SafeVault.keys, bind in Hkeys. rewrite getAllKeys_spec in Hkeys.
    unfold ret in Hkeys. injection Hkeys as <-.
    apply in_map_iff in Hkey. destruct Hkey as (k & <- & Hk).
    apply List.filter_In in Hk. destruct Hk as [Hk Ho]. simpl in Hk.
    assert (Hp : String.prefix (prefix c) k = true)
      by (unfold owns in Ho; apply andb_true_iff in Ho; exact (proj2 Ho)).
    unfold SafeVault.getKey. rewrite (prefix_strip _ _ Hp).
    destruct (in_assoc k _ Hk) as (raw & Ha & _).
    fold (Storage.getItem k (remove_all dead (storage s))) in Ha.
    rewrite Hread, Ho in Ha. simpl in Ha.
    destruct (swept_key P c (now s) (storage s) k); [discriminate|reflexivity].
Qed.
End Sweep.

(** * The reference codec reads back what it writes *)
Section Codec.
Import RefJSON.

Lemma append_cons ch (a b : string) : String ch a ++ b = String ch (a ++ b).
Proof. reflexivity. Qed.

Lemma append_assoc (a b c : string) : (a ++ b) ++ c = a ++ (b ++ c).
Proof.
  induction a as [|ch a IH]; [reflexivity|]. rewrite !append_cons. now rewrite IH.
Qed.

Lemma append_empty_r (a : string) : a ++ "" = a.
Proof. induction a as [|ch a IH]; [reflexivity|]. rewrite append_cons. now rewrite IH. Qed.

Lemma length_append (a b : string) :
  String.length (a ++ b) = (String.length a + String.length b)%nat.
Proof.
  induction a as [|ch a IH]; [reflexivity|]. rewrite append_cons. simpl. now rewrite IH.
Qed.

(** *** String literals *)

(** A character written by [escape_char] is read back in one step. *)
Lemma next_char_escape ch tail :
  next_char (escape_char ch ++ tail) = Some (Some (ch, tail)).
Proof.
  destruct ch as [[] [] [] [] [] [] [] []]; reflexivity.
Qed.

Lemma string_body_escape s tail fuel :
  (String.length s <= fuel)%nat ->
  string_body (escape s ++ String dquote tail) (S fuel) = Some (s, tail).
Proof.
  revert fuel. induction s as [|ch s IH]; intros fuel Hf.
  - reflexivity.
  - destruct fuel as [|fuel]; [simpl in Hf; lia|].
    change (escape (String ch s)) with (escape_char ch ++ escape s).
    rewrite append_assoc.
    change (string_body ?x (S ?f)) with
      (match next_char x with
       | None => None
       | Some None => Some ("", after_quote x)
       | Some (Some (c0, rest)) =>
           match string_body rest f with
           | Some (body, r) => Some (String c0 body, r)
           | None => None
           end
       end).
    rewrite next_char_escape, IH by (simpl in Hf; lia). reflexivity.
Qed.

Lemma length_escape_char ch : (1 <= String.length (escape_char ch))%nat.
Proof. destruct ch as [[] [] [] [] [] [] [] []]; vm_compute; lia. Qed.

Lemma length_escape s : (String.length s <= String.length (escape s))%nat.
Proof.
  induction s as [|ch s IH]; simpl; [lia|].
  rewrite length_append. pose proof (length_escape_char ch). lia.
Qed.

(** A quoted string, read after its opening quote. *)
Lemma string_body_quote s tail :
  string_body (escape s ++ String dquote tail)
    (S (String.length (escape s ++ String dquote tail))) = Some (s, tail).
Proof.
  apply string_body_escape. rewrite length_append. pose proof (length_escape s). lia.
Qed.

(** *** Numbers *)

Lemma terminator_no_digit rest :
  terminator rest = true -> take_digits rest = ("", rest).
Proof.
  destruct rest as [|ch rest]; [reflexivity|]. unfold terminator. intros H. simpl.
  unfold is_digit. apply orb_true_iff in H. destruct H as [H|H].
  - apply orb_true_iff in H. destruct H as [H|H]; apply N.eqb_eq in H; rewrite H; reflexivity.
  - apply N.eqb_eq in H. rewrite H. reflexivity.
Qed.

Lemma terminator_not (n : N) rest :
  terminator rest = true -> n <> 44%N -> n <> 93%N -> n <> 125%N ->
  starts_with n rest = false.
Proof.
  destruct rest as [|ch rest]; [reflexivity|]. unfold terminator, starts_with.
  intros H H1 H2 H3. apply N.eqb_neq. intros Heq. rewrite Heq in H.
  apply orb_true_iff in H. destruct H as [H|H].
  - apply orb_true_iff in H. destruct H as [H|H]; apply N.eqb_eq in H; contradiction.
  - apply N.eqb_eq in H. contradiction.
Qed.

Lemma terminator_skip_ws rest : terminator rest = true -> skip_ws rest = rest.
Proof.
  destruct rest as [|ch rest]; [reflexivity|]. unfold terminator. intros H. simpl.
  unfold is_space. apply orb_true_iff in H. destruct H as [H|H].
  - apply orb_true_iff in H. destruct H as [H|H]; apply N.eqb_eq in H; rewrite H; reflexivity.
  - apply N.eqb_eq in H. rewrite H. reflexivity.
Qed.

Lemma take_digits_uint d rest :
  terminator rest = true ->
  take_digits (NilEmpty.string_of_uint d ++ rest) = (NilEmpty.string_of_uint d, rest).
Proof.
  intros Hr. induction d; simpl NilEmpty.string_of_uint;
    [apply terminator_no_digit; exact Hr | ..];
    rewrite append_cons; simpl; rewrite IHd; reflexivity.
Qed.

Lemma read_N_uint d : read_N (NilEmpty.string_of_uint d) = Some (N.of_uint d).
Proof. unfold read_N. now rewrite NilEmpty.usu. Qed.

(** The decimal form of a positive number does not start with a zero. *)
Lemma pos_to_uint_head p :
  exists ch tl,
    NilEmpty.string_of_uint (Pos.to_uint p) = String ch tl /\
    (49 <= N_of_ascii ch <= 57)%N.
Proof.
  assert (Hnorm : Decimal.unorm (Pos.to_uint p) = Pos.to_uint p).
  { rewrite <- (DecimalPos.Unsigned.to_of (Pos.to_uint p)).
    rewrite DecimalPos.Unsigned.of_to. reflexivity. }
  pose proof (DecimalPos.Unsigned.to_uint_nonzero p) as Hnz.
  pose proof (DecimalPos.Unsigned.to_uint_nonnil p) as Hnn.
  destruct (Pos.to_uint p) as [|u|u|u|u|u|u|u|u|u|u] eqn:E;
    try (eexists; eexists; split; [reflexivity | vm_compute; split; discriminate]).
  - contradiction.
  - exfalso. destruct (Decimal.uint_eq_dec u Decimal.Nil) as [->|Hu].
    + apply Hnz. reflexivity.
    + rewrite DecimalFacts.unorm_D0 in Hnorm.
      pose proof (DecimalFacts.nb_digits_unorm u Hu) as Hle.
      rewrite Hnorm in Hle. simpl in Hle. lia.
Qed.

Lemma number_digits ds rest (n : N) (negative : bool) s :
  take_digits s = (ds, rest) ->
  ds <> "" ->
  starts_with 48 ds && negb (String.eqb ds "0") = false ->
  terminator rest = true ->
  read_N ds = Some n ->
  (let '(ds', rest') := take_digits s in
   if String.eqb ds' "" || (starts_with 48 ds' && negb (String.eqb ds' "0"))
      || (starts_with 46 rest' || starts_with 101 rest' || starts_with 69 rest')
   then None
   else match read_N ds' with
        | Some m => Some (if negative then (- Z.of_N m)%Z else Z.of_N m, rest')
        | None => None
        end)
  = Some (if negative then (- Z.of_N n)%Z else Z.of_N n, rest).
Proof.
  intros -> Hne Hlz Hr Hread.
  assert (He : String.eqb ds "" = false) by (apply String.eqb_neq; exact Hne).
  rewrite He, Hlz, Hread.
  rewrite !(terminator_not _ rest Hr) by discriminate. reflexivity.
Qed.

Lemma number_pos p rest :
  terminator rest = true ->
  number (print_N (Npos p) ++ rest) = Some (Zpos p, rest).
Proof.
  intros Hr. unfold print_N. simpl N.to_uint.
  destruct (pos_to_uint_head p) as (ch & tl & Hd & Hc).
  unfold number.
  assert (Hminus : starts_with 45 (NilEmpty.string_of_uint (Pos.to_uint p) ++ rest) = false).
  { rewrite Hd, append_cons. simpl. apply N.eqb_neq. lia. }
  rewrite Hminus.
  apply (number_digits (NilEmpty.string_of_uint (Pos.to_uint p)) rest (Npos p) false).
  - apply take_digits_uint. exact Hr.
  - rewrite Hd. discriminate.
  - rewrite Hd. simpl. replace (N_of_ascii ch =? 48)%N with false; [reflexivity|].
    symmetry. apply N.eqb_neq. lia.
  - exact Hr.
  - rewrite read_N_uint. f_equal. apply DecimalPos.Unsigned.of_to.
Qed.

Lemma number_print z rest :
  terminator rest = true -> number (print_Z z ++ rest) = Some (z, rest).
Proof.
  intros Hr. destruct z as [|p|p].
  - unfold print_Z, print_N, number. simpl Z.to_N. simpl N.to_uint.
    change (NilEmpty.string_of_uint (Decimal.D0 Decimal.Nil)) with "0".
    rewrite append_cons. simpl starts_with. cbv iota.
    apply (number_digits "0" rest 0%N false).
    + change (String "0" ("" ++ rest)) with
        (NilEmpty.string_of_uint (Decimal.D0 Decimal.Nil) ++ rest).
      apply take_digits_uint. exact Hr.
    + discriminate.
    + reflexivity.
    + exact Hr.
    + reflexivity.
  - apply number_pos. exact Hr.
  - unfold print_Z. rewrite append_cons. unfold number.
    simpl starts_with. cbv iota. simpl after_quote.
    pose proof (number_pos p rest Hr) as Hp. unfold number in Hp.
    destruct (pos_to_uint_head p) as (ch & tl & Hd & Hc).
    assert (Hminus : starts_with 45 (print_N (Npos p) ++ rest) = false).
    { unfold print_N. simpl N.to_uint. rewrite Hd, append_cons. simpl.
      apply N.eqb_neq. lia. }
    rewrite Hminus in Hp.
    destruct (take_digits (print_N (Npos p) ++ rest)) as [ds rest'].
    destruct (String.eqb ds "" || (starts_with 48 ds && negb (String.eqb ds "0"))
              || (starts_with 46 rest' || starts_with 101 rest' || starts_with 69 rest'));
      [discriminate|].
    destruct (read_N ds) as [m|]; [|discriminate].
    injection Hp as Hm <-. f_equal. f_equal.
    assert (m = Npos p) by lia. subst m. reflexivity.
Qed.

(** The text of a number starts with a minus sign or a digit. *)
Lemma print_Z_head z :
  exists ch tl,
    print_Z z = String ch tl /\
    (N_of_ascii ch = 45 \/ 48 <= N_of_ascii ch <= 57)%N.
Proof.
  destruct z as [|p|p].
  - exists "0"%char, "". split; [reflexivity|]. right. vm_compute. split; discriminate.
  - destruct (pos_to_uint_head p) as (ch & tl & Hd & Hc).
    exists ch, tl. split; [exact Hd|]. right. lia.
  - eexists. eexists. split; [reflexivity|]. left. reflexivity.
Qed.

(** *** Values *)

(** Induction on a value together with the values inside it. *)
Lemma JSON_induction (Q : JSON -> Prop) :
  Q JNull ->
  (forall b, Q (JBool b)) ->
  (forall n, Q (JNum n)) ->
  (forall s, Q (JStr s)) ->
  (forall items, Forall Q items -> Q (JArr items)) ->
  (forall fields, Forall (fun kv : string * JSON => Q (snd kv)) fields -> Q (JObj fields)) ->
  forall v, Q v.
Proof.
  intros Hnull Hbool Hnum Hstr Harr Hobj.
  fix IH 1. intros [| b | n | s | items | fields].
  - exact Hnull.
  - apply Hbool.
  - apply Hnum.
  - apply Hstr.
  - apply Harr. induction items as [|x items IHitems]; constructor; [apply IH | exact IHitems].
  - apply Hobj. induction fields as [|[k x] fields IHfields]; constructor;
      [apply IH | exact IHfields].
Qed.

Lemma stringify_head v : exists ch tl, stringify v = String ch tl /\ opens_value ch.
Proof.
  destruct v as [| [] | n | s | items | fields];
    try (eexists; eexists; split; [reflexivity | repeat split; reflexivity]).
  destruct (print_Z_head n) as (ch & tl & Hz & Hc).
  exists ch, tl. split; [exact Hz|]. unfold opens_value, is_space.
  destruct Hc as [Hc|Hc]; [rewrite Hc; repeat split; reflexivity|].
  repeat split; repeat (apply orb_false_iff; split); apply N.eqb_neq; lia.
Qed.

Lemma skip_ws_head ch tl : is_space ch = false -> skip_ws (String ch tl) = String ch tl.
Proof. intros H. simpl. now rewrite H. Qed.

(** Unfolding the parser by one step. *)
Lemma value_number f z rest :
  terminator rest = true ->
  value (S f) (print_Z z ++ rest) = Some (JNum z, rest).
Proof.
  intros Hr. pose proof (number_print z rest Hr) as Hn.
  destruct (print_Z_head z) as (ch & tl & Hz & Hc).
  rewrite Hz, append_cons in *.
  assert (Hsp : is_space ch = false).
  { unfold is_space. repeat (apply orb_false_iff; split); apply N.eqb_neq; lia. }
  simpl value. rewrite Hsp.
  repeat match goal with
         | |- context [(N_of_ascii ch =? ?k)%N] =>
             replace (N_of_ascii ch =? k)%N with false by (symmetry; apply N.eqb_neq; lia)
         end.
  rewrite Hn. reflexivity.
Qed.

Lemma value_quote f body :
  value (S f) (String dquote body)
  = match string_body body (S (String.length body)) with
    | Some (str, r) => Some (JStr str, r)
    | None => None
    end.
Proof. reflexivity. Qed.

Lemma value_string f s rest :
  value (S f) (quote s ++ rest) = Some (JStr s, rest).
Proof.
  unfold quote. rewrite append_cons, append_assoc, append_cons.
  change ("" ++ rest) with rest.
  rewrite value_quote, string_body_quote. reflexivity.
Qed.

Lemma elements_step f s :
  elements (S f) s
  = match value f s with
    | Some (v, r) =>
        if starts_with 44 (skip_ws r) then
          match elements f (after_quote (skip_ws r)) with
          | Some (vs, r') => Some (v :: vs, r')
          | None => None
          end
        else if starts_with 93 (skip_ws r) then Some ([v], after_quote (skip_ws r))
        else None
    | None => None
    end.
Proof. reflexivity. Qed.

Lemma members_step f s :
  members (S f) s
  = if negb (starts_with 34 (skip_ws s)) then None else
    match string_body (after_quote (skip_ws s))
            (S (String.length (after_quote (skip_ws s)))) with
    | Some (k, r) =>
        if negb (starts_with 58 (skip_ws r)) then None else
        match value f (after_quote (skip_ws r)) with
        | Some (v, r2) =>
            if starts_with 44 (skip_ws r2) then
              match members f (after_quote (skip_ws r2)) with
              | Some (kvs, r3) => Some ((k, v) :: kvs, r3)
              | None => None
              end
            else if starts_with 125 (skip_ws r2) then Some ([(k, v)], after_quote (skip_ws r2))
            else None
        | None => None
        end
    | None => None
    end.
Proof. reflexivity. Qed.

Lemma value_array f rest :
  value (S f) (String "[" rest)
  = if starts_with 93 (skip_ws rest)
    then Some (JArr [], after_quote (skip_ws rest))
    else match elements f rest with
         | Some (items, r) => Some (JArr items, r)
         | None => None
         end.
Proof. reflexivity. Qed.

Lemma value_object f rest :
  value (S f) (String "{" rest)
  = if starts_with 125 (skip_ws rest)
    then Some (JObj [], after_quote (skip_ws rest))
    else match members f rest with
         | Some (fields, r) => Some (JObj (object_of fields), r)
         | None => None
         end.
Proof. reflexivity. Qed.

Lemma needs_cons n l f :
  (needs (n :: l) <= S f)%nat -> (n <= f)%nat /\ (needs l <= f)%nat.
Proof. simpl. lia. Qed.

Lemma elements_ok xs :
  forall x f rest,
    reads_back x ->
    Forall reads_back xs ->
    (needs (map need (x :: xs)) <= f)%nat ->
    terminator rest = true ->
    elements f (stringify x ++ join_more "," (map stringify xs) ++ String "]" rest)
    = Some (normalize x :: map normalize xs, rest).
Proof.
  induction xs as [|y ys IH]; intros x f rest Hx Hxs Hf Hr;
    (destruct f as [|f]; [simpl in Hf; lia|]);
    change (map need (x :: ?l)) with (need x :: map need l) in Hf;
    apply needs_cons in Hf; destruct Hf as [Hfx Hfl].
  - change (join_more "," (map stringify []) ++ String "]" rest) with (String "]" rest).
    rewrite elements_step, (Hx f (String "]" rest) Hfx eq_refl). reflexivity.
  - change (join_more "," (map stringify (y :: ys)))
      with ("," ++ stringify y ++ join_more "," (map stringify ys)).
    rewrite !append_assoc. rewrite (append_cons _ "" _). change ("" ++ ?t) with t.
    rewrite elements_step.
    rewrite (Hx f (String "," _) Hfx eq_refl).
    change (skip_ws (String "," ?t)) with (String "," t). simpl starts_with. cbv iota.
    simpl after_quote.
    apply Forall_cons in Hxs. destruct Hxs as [Hy Hys].
    rewrite (IH y f rest Hy Hys Hfl Hr). reflexivity.
Qed.

Lemma members_ok fields :
  forall kx f rest,
    reads_back (snd kx) ->
    Forall (fun kv : string * JSON => reads_back (snd kv)) fields ->
    (needs (map (fun kv : string * JSON => need (snd kv)) (kx :: fields)) <= f)%nat ->
    terminator rest = true ->
    members f (member_text kx ++ join_more "," (map member_text fields) ++ String "}" rest)
    = Some (member_read kx :: map member_read fields, rest).
Proof.
  assert (Hkey : forall k tail f,
            members (S f) (quote k ++ ":" ++ tail)
            = match value f tail with
              | Some (v, r2) =>
                  if starts_with 44 (skip_ws r2) then
                    match members f (after_quote (skip_ws r2)) with
                    | Some (kvs, r3) => Some ((k, v) :: kvs, r3)
                    | None => None
                    end
                  else if starts_with 125 (skip_ws r2)
                       then Some ([(k, v)], after_quote (skip_ws r2))
                       else None
              | None => None
              end).
  { intros k tail f. rewrite members_step. unfold quote.
    rewrite append_cons, append_assoc, append_cons. change ("" ++ ?t) with t.
    change (skip_ws (String dquote ?t)) with (String dquote t).
    simpl starts_with. simpl negb. cbv iota. simpl after_quote.
    rewrite string_body_quote. reflexivity. }
  induction fields as [|ky fields IH]; intros [k x] f rest Hx Hfields Hf Hr;
    (destruct f as [|f]; [simpl in Hf; lia|]);
    simpl map in Hf; apply needs_cons in Hf; destruct Hf as [Hfx Hfl];
    unfold member_text at 1; simpl fst; simpl snd; simpl in Hx.
  - change (join_more "," (map member_text []) ++ String "}" rest) with (String "}" rest).
    rewrite !append_assoc. rewrite Hkey.
    rewrite (Hx f (String "}" rest) Hfx eq_refl). reflexivity.
  - change (join_more "," (map member_text (ky :: fields)))
      with ("," ++ member_text ky ++ join_more "," (map member_text fields)).
    rewrite !append_assoc. rewrite (append_cons ","%char "" _). change ("" ++ ?t) with t.
    rewrite Hkey.
    rewrite (Hx f (String "," _) Hfx eq_refl).
    change (skip_ws (String "," ?t)) with (String "," t). simpl starts_with. cbv iota.
    simpl after_quote.
    apply Forall_cons in Hfields. destruct Hfields as [Hy Hys].
    rewrite <- !append_assoc. rewrite !append_assoc.
    rewrite (IH ky f rest Hy Hys Hfl Hr). reflexivity.
Qed.

Lemma not_closing (n : N) v tail :
  n = 93%N \/ n = 125%N ->
  starts_with n (skip_ws (stringify v ++ tail)) = false.
Proof.
  intros Hn. destruct (stringify_head v) as (ch & tl & Hv & Hsp & H93 & H125).
  rewrite Hv, append_cons, (skip_ws_head _ _ Hsp). simpl.
  destruct Hn as [->| ->]; assumption.
Qed.

(** Every value is read back from its text. *)
Lemma value_stringify v : reads_back v.
Proof.
  induction v as [| b | n | s | items IH | fields IH] using JSON_induction;
    intros fuel rest Hf Hr; (destruct fuel as [|fuel]; [simpl in Hf; lia|]).
  - reflexivity.
  - destruct b; reflexivity.
  - apply value_number. exact Hr.
  - apply value_string.
  - destruct items as [|x xs].
    + reflexivity.
    + change (stringify (JArr (x :: xs)))
        with ("[" ++ (stringify x ++ join_more "," (map stringify xs)) ++ "]").
      rewrite !append_assoc. rewrite (append_cons "["%char "" _). change ("" ++ ?t) with t.
      change ("]" ++ rest) with (String "]" rest).
      rewrite value_array, (not_closing 93 x _ (or_introl eq_refl)).
      apply Forall_cons in IH. destruct IH as [Hx Hxs].
      rewrite (elements_ok xs x fuel rest Hx Hxs); [reflexivity | | exact Hr].
      simpl in Hf. simpl. lia.
  - destruct fields as [|kx fields].
    + reflexivity.
    + change (stringify (JObj (kx :: fields)))
        with ("{" ++ (member_text kx ++ join_more "," (map member_text fields)) ++ "}").
      rewrite !append_assoc. rewrite (append_cons "{"%char "" _). change ("" ++ ?t) with t.
      change ("}" ++ rest) with (String "}" rest).
      rewrite value_object.
      assert (Hopen : starts_with 125 (skip_ws (member_text kx ++
                        join_more "," (map member_text fields) ++ String "}" rest)) = false)
        by (unfold member_text, quote; rewrite !append_cons; reflexivity).
      rewrite Hopen.
      apply Forall_cons in IH. destruct IH as [Hx Hxs].
      rewrite (members_ok fields kx fuel rest Hx Hxs); [reflexivity | | exact Hr].
      simpl in Hf. simpl. lia.
Qed.

(** *** Fuel *)

Lemma needs_join_more {A} (size : A -> nat) (text : A -> string) (xs : list A) :
  Forall (fun x => (size x <= String.length (text x))%nat) xs ->
  (needs (map size xs) <= String.length (join_more "," (map text xs)))%nat.
Proof.
  induction 1 as [|x xs Hx Hxs IH]; simpl; [lia|].
  rewrite !length_append. simpl. lia.
Qed.

Lemma needs_join {A} (size : A -> nat) (text : A -> string) (xs : list A) :
  Forall (fun x => (size x <= String.length (text x))%nat) xs ->
  (needs (map size xs) <= S (String.length (join "," (map text xs))))%nat.
Proof.
  intros H. destruct H as [|x xs Hx Hxs]; simpl; [lia|].
  pose proof (needs_join_more size text xs Hxs). rewrite length_append. lia.
Qed.

(** The text of a value is at least as long as the fuel that reading it
    takes. *)
Lemma need_length v : (need v <= String.length (stringify v))%nat.
Proof.
  induction v as [| b | n | s | items IH | fields IH] using JSON_induction.
  - simpl. lia.
  - destruct b; simpl; lia.
  - destruct (print_Z_head n) as (ch & tl & Hz & _). simpl. rewrite Hz. simpl. lia.
  - simpl. lia.
  - change (stringify (JArr items)) with ("[" ++ join "," (map stringify items) ++ "]").
    rewrite !length_append. simpl String.length.
    pose proof (needs_join need stringify items IH). simpl need. lia.
  - change (stringify (JObj fields)) with ("{" ++ join "," (map member_text fields) ++ "}").
    rewrite !length_append. simpl String.length.
    assert (Hm : Forall (fun kv : string * JSON =>
                           (need (snd kv) <= String.length (member_text kv))%nat) fields).
    { eapply Forall_impl; [exact IH|]. intros [k x] Hx. simpl in *.
      unfold member_text. simpl. rewrite !length_append. lia. }
    pose proof (needs_join (fun kv : string * JSON => need (snd kv)) member_text fields Hm).
    simpl need. lia.
Qed.

(** [parse] reads the text of every value back, with the properties of its
    objects in property order. *)
Theorem parse_stringify v : parse (stringify v) = Some (normalize v).
Proof.
  unfold parse.
  pose proof (value_stringify v (2 * String.length (stringify v) + 2)%nat "") as Hv.
  rewrite append_empty_r in Hv. rewrite Hv; [reflexivity | | reflexivity].
  pose proof (need_length v). lia.
Qed.

(** On the reference platform, [JSON.parse] inverts [JSON.stringify] on
    every value whose objects are in property order. *)
Lemma reference_faithful d : normalize d = d -> faithful reference_platform d.
Proof.
  intros Hd. split.
  - destruct (stringify_head d) as (ch & tl & Hs & _). simpl. rewrite Hs. discriminate.
  - simpl. rewrite parse_stringify. now rewrite Hd.
Qed.

(** The envelope of a value in property order is in property order. *)
Lemma normalize_envelope v expiry ver md :
  normalize v = v ->
  normalize expiry = expiry ->
  (forall m, md = Some m -> normalize m = m) ->
  normalize (envelope (Json v) expiry ver md) = envelope (Json v) expiry ver md.
Proof.
  intros Hv He Hmd. destruct md as [m|].
  - specialize (Hmd m eq_refl).
    change (normalize (envelope (Json v) expiry ver (Some m)))
      with (JObj [("value", normalize v); ("expiry", normalize expiry);
                  ("version", JStr ver); ("metadata", normalize m)]).
    now rewrite Hv, He, Hmd.
  - change (normalize (envelope (Json v) expiry ver None))
      with (JObj [("value", normalize v); ("expiry", normalize expiry);
                  ("version", JStr ver)]).
    now rewrite Hv, He.
Qed.
End Codec.

(** * Lists of keys, and the store after [clear] *)
Section ListFacts.

Lemma filter_and {A} (f g : A -> bool) (l : list A) :
  List.filter f (List.filter g l) = List.filter (fun x => g x && f x) l.
Proof.
  induction l as [|x l IH]; simpl; [reflexivity|].
  destruct (g x); simpl; [destruct (f x)|]; now rewrite IH.
Qed.

Lemma filter_all {A} (f : A -> bool) (l : list A) :
  (forall x, In x l -> f x = true) -> List.filter f l = l.
Proof.
  induction l as [|x l IH]; simpl; intros H; [reflexivity|].
  rewrite (H x) by (left; reflexivity). f_equal. apply IH. intros y Hy. apply H. now right.
Qed.

Lemma filter_none {A} (f : A -> bool) (l : list A) :
  (forall x, In x l -> f x = false) -> List.filter f l = [].
Proof.
  induction l as [|x l IH]; simpl; intros H; [reflexivity|].
  rewrite (H x) by (left; reflexivity). apply IH. intros y Hy. apply H. now right.
Qed.

Lemma filter_map_fst {A B} (f : A -> bool) (l : list (A * B)) :
  List.filter f (map fst l) = map fst (List.filter (fun kv => f (fst kv)) l).
Proof.
  induction l as [|[a b] l IH]; simpl; [reflexivity|].
  destruct (f a); simpl; now rewrite IH.
Qed.

Lemma filter_split_length {A} (f : A -> bool) (l : list A) :
  (List.length (List.filter f l) + List.length (List.filter (fun x => negb (f x)) l))%nat
  = List.length l.
Proof.
  induction l as [|x l IH]; simpl; [reflexivity|].
  destruct (f x); simpl; lia.
Qed.

Lemma existsb_eqb_In k (ks : list string) : existsb (String.eqb k) ks = true <-> In k ks.
Proof.
  rewrite existsb_exists. split.
  - intros (k' & Hin & E). apply String.eqb_eq in E. now subst.
  - intros H. exists k. split; [exact H | apply String.eqb_refl].
Qed.

Lemma existsb_eqb_not_In k (ks : list string) : existsb (String.eqb k) ks = false <-> ~ In k ks.
Proof.
  rewrite <- existsb_eqb_In. destruct (existsb (String.eqb k) ks); split; congruence.
Qed.

Lemma NoDup_map_inj {A B} (f : A -> B) (l : list A) :
  (forall x y, In x l -> In y l -> f x = f y -> x = y) -> NoDup l -> NoDup (map f l).
Proof.
  induction l as [|x l IH]; simpl; intros Hinj Hnd; [constructor|].
  apply NoDup_cons in Hnd. destruct Hnd as [Hx Hnd]. apply NoDup_cons. split.
  - intros Hin. apply list_elem_of_In, in_map_iff in Hin.
    destruct Hin as (y & Hy & Hin). apply Hx. apply list_elem_of_In.
    rewrite (Hinj x y (or_introl eq_refl) (or_intror Hin) (eq_sym Hy)). exact Hin.
  - apply IH; [|exact Hnd]. intros y z Hy Hz. apply Hinj; now right.
Qed.

Lemma assoc_Some_In k raw (l : list (string * string)) :
  Storage.assoc k l = Some raw -> In k (map fst l).
Proof.
  induction l as [|[k0 v0] l IH]; simpl; [discriminate|].
  destruct (String.eqb k0 k) eqn:E; [left; now apply String.eqb_eq | right; auto].
Qed.

Lemma assoc_None_not_In k (l : list (string * string)) :
  Storage.assoc k l = None <-> ~ In k (map fst l).
Proof.
  split.
  - intros H Hin. destruct (in_assoc k l Hin) as (raw & Ha & _). congruence.
  - intros H. destruct (Storage.assoc k l) as [raw|] eqn:E; [|reflexivity].
    exfalso. apply H. eapply assoc_Some_In. exact E.
Qed.

(** The entries that are left after deleting the keys [ks]. *)
Lemma items_remove_all ks st :
  Storage.items (remove_all ks st)
  = List.filter (fun kv : string * string => negb (existsb (String.eqb (fst kv)) ks))
      (Storage.items st).
Proof.
  revert st. induction ks as [|k ks IH]; intros st; simpl.
  - symmetry. apply filter_all. reflexivity.
  - rewrite IH. simpl. rewrite filter_and. apply List.filter_ext.
    intros [k0 v0]. simpl. destruct (String.eqb k0 k); reflexivity.
Qed.
End ListFacts.

Section OwnedKeys.
Variable P : Platform.
Variable c : Config.

Lemma strip_getKey key : strip c (SafeVault.getKey c key) = key.
Proof.
  unfold strip, SafeVault.getKey. induction (prefix c) as [|a p IH]; [reflexivity|exact IH].
Qed.

Lemma owns_prefixed k : owns c k = true -> SafeVault.getKey c (strip c k) = k.
Proof.
  unfold owns. intros H. apply andb_true_iff in H. apply prefix_strip. tauto.
Qed.

Lemma owns_getKey key : SafeVault.getKey c key <> "" -> owns c (SafeVault.getKey c key) = true.
Proof.
  intros Hne. unfold owns. rewrite getKey_prefixed, andb_true_r.
  destruct (String.eqb (SafeVault.getKey c key) "") eqn:E; [|reflexivity].
  apply String.eqb_eq in E. contradiction.
Qed.

Lemma keys_spec s : SafeVault.keys c s = (s, Ret (map (strip c) (owned_keys c (storage s)))).
Proof. unfold SafeVault.keys, bind. rewrite getAllKeys_spec. reflexivity. Qed.

Lemma in_owned_keys k st :
  In k (owned_keys c st) <-> owns c k = true /\ Storage.getItem k st <> None.
Proof.
  unfold owned_keys, Storage.getItem. rewrite List.filter_In. split.
  - intros [Hin Ho]. split; [exact Ho|]. intros Hn. apply assoc_None_not_In in Hn. contradiction.
  - intros [Ho Hg]. split; [|exact Ho].
    destruct (Storage.assoc k (Storage.items st)) as [raw|] eqn:E; [|contradiction].
    eapply assoc_Some_In. exact E.
Qed.


End OwnedKeys.

(** * The write path of [set] *)
Section WritePath.
Variable P : Platform.
Variable c : Config.

(** [set] is the write path followed by the notifications; what either
    throws goes to [handleError]. *)
Lemma set_unfold key value ttl md s :
  SafeVault.set P c key value ttl md s
  = match write P c key (record c (now s) value ttl md) (storage s) with
    | Ret st =>
        match SafeVault.notifyListeners key value (with_storage st s) with
        | (s1, Ret _) => (s1, Ret true)
        | (s1, Throw e) => (SafeVault.handleError c e "set" key ;; ret false) s1
        end
    | Throw e => (SafeVault.handleError c e "set" key ;; ret false) s
    end.
Proof.
  unfold SafeVault.set, write, record, try_catch, bind at 1 2 3 4, Date_now, lift,
    storage_setItem.
  destruct (SafeVault.encode c _) as [raw|e]; [|reflexivity].
  destruct (Storage.setItem _ raw (storage s)) as [st|e]; [|reflexivity].
  destruct (SafeVault.notifyListeners key value (with_storage st s)) as [s1 [[]|e]];
    reflexivity.
Qed.


End WritePath.

(** * The properties of the specification *)

Section ReadAfterWrite.
Variable P : Platform.
Variable c : Config.

Lemma envelope_expiry value expiry ver md :
  get_prop "expiry" (envelope value expiry ver md) = Ret (Json expiry).
Proof. destruct value; reflexivity. Qed.

Lemma envelope_value value expiry ver md :
  get_prop "value" (envelope value expiry ver md) = Ret value.
Proof. destruct value, md; reflexivity. Qed.

Lemma expired_number t e : SafeVault.expired P t (Json (JNum e)) = (e <? t).
Proof. reflexivity. Qed.

(** What [set] stored is what [get] finds under the key. *)
Lemma set_true_stored key value ttl md s s1 :
  SafeVault.set P c key value ttl md s = (s1, Ret true) ->
  exists raw,
    writes_as P c
      (envelope value (match ttl with Some ms => JNum (now s + ms) | None => JNull end)
         (version c) md) raw /\
    Storage.getItem (SafeVault.getKey c key) (storage s1) = Some raw /\
    listeners s1 = listeners s /\ now s1 = now s.
Proof.
  intros H. apply set_true_inv in H. destruct H as (raw & st & Hw & Hs & Hst & Hl & Ht).
  exists raw. rewrite Hst. split; [exact Hw|]. split; [|auto].
  eapply getItem_setItem_eq; exact Hs.
Qed.

(** A record without expiry has no remaining time to live. *)
Lemma getTTL_permanent key s raw d :
  Storage.getItem (SafeVault.getKey c key) (storage s) = Some raw ->
  reads_as P c raw d ->
  get_prop "expiry" d = Ret null ->
  SafeVault.getTTL P c key s = (s, Ret None).
Proof.
  intros Hget (Hne & text & Hdec & Hparse) Hexp.
  unfold SafeVault.getTTL, try_catch, bind, storage_getItem, lift, SafeVault.parse.
  rewrite Hget, (no_item_some raw Hne). simpl item_text.
  rewrite Hdec, Hparse, Hexp. reflexivity.
Qed.
End ReadAfterWrite.

(** C1. For every key, value and time to live [T > 0]: a [get] that follows a
    successful [set key value T] while the clock is not past the expiry (in
    particular immediately) returns the value and changes nothing; once the
    clock is past the expiry, [get] returns [null] and the namespaced key is
    no longer in the host store. *)
Theorem get_within_ttl_then_expired (P : Platform) (c : Config) (key : string)
    (value : JSON) (T : Z) (md : option JSON) (s s1 : State) :
  0 < T ->
  hook_returns c ->
  round_trips P c (envelope (Json value) (JNum (now s + T)) (version c) md) ->
  SafeVault.set P c key (Json value) (Some T) md s = (s1, Ret true) ->
  (forall t, now s <= t <= now s + T ->
     SafeVault.get P c key (at_time t s1) = (at_time t s1, Ret (Json value)))
  /\
  (forall t, now s + T < t ->
     exists s2,
       SafeVault.get P c key (at_time t s1) = (s2, Ret null) /\
       Storage.getItem (SafeVault.getKey c key) (storage s2) = None).
Proof.
  intros HT Hq Hrt Hset.
  destruct (set_true_stored P c key _ _ _ s s1 Hset) as (raw & Hw & Hget & _ & _).
  specialize (Hrt raw Hw).
  split; intros t Ht.
  - destruct (get_live P c key (at_time t s1) raw _ _ Hget Hrt (envelope_expiry _ _ _ _))
      as (v & Hv & Hg).
    + rewrite check_expiry_number. simpl. f_equal. apply Z.ltb_ge. lia.
    + rewrite envelope_value in Hv. injection Hv as <-. exact Hg.
  - destruct (get_expired_gone P c key (at_time t s1) raw _ _ Hget Hrt (envelope_expiry _ _ _ _))
      as (s2 & Hg & Hst & _).
    + rewrite expired_number. simpl. apply Z.ltb_lt. lia.
    + exact Hq.
    + exists s2. split; [exact Hg|]. rewrite Hst. apply getItem_removeItem_eq.
Qed.

Lemma default_hook_returns : hook_returns default_config.
Proof. intros hook H. discriminate H. Defined.

(** The scenario of the specification: [set("token", "abc123", 1000)] at
    time 0, read at time 500 and at time 1500. *)
Lemma get_within_ttl_then_expired_witness :
  SafeVault.get reference_platform default_config "token" (at_time 500 token_stored)
  = (at_time 500 token_stored, Ret (Json (JStr "abc123")))
  /\
  exists s2,
    SafeVault.get reference_platform default_config "token" (at_time 1500 token_stored)
    = (s2, Ret null) /\
    Storage.getItem "sv_token" (storage s2) = None.
Proof.
  destruct (get_within_ttl_then_expired reference_platform default_config "token"
              (JStr "abc123") 1000 None fresh token_stored) as [Hlive Hdue].
  - lia.
  - exact default_hook_returns.
  - intros raw Hw. vm_compute in Hw. injection Hw as <-.
    split; [discriminate|].
    exists (RefJSON.stringify
              (envelope (Json (JStr "abc123")) (JNum 1000) (version default_config) None)).
    split; vm_compute; reflexivity.
  - vm_compute. reflexivity.
  - split; [apply Hlive | apply Hdue]; simpl; lia.
Defined.

(** C2. For every key and every JSON-representable value, with identity
    encode and decode: after a successful [set key value] without a time to
    live, [get key] returns the value unchanged, whatever the clock shows,
    and [getTTL key] returns [null]; neither call changes anything. *)
Theorem set_get_round_trip (P : Platform) (c : Config) (key : string)
    (value : JSON) (md : option JSON) (s s1 : State) :
  identity_coding c ->
  faithful P (envelope (Json value) JNull (version c) md) ->
  SafeVault.set P c key (Json value) None md s = (s1, Ret true) ->
  forall t,
    SafeVault.get P c key (at_time t s1) = (at_time t s1, Ret (Json value)) /\
    SafeVault.getTTL P c key (at_time t s1) = (at_time t s1, Ret None).
Proof.
  intros Hid [Hne Hparse] Hset t.
  destruct (set_true_stored P c key _ _ _ s s1 Hset) as (raw & Hw & Hget & _ & _).
  unfold writes_as in Hw. rewrite (proj1 (Hid _)) in Hw. injection Hw as <-.
  set (d := envelope (Json value) JNull (version c) md) in *.
  assert (Hread : reads_as P c (JSON_stringify P d) d).
  { split; [exact Hne|]. exists (JSON_stringify P d). split; [apply Hid|exact Hparse]. }
  split.
  - destruct (get_live P c key (at_time t s1) _ d _ Hget Hread (envelope_expiry _ _ _ _))
      as (v & Hv & Hg); [reflexivity|].
    unfold d in Hv. rewrite envelope_value in Hv. injection Hv as <-. exact Hg.
  - apply (getTTL_permanent P c key (at_time t s1) _ d Hget Hread).
    apply envelope_expiry.
Qed.

Lemma default_identity_coding : identity_coding default_config.
Proof. intros text. split; reflexivity. Defined.

(** The scenario of the specification: [set("user", {id: 1})], read a
    day later. *)
Lemma set_get_round_trip_witness :
  SafeVault.get reference_platform default_config "user" (at_time 86400000 user_stored)
  = (at_time 86400000 user_stored, Ret (Json (JObj [("id", JNum 1)]))) /\
  SafeVault.getTTL reference_platform default_config "user" (at_time 86400000 user_stored)
  = (at_time 86400000 user_stored, Ret None).
Proof.
  apply (set_get_round_trip reference_platform default_config "user"
           (JObj [("id", JNum 1)]) None fresh user_stored).
  - exact default_identity_coding.
  - split; [vm_compute; discriminate | vm_compute; reflexivity].
  - vm_compute. reflexivity.
Defined.

Section Isolation.
Variables cA cB : Config.
Hypothesis Hsep : separate (prefix cA) (prefix cB).

(** The entries of the second vault are among those the first one never
    touches. *)
Lemma owned_from_foreign st :
  owned_entries cB st
  = List.filter (fun kv : string * string => owns cB (fst kv)) (foreign_entries cA st).
Proof.
  unfold owned_entries, foreign_entries.
  induction (Storage.items st) as [|[k v] l IH]; simpl; [reflexivity|].
  destruct (owns cB k) eqn:Ho.
  - assert (Hp : String.prefix (prefix cA) k = false).
    { destruct (String.prefix (prefix cA) k) eqn:E; [|reflexivity].
      exfalso. unfold owns in Ho. apply andb_true_iff in Ho.
      eapply separate_not_both; [exact Hsep | exact E | exact (proj2 Ho)]. }
    rewrite Hp. simpl. rewrite Ho, IH. reflexivity.
  - destruct (String.prefix (prefix cA) k); simpl; [exact IH|]. rewrite Ho. exact IH.
Qed.

Lemma assoc_foreign k (l : list (string * string)) :
  String.prefix (prefix cA) k = false ->
  Storage.assoc k
    (List.filter (fun kv : string * string => negb (String.prefix (prefix cA) (fst kv))) l)
  = Storage.assoc k l.
Proof.
  intros Hk. induction l as [|[k0 v0] l IH]; simpl; [reflexivity|].
  destruct (String.eqb k0 k) eqn:E.
  - apply String.eqb_eq in E. subst k0. rewrite Hk. simpl. now rewrite String.eqb_refl.
  - destruct (String.prefix (prefix cA) k0); simpl; [exact IH|]. now rewrite E.
Qed.

Lemma getKey_foreign key : String.prefix (prefix cA) (SafeVault.getKey cB key) = false.
Proof.
  destruct (String.prefix (prefix cA) (SafeVault.getKey cB key)) eqn:E; [|reflexivity].
  exfalso. eapply separate_not_both; [exact Hsep | exact E | apply getKey_prefixed].
Qed.
End Isolation.

(** C3, as amended. For two vaults over one host store whose prefixes are
    separate (neither is the beginning of the other): no stored key belongs
    to both, and no call on the first vault, whether it returns or throws,
    changes the entries of the second: they stay the same entries in the
    same order, and every key of the second vault reads as before. *)
Theorem separate_prefixes_isolated (P : Platform) (cA cB : Config) :
  separate (prefix cA) (prefix cB) ->
  (forall k, owns cA k = true -> owns cB k = true -> False) /\
  (forall call s s' r,
     run P cA call s = (s', r) ->
     owned_entries cB (storage s') = owned_entries cB (storage s) /\
     forall key,
       Storage.getItem (SafeVault.getKey cB key) (storage s')
       = Storage.getItem (SafeVault.getKey cB key) (storage s)).
Proof.
  intros Hsep. split.
  - intros k Ha Hb. unfold owns in Ha, Hb.
    apply andb_true_iff in Ha. apply andb_true_iff in Hb.
    eapply separate_not_both; [exact Hsep | exact (proj2 Ha) | exact (proj2 Hb)].
  - intros call s s' r Hrun.
    pose proof (frame_run P cA call s s' r Hrun) as Hf. unfold same_foreign in Hf.
    split.
    + rewrite !(owned_from_foreign cA cB Hsep). now rewrite Hf.
    + intros key. unfold Storage.getItem.
      rewrite <- (assoc_foreign cA _ (Storage.items (storage s')) (getKey_foreign cA cB Hsep key)).
      rewrite <- (assoc_foreign cA _ (Storage.items (storage s)) (getKey_foreign cA cB Hsep key)).
      unfold foreign_entries in Hf. now rewrite Hf.
Qed.

(** The scenario of the specification: prefixes [a_] and [b_] over one
    store; [clear()] on the first vault leaves the second vault's entry. *)
Lemma separate_prefixes_isolated_witness :
  owned_entries (with_prefix "b_")
    (storage (fst (run reference_platform (with_prefix "a_") CallClear shared_a_b)))
  = owned_entries (with_prefix "b_") (storage shared_a_b)
  /\
  Storage.getItem "a_x"
    (storage (fst (run reference_platform (with_prefix "a_") CallClear shared_a_b))) = None.
Proof.
  split.
  - apply (proj2 (separate_prefixes_isolated reference_platform (with_prefix "a_")
                    (with_prefix "b_") (conj eq_refl eq_refl))
             CallClear shared_a_b _
             (snd (run reference_platform (with_prefix "a_") CallClear shared_a_b))).
    apply surjective_pairing.
  - vm_compute. reflexivity.
Defined.

(** C3 as stated fails: the prefixes [a] and [ab] are different, the stored
    key [abx] belongs to both vaults, and [clear()] on the first vault
    deletes the value that the second one stored under [x]. *)
Lemma different_prefixes_collide :
  prefix (with_prefix "a") = "a" /\
  prefix (with_prefix "ab") = "ab" /\
  owns (with_prefix "a") "abx" = true /\
  owns (with_prefix "ab") "abx" = true /\
  snd (SafeVault.get reference_platform (with_prefix "ab") "x" shared_a_ab)
  = Ret (Json (JNum 1)) /\
  snd (SafeVault.get reference_platform (with_prefix "ab") "x"
         (fst (SafeVault.clear (with_prefix "a") shared_a_ab)))
  = Ret null /\
  owned_entries (with_prefix "ab") (storage (fst (SafeVault.clear (with_prefix "a") shared_a_ab)))
  = [].
Proof. repeat split; vm_compute; reflexivity. Qed.

Section ErrorPaths.
Variable P : Platform.
Variable c : Config.

(** Undecodable text that is not empty: [get] reports the error, deletes
    the key without telling the subscribers, and answers [null]. *)
Lemma get_undecodable key s raw :
  Storage.getItem (SafeVault.getKey c key) (storage s) = Some raw ->
  raw <> "" ->
  undecodable P c raw = true ->
  hook_returns c ->
  SafeVault.get P c key s
  = (with_storage (Storage.removeItem (SafeVault.getKey c key) (storage s))
       (with_log (log s ++ [report c (decoding_error P c raw) "get" key]) s),
     Ret null).
Proof.
  intros Hget Hne Hbad Hq.
  unfold SafeVault.get, try_catch, bind at 1 2 3 4 5, storage_getItem, lift, SafeVault.parse.
  unfold undecodable in Hbad. unfold decoding_error.
  rewrite Hget, (no_item_some raw Hne). simpl item_text.
  destruct (SafeVault.decode c raw) as [text|e].
  - destruct (JSON_parse P text) as [d|].
    + destruct d; try discriminate. simpl.
      unfold bind. rewrite (handleError_returns c TypeError "get" key s Hq). reflexivity.
    + unfold bind. rewrite (handleError_returns c SyntaxError "get" key s Hq). reflexivity.
  - unfold bind. rewrite (handleError_returns c e "get" key s Hq). reflexivity.
Qed.
End ErrorPaths.

(** C9. When [get key] finds an expired record it evicts it through
    [remove]: it runs [remove key] and answers [null], so when the
    subscribers of the key return, each of them has been called once with
    [null], in the order of registration, and the key is gone. When [get key]
    finds a record that cannot be decoded it deletes the key from the host
    store directly: the only call it makes is the error report, and no
    subscriber is called. *)
Theorem get_eviction_notifies_corruption_does_not (P : Platform) (c : Config)
    (key : string) (s : State) (raw : string) :
  Storage.getItem (SafeVault.getKey c key) (storage s) = Some raw ->
  (forall d expiry,
     reads_as P c raw d ->
     get_prop "expiry" d = Ret expiry ->
     SafeVault.expired P (now s) expiry = true ->
     SafeVault.get P c key s
     = try_catch (SafeVault.remove c key ;; ret null)
         (fun error =>
            SafeVault.handleError c error "get" key ;;
            storage_removeItem (SafeVault.getKey c key) ;;
            ret null) s
     /\
     forall callbacks,
       listeners s !! key = Some callbacks ->
       (forall cb, In cb callbacks -> cb_run cb null = Ret tt) ->
       SafeVault.get P c key s
       = (with_log (log s ++ map (fun cb => EvNotify key (cb_id cb) null) callbacks)
            (with_storage (Storage.removeItem (SafeVault.getKey c key) (storage s)) s),
          Ret null))
  /\
  (raw <> "" ->
   undecodable P c raw = true ->
   hook_returns c ->
   exists s',
     SafeVault.get P c key s = (s', Ret null) /\
     Storage.getItem (SafeVault.getKey c key) (storage s') = None /\
     log s' = (log s ++ [report c (decoding_error P c raw) "get" key])%list /\
     List.filter is_notification (log s') = List.filter is_notification (log s)).
Proof.
  intros Hget. split.
  - intros d expiry Hread Hexp Hdue.
    pose proof (get_expired P c key s raw d expiry Hget Hread Hexp Hdue) as Heq.
    split; [exact Heq|].
    intros callbacks Hcbs Hall. rewrite Heq.
    unfold try_catch, SafeVault.remove, bind, storage_removeItem, SafeVault.notifyListeners.
    simpl. rewrite Hcbs.
    rewrite (call_each_returns key null callbacks _ Hall). reflexivity.
  - intros Hne Hbad Hq.
    rewrite (get_undecodable P c key s raw Hget Hne Hbad Hq).
    eexists. split; [reflexivity|]. simpl.
    split; [apply getItem_removeItem_eq|]. split; [reflexivity|].
    rewrite List.filter_app. simpl.
    unfold report. destruct (onError c); simpl; apply app_nil_r.
Qed.

(** The token of the first scenario with two subscribers, read after its
    expiry; and text that is not JSON under a key that has a subscriber. *)
Lemma get_eviction_notifies_corruption_does_not_witness :
  SafeVault.get reference_platform default_config "token" (at_time 1500 token_watched)
  = (with_log [EvNotify "token" 1 null; EvNotify "token" 2 null]
       (with_storage (Storage.removeItem "sv_token" (storage token_watched))
          (at_time 1500 token_watched)),
     Ret null)
  /\
  exists s',
    SafeVault.get reference_platform default_config "draft" corrupted = (s', Ret null) /\
    Storage.getItem "sv_draft" (storage s') = None /\
    log s' = [EvConsoleError "get" "draft" SyntaxError] /\
    List.filter is_notification (log s') = [].
Proof.
  split.
  - refine (proj2 (proj1 (get_eviction_notifies_corruption_does_not reference_platform
                            default_config "token" (at_time 1500 token_watched) _ eq_refl)
                     (envelope (Json (JStr "abc123")) (JNum 1000) "1.0.0" None)
                     (Json (JNum 1000)) _ eq_refl eq_refl)
              [quiet_subscriber 1; quiet_subscriber 2] eq_refl _).
    + split; [discriminate|].
      exists (RefJSON.stringify (envelope (Json (JStr "abc123")) (JNum 1000) "1.0.0" None)).
      split; vm_compute; reflexivity.
    + intros cb [<-|[<-|[]]]; reflexivity.
  - refine (proj2 (get_eviction_notifies_corruption_does_not reference_platform
                     default_config "draft" corrupted "{oops" eq_refl) _ eq_refl _).
    + discriminate.
    + exact default_hook_returns.
Defined.

(** C10. If a subscriber registered for the key throws while [set key value]
    notifies the subscribers, [set] catches what was thrown, reports it as an
    error of the operation [set] on that key, and returns [false]; the value
    had been written before and remains stored: the host store is the one
    the write produced, and the key reads the stored text. *)
Theorem set_reports_throwing_subscriber (P : Platform) (c : Config) (key : string)
    (value : JSVal) (ttl : option Z) (md : option JSON) (s s1 : State)
    (raw : string) (st : Storage.t) (e : Exn) :
  writes_as P c
    (envelope value (match ttl with Some ms => JNum (now s + ms) | None => JNull end)
       (version c) md) raw ->
  Storage.setItem (SafeVault.getKey c key) raw (storage s) = Ret st ->
  SafeVault.notifyListeners key value (with_storage st s) = (s1, Throw e) ->
  hook_returns c ->
  SafeVault.set P c key value ttl md s
  = (with_log (log s1 ++ [report c e "set" key]) s1, Ret false)
  /\ storage s1 = st
  /\ Storage.getItem (SafeVault.getKey c key) st = Some raw.
Proof.
  intros Hw Hs Hn Hq. unfold writes_as in Hw.
  split; [|split].
  - unfold SafeVault.set, try_catch, bind at 1 2 3 4, Date_now, lift, storage_setItem.
    rewrite Hw, Hs, Hn. unfold bind.
    rewrite (handleError_returns c e "set" key s1 Hq). reflexivity.
  - apply notifyListeners_frame in Hn. simpl in Hn. apply Hn.
  - eapply getItem_setItem_eq. exact Hs.
Qed.

(** [set("token", "abc123", 1000)] with a subscriber that throws. *)
Lemma set_reports_throwing_subscriber_witness :
  exists s1,
    SafeVault.set reference_platform default_config "token" (Json (JStr "abc123"))
      (Some 1000) None fragile
    = (with_log (log s1 ++ [EvConsoleError "set" "token" (UserError "subscriber failed")]) s1,
       Ret false)
    /\ storage s1 = storage token_stored
    /\ Storage.getItem "sv_token" (storage token_stored)
       = Some (RefJSON.stringify (envelope (Json (JStr "abc123")) (JNum 1000) "1.0.0" None)).
Proof.
  eexists.
  apply (set_reports_throwing_subscriber reference_platform default_config "token"
           (Json (JStr "abc123")) (Some 1000) None fragile _
           (RefJSON.stringify (envelope (Json (JStr "abc123")) (JNum 1000) "1.0.0" None))
           (storage token_stored) (UserError "subscriber failed")).
  - reflexivity.
  - vm_compute. reflexivity.
  - vm_compute. reflexivity.
  - exact default_hook_returns.
Defined.

(** Where the text is not empty, [get] heals a record that cannot be
    decoded: the first [get] deletes the key, reports the error once and
    answers [null]; a second [get] answers [null] and does nothing. *)
Theorem get_heals_undecodable (P : Platform) (c : Config) (key : string) (s : State)
    (raw : string) :
  Storage.getItem (SafeVault.getKey c key) (storage s) = Some raw ->
  raw <> "" ->
  undecodable P c raw = true ->
  hook_returns c ->
  exists s',
    SafeVault.get P c key s = (s', Ret null) /\
    Storage.getItem (SafeVault.getKey c key) (storage s') = None /\
    log s' = (log s ++ [report c (decoding_error P c raw) "get" key])%list /\
    SafeVault.get P c key s' = (s', Ret null).
Proof.
  intros Hget Hne Hbad Hq.
  rewrite (get_undecodable P c key s raw Hget Hne Hbad Hq).
  eexists. split; [reflexivity|].
  assert (Hgone : Storage.getItem (SafeVault.getKey c key)
                    (Storage.removeItem (SafeVault.getKey c key) (storage s)) = None)
    by apply getItem_removeItem_eq.
  split; [exact Hgone|]. split; [reflexivity|].
  apply get_absent. exact Hgone.
Qed.

(** C4 at the input where the code departs from it. The empty text under
    the key [sv_draft] cannot be decoded ([JSON.parse] rejects it), yet
    [get("draft")] answers [null] through the guard for a missing item: the
    key stays in the host store and nothing is reported. *)
Theorem get_keeps_empty_item :
  Storage.getItem "sv_draft" (storage blank) = Some "" /\
  undecodable reference_platform default_config "" = true /\
  SafeVault.get reference_platform default_config "draft" blank = (blank, Ret null) /\
  Storage.getItem "sv_draft"
    (storage (fst (SafeVault.get reference_platform default_config "draft" blank))) = Some "" /\
  log (fst (SafeVault.get reference_platform default_config "draft" blank)) = [].
Proof. repeat split; vm_compute; reflexivity. Qed.

(** C6 at the input where the code departs from it. The empty text under
    the key [sv_draft] is undecodable, so the specification counts it; the
    loop of [cleanupExpired] skips it through the guard for a missing item:
    the count is 0, the key stays, and [keys()] still lists it. *)
Theorem cleanupExpired_skips_empty_item :
  owned_entries default_config (storage blank) = [("sv_draft", "")] /\
  stale reference_platform default_config (now blank) "" = true /\
  SafeVault.cleanupExpired reference_platform default_config blank = (blank, Ret 0%nat) /\
  SafeVault.keys default_config
    (fst (SafeVault.cleanupExpired reference_platform default_config blank))
  = (blank, Ret ["draft"]).
Proof. repeat split; vm_compute; reflexivity. Qed.




(** C8, as amended. Provided the [onError] hook, when one is configured,
    returns: every call of the public interface returns to its caller,
    whatever the encode and decode functions do, whether or not the host
    store accepts a write, and whatever the subscribers do inside [set],
    [get] and [import]; for [remove] and [removeMany] this needs the
    registered subscribers to return, and for [update] the updater. *)
Theorem calls_return_when_callbacks_do (P : Platform) (c : Config) (call : Call)
    (s : State) :
  hook_returns c ->
  callbacks_return call s ->
  exists s' a, run P c call s = (s', Ret a).
Proof.
  intros Hhook Hcb.
  assert (Hans : forall A (f : A -> Answer) (m : M A),
            (exists s' a, m s = (s', Ret a)) -> exists s' a, answer f m s = (s', Ret a)).
  { intros A f m (s' & a & Hm). unfold answer, bind. rewrite Hm.
    exists s', (f a). reflexivity. }
  destruct call; unfold run; apply Hans; simpl in Hcb.
  - apply returns_set, Hhook.
  - apply returns_get, Hhook.
  - apply returns_getOrDefault, Hhook.
  - apply returns_has, Hhook.
  - apply returns_getMetadata.
  - apply returns_update; assumption.
  - apply returns_setIfAbsent, Hhook.
  - destruct (remove_returns c key s Hcb) as (s' & Hr & _). exists s', tt. exact Hr.
  - destruct (removeMany_returns c keys s Hcb) as (s' & Hr). exists s', tt. exact Hr.
  - apply returns_clear.
  - apply returns_keys.
  - apply returns_entries, Hhook.
  - apply returns_cleanupExpired.
  - apply returns_getStats.
  - apply returns_subscribe.
  - apply returns_unsubscribe.
  - apply returns_export, Hhook.
  - apply returns_import, Hhook.
  - apply returns_getTTL.
  - apply returns_extendTTL, Hhook.
Qed.

Lemma quiet_subscribers_return : subscribers_return token_watched.
Proof.
  intros key callbacks cb v Hl Hin.
  destruct (decide (key = "token")) as [->|Hne].
  - vm_compute in Hl. injection Hl as <-.
    destruct Hin as [<-|[<-|[]]]; reflexivity.
  - assert (Hreg : listeners token_watched
                   = <["token" := [quiet_subscriber 1; quiet_subscriber 2]]> ∅)
      by (vm_compute; reflexivity).
    rewrite Hreg, lookup_insert_ne, lookup_empty in Hl by congruence. discriminate.
Defined.

(** [remove("token")] with two subscribers that return. *)
Lemma calls_return_when_callbacks_do_witness :
  exists s' a,
    run reference_platform default_config (CallRemove "token") token_watched = (s', Ret a).
Proof.
  apply (calls_return_when_callbacks_do reference_platform default_config
           (CallRemove "token") token_watched).
  - exact default_hook_returns.
  - exact quiet_subscribers_return.
Defined.

(** C8 as stated fails. With a subscriber that throws, [remove] lets what
    was thrown reach the caller; [update] does the same with an updater
    that throws; and when the [onError] hook itself throws, so does
    [set]. *)
Lemma errors_reach_the_caller :
  snd (run reference_platform default_config (CallRemove "token") fragile)
  = Throw (UserError "subscriber failed") /\
  snd (run reference_platform default_config
         (CallUpdate "token" (fun _ => Throw (UserError "updater failed")))
         token_stored)
  = Throw (UserError "updater failed") /\
  snd (run reference_platform brittle_config
         (CallSet "token" (Json (JStr "abc123")) None None) fresh)
  = Throw (UserError "hook failed").
Proof. repeat split; vm_compute; reflexivity. Qed.



(** * The round trip on the reference platform *)

(** With identity coding, whatever the write path stores on the reference
    platform for a record in property order is read back as that record. *)
Lemma reference_round_trips (c : Config) (d : JSON) :
  identity_coding c ->
  RefJSON.normalize d = d ->
  round_trips reference_platform c d.
Proof.
  intros Hid Hd raw Hw. unfold writes_as in Hw.
  rewrite (proj1 (Hid _)) in Hw. injection Hw as <-.
  destruct (reference_faithful d Hd) as [Hne Hparse].
  split; [exact Hne|]. eexists. split; [apply Hid | exact Hparse].
Qed.

(** The round trip on the reference platform, with nothing assumed of the
    codec: for every key and every value whose objects are in property
    order, after a successful [set] without a time to live, [get] returns
    the value and [getTTL] returns [null]. *)
Theorem reference_set_get (c : Config) (key : string) (value : JSON) (s s1 : State) :
  identity_coding c ->
  RefJSON.normalize value = value ->
  SafeVault.set reference_platform c key (Json value) None None s = (s1, Ret true) ->
  forall t,
    SafeVault.get reference_platform c key (at_time t s1) = (at_time t s1, Ret (Json value)) /\
    SafeVault.getTTL reference_platform c key (at_time t s1) = (at_time t s1, Ret None).
Proof.
  intros Hid Hv Hset t.
  set (d := envelope (Json value) JNull (version c) None).
  assert (Hd : RefJSON.normalize d = d)
    by (apply normalize_envelope; [exact Hv | reflexivity | discriminate]).
  destruct (set_true_stored reference_platform c key _ _ _ s s1 Hset)
    as (raw & Hw & Hget & _ & _).
  pose proof (reference_round_trips c d Hid Hd raw Hw) as Hread.
  split.
  - destruct (get_live reference_platform c key (at_time t s1) raw d null Hget Hread)
      as (v & Hval & Hg); [apply envelope_expiry | reflexivity |].
    unfold d in Hval. rewrite envelope_value in Hval. injection Hval as <-. exact Hg.
  - apply (getTTL_permanent reference_platform c key (at_time t s1) raw d Hget Hread).
    apply envelope_expiry.
Qed.

(** [set("user", {id: 1})] on the reference platform, read a day later. *)
Lemma reference_set_get_witness :
  SafeVault.get reference_platform default_config "user" (at_time 86400000 user_stored)
  = (at_time 86400000 user_stored, Ret (Json (JObj [("id", JNum 1)]))) /\
  SafeVault.getTTL reference_platform default_config "user" (at_time 86400000 user_stored)
  = (at_time 86400000 user_stored, Ret None).
Proof.
  apply (reference_set_get default_config "user" (JObj [("id", JNum 1)]) fresh user_stored).
  - exact default_identity_coding.
  - reflexivity.
  - vm_compute. reflexivity.
Defined.

(** * Scenarios

    The properties that make C4 and C6 hold away from the empty text, at
    concrete inputs, and the remaining scenarios of the specification,
    evaluated on the reference platform. *)

(** Text that is not JSON under the key [draft]: the first [get] heals the
    record, the second finds nothing. *)
Lemma get_heals_undecodable_witness :
  exists s',
    SafeVault.get reference_platform default_config "draft" corrupted = (s', Ret null) /\
    Storage.getItem "sv_draft" (storage s') = None /\
    log s' = [EvConsoleError "get" "draft" SyntaxError] /\
    SafeVault.get reference_platform default_config "draft" s' = (s', Ret null).
Proof.
  apply (get_heals_undecodable reference_platform default_config "draft" corrupted "{oops").
  - reflexivity.
  - discriminate.
  - reflexivity.
  - exact default_hook_returns.
Defined.

Lemma mixed_well_formed : well_formed (storage mixed).
Proof. apply (bool_decide_unpack _). vm_compute. exact I. Defined.

Lemma mixed_no_blank_entry : no_blank_entry default_config (storage mixed).
Proof.
  intros k raw Hin. vm_compute in Hin.
  repeat (destruct Hin as [Hin|Hin]; [injection Hin as <- <-; discriminate|]).
  contradiction.
Defined.

Lemma tangled_well_formed : well_formed (storage tangled).
Proof. apply (bool_decide_unpack _). vm_compute. exact I. Defined.

Lemma tangled_no_blank_entry : no_blank_entry default_config (storage tangled).
Proof.
  intros k raw Hin. vm_compute in Hin.
  repeat (destruct Hin as [Hin|Hin]; [injection Hin as <- <-; discriminate|]).
  contradiction.
Defined.

(** A store with a live record, an expired one, an undecodable one and one
    whose expiry cannot be compared, and a foreign entry: three keys are
    swept, the live one and the foreign one stay. *)
Lemma cleanupExpired_sweeps_witness :
  exists s',
    SafeVault.cleanupExpired reference_platform default_config tangled = (s', Ret 3%nat) /\
    Storage.getItem "sv_old" (storage s') = None /\
    Storage.getItem "sv_bad" (storage s') = None /\
    Storage.getItem "sv_odd" (storage s') = None /\
    Storage.getItem "sv_live" (storage s') = Storage.getItem "sv_live" (storage tangled) /\
    Storage.getItem "other" (storage s') = Some "{oops".
Proof.
  destruct (cleanupExpired_sweeps reference_platform default_config tangled
              tangled_well_formed tangled_no_blank_entry) as (s' & Hrun & Hread & _).
  exists s'. split; [exact Hrun|].
  repeat split; rewrite Hread; reflexivity.
Defined.

(** The reference codec reads back what it writes. *)
Example reference_codec_round_trip :
  let v := JObj [("name", JStr (String RefJSON.dquote "quoted\line"));
                 ("tags", JArr [JNum (-3); JBool true; JNull; JArr []; JObj []]);
                 ("nested", JObj [("k", JStr (String "010"%char "tab"))])] in
  RefJSON.parse (RefJSON.stringify v) = Some v.
Proof. vm_compute. reflexivity. Qed.

(** [has(key)] after expiry is [false], twice, without any report. *)
Example has_after_expiry_twice :
  let first := SafeVault.has reference_platform default_config "token"
                 (at_time 1500 token_stored) in
  let second := SafeVault.has reference_platform default_config "token" (fst first) in
  snd first = Ret false /\ snd second = Ret false /\ log (fst second) = [].
Proof. repeat split; vm_compute; reflexivity. Qed.

(** [setIfAbsent] does not overwrite a live value and writes over an
    expired one. *)
Example setIfAbsent_live_and_expired :
  snd (SafeVault.setIfAbsent reference_platform default_config "token" (Json (JStr "new")) None
         (at_time 500 token_stored)) = Ret false /\
  (let after := SafeVault.setIfAbsent reference_platform default_config "token"
                  (Json (JStr "new")) None (at_time 1500 token_stored) in
   snd after = Ret true /\
   snd (SafeVault.get reference_platform default_config "token" (fst after))
   = Ret (Json (JStr "new"))).
Proof. repeat split; vm_compute; reflexivity. Qed.

(** [subscribe("user", cb)], [set("user", {id: 1})]: one call of [cb];
    after unsubscribing, [remove("user")] calls nobody. *)
Example subscribe_set_unsubscribe_remove :
  let cb := quiet_subscriber 7 in
  let subscribed := fst (SafeVault.subscribe "user" cb fresh) in
  let written := fst (SafeVault.set reference_platform default_config "user"
                        (Json (JObj [("id", JNum 1)])) None None subscribed) in
  let unsubscribed := fst (SafeVault.unsubscribe "user" cb written) in
  let removed := fst (SafeVault.remove default_config "user" unsubscribed) in
  log written = [EvNotify "user" 7 (Json (JObj [("id", JNum 1)]))] /\
  log removed = log written.
Proof. split; vm_compute; reflexivity. Qed.

(** [export], [clear], [import] without [merge]: the values come back, the
    time to live does not. *)
Example export_clear_import :
  let a_set := fst (SafeVault.set reference_platform default_config "a" (Json (JStr "x"))
                      None None fresh) in
  let b_set := fst (SafeVault.set reference_platform default_config "b" (Json (JNum 2))
                      (Some 10) None a_set) in
  let exported := SafeVault.export reference_platform default_config b_set in
  let cleared := fst (SafeVault.clear default_config (fst exported)) in
  match snd exported with
  | Ret text =>
      let imported := fst (SafeVault.import reference_platform default_config text false
                             cleared) in
      snd (SafeVault.entries reference_platform default_config imported)
      = Ret [("a", Json (JStr "x")); ("b", Json (JNum 2))] /\
      snd (SafeVault.getTTL reference_platform default_config "b" b_set) = Ret (Some 10) /\
      snd (SafeVault.getTTL reference_platform default_config "b" imported) = Ret None
  | Throw _ => False
  end.
Proof. vm_compute. repeat split; reflexivity. Qed.

(** The constructor sweeps once, and refuses to run without a [window]. *)
Example constructor_sweeps :
  let built := SafeVault.constructor reference_platform true default_options mixed in
  snd built = Ret default_config /\
  map fst (Storage.items (storage (fst built))) = ["sv_live"; "other"] /\
  snd (SafeVault.constructor reference_platform false default_options mixed)
  = Throw EnvironmentError.
Proof. repeat split; vm_compute; reflexivity. Qed.

(** The text [null] parses, so [import] without [merge] clears the store
    before [Object.entries] throws; the error is reported and [import]
    returns [false]. *)
Example import_null_after_clear :
  let imported := SafeVault.import reference_platform default_config "null" false
                    token_stored in
  snd imported = Ret false /\
  Storage.items (storage (fst imported)) = [] /\
  log (fst imported) = [EvConsoleError "import" "batch" TypeError].
Proof. repeat split; vm_compute; reflexivity. Qed.

(** An empty [prefix] option is replaced by the default prefix. *)
Example empty_prefix_is_default :
  prefix (with_prefix "") = "sv_" /\ prefix default_config = "sv_".
Proof. split; reflexivity. Qed.

(** A record whose expiry is an object with a property [toString]: the
    test of the expiry throws, so [get] treats the record as corrupt (it
    reports a [TypeError], deletes the key and answers [null]), [getTTL]
    answers [null], and [getStats] counts the key as expired. *)
Example incomparable_expiry_is_corrupt :
  let read := SafeVault.get reference_platform default_config "odd" tangled in
  RefJSON.parse (RefJSON.stringify odd_record) = Some odd_record /\
  snd read = Ret null /\
  Storage.getItem "sv_odd" (storage (fst read)) = None /\
  log (fst read) = [EvConsoleError "get" "odd" TypeError] /\
  snd (SafeVault.getTTL reference_platform default_config "odd" tangled) = Ret None /\
  snd (SafeVault.has reference_platform default_config "odd" tangled) = Ret false /\
  match snd (SafeVault.getStats reference_platform default_config tangled) with
  | Ret st => (totalKeys st, expiredKeys st) = (4%nat, 3%nat)
  | Throw _ => False
  end.
Proof. vm_compute. repeat split; reflexivity. Qed.

(** * A call that names a key touches that key only *)
Section OneKey.
Variable P : Platform.
Variable c : Config.
Variable k : string.

Lemma only_key_refl s : only_key k s s.
Proof. unfold only_key. auto. Qed.

Lemma only_key_trans s1 s2 s3 : only_key k s1 s2 -> only_key k s2 s3 -> only_key k s1 s3.
Proof.
  intros (Hl & Ht & Hc & Hg) (Hl' & Ht' & Hc' & Hg').
  repeat split; try congruence.
  intros k' Hk'. rewrite Hg', Hg by exact Hk'. reflexivity.
Qed.

Lemma one_ret {A} (a : A) : stays (only_key k) (ret a).
Proof. apply stays_ret, only_key_refl. Qed.

Lemma one_lift {A} (x : Res A) : stays (only_key k) (lift x).
Proof. apply stays_lift, only_key_refl. Qed.

Lemma one_bind {A B} (m : M A) (f : A -> M B) :
  stays (only_key k) m -> (forall a, stays (only_key k) (f a)) -> stays (only_key k) (bind m f).
Proof. apply stays_bind, only_key_trans. Qed.

Lemma one_try_catch {A} (m : M A) (h : Exn -> M A) :
  stays (only_key k) m -> (forall e, stays (only_key k) (h e)) ->
  stays (only_key k) (try_catch m h).
Proof. apply stays_try_catch, only_key_trans. Qed.

(** A step that changes the log at most. *)
Lemma one_quiet {A} (m : M A) : stays only_log m -> stays (only_key k) m.
Proof.
  intros Hm s s' r H. destruct (Hm s s' r H) as (Hs & Hl & Ht).
  unfold only_key. rewrite Hs. auto.
Qed.

Lemma quiet_emit ev : stays only_log (emit ev).
Proof. intros s s' r [= <- _]. unfold only_log. auto. Qed.

Lemma quiet_Date_now : stays only_log Date_now.
Proof. intros s s' r [= <- _]. unfold only_log. auto. Qed.

Lemma quiet_getItem k0 : stays only_log (storage_getItem k0).
Proof. intros s s' r [= <- _]. unfold only_log. auto. Qed.

Lemma quiet_notifyListeners key v : stays only_log (SafeVault.notifyListeners key v).
Proof. intros s s' r. apply notifyListeners_frame. Qed.

Lemma quiet_handleError e op key : stays only_log (SafeVault.handleError c e op key).
Proof. intros s s' r. apply handleError_frame. Qed.

Lemma one_setItem v : stays (only_key k) (storage_setItem k v).
Proof.
  intros s s' r. unfold storage_setItem.
  destruct (Storage.setItem k v (storage s)) as [st|e] eqn:E; intros [= <- _].
  - unfold only_key. simpl. repeat split.
    + unfold Storage.setItem in E. destruct (Storage.fits _ _); [|discriminate].
      injection E as <-. reflexivity.
    + intros k' Hk'. eapply getItem_setItem_ne; [|exact E]. congruence.
  - apply only_key_refl.
Qed.

Lemma one_removeItem : stays (only_key k) (storage_removeItem k).
Proof.
  intros s s' r [= <- _]. unfold only_key. simpl. repeat split.
  intros k' Hk'. apply getItem_removeItem_ne. congruence.
Qed.
End OneKey.

Ltac one_key :=
  repeat first
    [ assumption
    | apply one_ret
    | apply one_lift
    | apply one_setItem
    | apply one_removeItem
    | apply one_quiet;
      solve [ apply quiet_emit | apply quiet_Date_now | apply quiet_getItem
            | apply quiet_notifyListeners | apply quiet_handleError ]
    | apply one_bind; [|intros ?]
    | apply one_try_catch; [|intros ?]
    | match goal with
      | |- stays _ (if ?b then _ else _) => destruct b
      | |- stays _ (match ?x with _ => _ end) => destruct x
      end ].

Section OneKeyMethods.
Variable P : Platform.
Variable c : Config.

Lemma one_set key value ttl md :
  stays (only_key (SafeVault.getKey c key)) (SafeVault.set P c key value ttl md).
Proof. unfold SafeVault.set. one_key. Qed.

Lemma one_remove key : stays (only_key (SafeVault.getKey c key)) (SafeVault.remove c key).
Proof. unfold SafeVault.remove. one_key. Qed.

Lemma one_get key : stays (only_key (SafeVault.getKey c key)) (SafeVault.get P c key).
Proof. pose proof (one_remove key). unfold SafeVault.get. one_key. Qed.

Lemma one_getMetadata key :
  stays (only_key (SafeVault.getKey c key)) (SafeVault.getMetadata P c key).
Proof. unfold SafeVault.getMetadata. one_key. Qed.

Lemma one_getTTL key : stays (only_key (SafeVault.getKey c key)) (SafeVault.getTTL P c key).
Proof. unfold SafeVault.getTTL. one_key. Qed.

Lemma one_has key : stays (only_key (SafeVault.getKey c key)) (SafeVault.has P c key).
Proof. pose proof (one_get key). unfold SafeVault.has. one_key. Qed.

Lemma one_getOrDefault key d :
  stays (only_key (SafeVault.getKey c key)) (SafeVault.getOrDefault P c key d).
Proof. pose proof (one_get key). unfold SafeVault.getOrDefault. one_key. Qed.

Lemma one_update key fn :
  stays (only_key (SafeVault.getKey c key)) (SafeVault.update P c key fn).
Proof.
  pose proof (one_get key). pose proof (one_set key). unfold SafeVault.update. one_key.
Qed.

Lemma one_setIfAbsent key value ttl :
  stays (only_key (SafeVault.getKey c key)) (SafeVault.setIfAbsent P c key value ttl).
Proof.
  pose proof (one_has key). pose proof (one_set key). unfold SafeVault.setIfAbsent. one_key.
Qed.

Lemma one_extendTTL key ms :
  stays (only_key (SafeVault.getKey c key)) (SafeVault.extendTTL P c key ms).
Proof.
  pose proof (one_get key). pose proof (one_getTTL key). pose proof (one_set key).
  unfold SafeVault.extendTTL. one_key.
Qed.
End OneKeyMethods.

(** Every call that names a key (set, get, getOrDefault, has, getMetadata,
    update, setIfAbsent, remove, getTTL, extendTTL), whether it returns or
    throws, leaves the registry, the clock and the quota as they are and
    changes in the host store nothing but what is held under the namespaced
    key: every other key, of this vault or not, reads as before. *)
Theorem keyed_call_touches_its_key (P : Platform) (c : Config) (call : Call) (key : string) :
  key_of call = Some key ->
  stays (only_key (SafeVault.getKey c key)) (run P c call).
Proof.
  intros Hkey.
  destruct call; simpl in Hkey; try discriminate; injection Hkey as ->;
    unfold run, answer; (apply one_bind; [|intros ?; apply one_ret]).
  - apply one_set.
  - apply one_get.
  - apply one_getOrDefault.
  - apply one_has.
  - apply one_getMetadata.
  - apply one_update.
  - apply one_setIfAbsent.
  - apply one_remove.
  - apply one_getTTL.
  - apply one_extendTTL.
Qed.

(** Removing the token in a store that also holds the user: the user's
    text is as before. *)
Lemma keyed_call_touches_its_key_witness :
  Storage.getItem "sv_user"
    (storage (fst (run reference_platform default_config (CallRemove "token") both_stored)))
  = Storage.getItem "sv_user" (storage both_stored).
Proof.
  refine (proj2 (proj2 (proj2
    (keyed_call_touches_its_key reference_platform default_config (CallRemove "token") "token"
       eq_refl both_stored _ _ (surjective_pairing _)))) "sv_user" _).
  discriminate.
Defined.

(** * The outcomes of [set] *)
Section SetOutcomes.
Variable P : Platform.
Variable c : Config.

Lemma call_each_ret_log key v cbs s s' :
  SafeVault.call_each key v cbs s = (s', Ret tt) ->
  log s' = (log s ++ map (fun cb => EvNotify key (cb_id cb) v) cbs)%list.
Proof.
  revert s. induction cbs as [|cb cbs IH]; intros s; simpl.
  - intros [= <-]. now rewrite app_nil_r.
  - unfold bind, emit, lift. simpl. destruct (cb_run cb v); [|discriminate].
    intros H. apply IH in H. simpl in H. rewrite H, <- app_assoc. reflexivity.
Qed.

Lemma notifyListeners_ret_log key v s s' :
  SafeVault.notifyListeners key v s = (s', Ret tt) ->
  log s' = (log s ++ notifications key v s)%list.
Proof.
  unfold SafeVault.notifyListeners, notifications.
  destruct (listeners s !! key) as [cbs|]; simpl.
  - apply call_each_ret_log.
  - intros [= <-]. now rewrite app_nil_r.
Qed.

(** A [set] that answers [true] has written the record and called each
    subscriber of the key. *)
Lemma set_true_trace key value ttl md s s1 :
  SafeVault.set P c key value ttl md s = (s1, Ret true) ->
  write P c key (record c (now s) value ttl md) (storage s) = Ret (storage s1) /\
  log s1 = (log s ++ notifications key value s)%list /\
  listeners s1 = listeners s /\ now s1 = now s.
Proof.
  rewrite set_unfold.
  destruct (write P c key _ (storage s)) as [st|e].
  - destruct (SafeVault.notifyListeners key value (with_storage st s)) as [s2 [[]|e]] eqn:Hn.
    + intros [= <-]. pose proof (notifyListeners_frame _ _ _ _ _ Hn) as (Hs & Hl & Ht).
      apply notifyListeners_ret_log in Hn. simpl in *. rewrite Hs. auto.
    + unfold bind. destruct (SafeVault.handleError c e "set" key s2) as [s3 [[]|e']];
        unfold ret; intros [=].
  - unfold bind. destruct (SafeVault.handleError c e "set" key s) as [s3 [[]|e']];
      unfold ret; intros [=].
Qed.
End SetOutcomes.

(** When the write path of [set] throws (the encode function throws, or
    [setItem] does because the quota is exceeded) and the error hook
    returns, [set] answers [false] and reports the error once with the
    operation [set] and the key; the host store and the registry are as
    before and no subscriber is called. *)
Theorem set_write_failure (P : Platform) (c : Config) (key : string) (value : JSVal)
    (ttl : option Z) (md : option JSON) (s : State) (e : Exn) :
  hook_returns c ->
  write P c key (record c (now s) value ttl md) (storage s) = Throw e ->
  SafeVault.set P c key value ttl md s
  = (with_log (log s ++ [report c e "set" key]) s, Ret false).
Proof.
  intros Hhook Hw. rewrite set_unfold, Hw. unfold bind.
  rewrite (handleError_returns c e "set" key s Hhook). reflexivity.
Qed.

(** A store with room for ten characters: the record of the token does not
    fit. *)
Lemma set_write_failure_witness :
  SafeVault.set reference_platform default_config "token" (Json (JStr "abc123")) (Some 1000)
    None cramped
  = (with_log [EvConsoleError "set" "token" QuotaExceededError] cramped, Ret false).
Proof.
  apply (set_write_failure reference_platform default_config "token" (Json (JStr "abc123"))
           (Some 1000) None cramped QuotaExceededError).
  - exact default_hook_returns.
  - vm_compute. reflexivity.
Defined.

(** A [set] that answers [true] has called every subscriber of the key
    exactly once with the new value, in the order of subscription, and has
    reported nothing; a [remove] that returns has done the same with
    [null]. Subscribers of other keys are not called. *)
Theorem change_notifies_each_subscriber_once (P : Platform) (c : Config) (key : string)
    (s s1 : State) :
  (forall value ttl md,
     SafeVault.set P c key value ttl md s = (s1, Ret true) ->
     log s1 = (log s ++ notifications key value s)%list) /\
  (SafeVault.remove c key s = (s1, Ret tt) ->
   log s1 = (log s ++ notifications key null s)%list).
Proof.
  split.
  - intros value ttl md H. apply (set_true_trace P c) in H. tauto.
  - unfold SafeVault.remove, bind, storage_removeItem. intros H.
    apply notifyListeners_ret_log in H. exact H.
Qed.

(** The token with its two subscribers: [remove] calls them in turn. *)
Lemma change_notifies_each_subscriber_once_witness :
  log (fst (SafeVault.remove default_config "token" token_watched))
  = [EvNotify "token" 1 null; EvNotify "token" 2 null].
Proof.
  apply (proj2 (change_notifies_each_subscriber_once reference_platform default_config "token"
                  token_watched (fst (SafeVault.remove default_config "token" token_watched)))).
  vm_compute. reflexivity.
Defined.

(** * Reading a stored record *)
Section Readers.
Variable P : Platform.
Variable c : Config.

Lemma envelope_metadata value expiry ver md :
  get_prop "metadata" (envelope value expiry ver md)
  = Ret (match md with Some m => Json m | None => Undefined end).
Proof. destruct value, md; reflexivity. Qed.

Lemma holds_at_time t s key d : holds P c s key d -> holds P c (at_time t s) key d.
Proof. intros H. exact H. Qed.

(** What a successful [set] stored is read back as the record, if the
    codec round-trips. *)
Lemma set_true_holds key value ttl md s s1 :
  round_trips P c (record c (now s) value ttl md) ->
  SafeVault.set P c key value ttl md s = (s1, Ret true) ->
  holds P c s1 key (record c (now s) value ttl md).
Proof.
  intros Hrt Hset.
  destruct (set_true_stored P c key _ _ _ s s1 Hset) as (raw & Hw & Hget & _ & _).
  exists raw. split; [exact Hget | exact (Hrt raw Hw)].
Qed.

Lemma holds_live_get key s d :
  holds P c s key d -> unexpired P (now s) d ->
  exists v, get_prop "value" d = Ret v /\ SafeVault.get P c key s = (s, Ret v).
Proof.
  intros (raw & Hget & Hread) (expiry & Hexp & Hlive). eapply get_live; eassumption.
Qed.

(** A record built by [set] has a number or [null] for its expiry, which
    can be compared: if it is not expired, the test returns [false]. *)
Lemma record_unexpired t t0 value ttl md :
  live P t (record c t0 value ttl md) -> unexpired P t (record c t0 value ttl md).
Proof.
  intros (expiry & Hexp & Hlive). exists expiry. split; [exact Hexp|].
  unfold record in Hexp. rewrite envelope_expiry in Hexp. injection Hexp as <-.
  unfold SafeVault.expired in Hlive.
  destruct ttl; cbn in Hlive |- *; [now rewrite Hlive | reflexivity].
Qed.

Lemma holds_lapsed_get key s d :
  holds P c s key d -> lapsed P (now s) d -> hook_returns c ->
  exists s',
    SafeVault.get P c key s = (s', Ret null) /\
    storage s' = Storage.removeItem (SafeVault.getKey c key) (storage s) /\
    listeners s' = listeners s /\ now s' = now s.
Proof.
  intros (raw & Hget & Hread) (expiry & Hexp & Hdue) Hhook.
  eapply get_expired_gone; eassumption.
Qed.

Lemma getTTL_absent key s :
  Storage.getItem (SafeVault.getKey c key) (storage s) = None ->
  SafeVault.getTTL P c key s = (s, Ret None).
Proof.
  intros H. unfold SafeVault.getTTL, try_catch, bind, storage_getItem. rewrite H. reflexivity.
Qed.

(** The remaining time of a record with a numeric expiry, never below
    zero; the record is not evicted. *)
Lemma getTTL_number key s d e :
  holds P c s key d ->
  get_prop "expiry" d = Ret (Json (JNum e)) ->
  SafeVault.getTTL P c key s = (s, Ret (Some (Z.max 0 (e - now s)))).
Proof.
  intros (raw & Hget & Hne & text & Hdec & Hparse) Hexp.
  unfold SafeVault.getTTL, try_catch, bind, storage_getItem, lift, SafeVault.parse, Date_now.
  rewrite Hget, (no_item_some raw Hne). simpl item_text.
  rewrite Hdec, Hparse, Hexp. simpl. unfold ret. do 3 f_equal.
  destruct (0 <? e - now s) eqn:E; [apply Z.ltb_lt in E | apply Z.ltb_ge in E]; lia.
Qed.

Lemma getTTL_null key s d :
  holds P c s key d ->
  get_prop "expiry" d = Ret null ->
  SafeVault.getTTL P c key s = (s, Ret None).
Proof. intros (raw & Hget & Hread) Hexp. eapply getTTL_permanent; eassumption. Qed.

Lemma getMetadata_holds key s d m :
  holds P c s key d ->
  get_prop "metadata" d = Ret m ->
  SafeVault.getMetadata P c key s = (s, Ret (if truthy m then m else null)).
Proof.
  intros (raw & Hget & Hne & text & Hdec & Hparse) Hm.
  unfold SafeVault.getMetadata, try_catch, bind, storage_getItem, lift, SafeVault.parse.
  rewrite Hget, (no_item_some raw Hne). simpl item_text.
  rewrite Hdec, Hparse, Hm. reflexivity.
Qed.

(** [extendTTL] on a live record with a numeric expiry. *)
Lemma extendTTL_number key add s d e v :
  holds P c s key d ->
  get_prop "expiry" d = Ret (Json (JNum e)) ->
  now s <= e ->
  get_prop "value" d = Ret v ->
  is_null v = false ->
  SafeVault.extendTTL P c key add s = SafeVault.set P c key v (Some (e - now s + add)) None s.
Proof.
  intros Hh Hexp Hle Hv Hnn.
  assert (Hlive : unexpired P (now s) d).
  { exists (Json (JNum e)). split; [exact Hexp|]. rewrite check_expiry_number.
    f_equal. apply Z.ltb_ge. lia. }
  destruct (holds_live_get key s d Hh Hlive) as (v' & Hv' & Hg).
  rewrite Hv in Hv'. injection Hv' as <-.
  unfold SafeVault.extendTTL, bind. rewrite Hg, Hnn, (getTTL_number key s d e Hh Hexp).
  replace (Z.max 0 (e - now s)) with (e - now s) by lia.
  destruct (e - now s =? 0) eqn:E; [|reflexivity].
  apply Z.eqb_eq in E. rewrite E. reflexivity.
Qed.

(** [extendTTL] on a record without expiry. *)
Lemma extendTTL_null key add s d v :
  holds P c s key d ->
  get_prop "expiry" d = Ret null ->
  get_prop "value" d = Ret v ->
  is_null v = false ->
  SafeVault.extendTTL P c key add s = SafeVault.set P c key v (Some add) None s.
Proof.
  intros Hh Hexp Hv Hnn.
  assert (Hlive : unexpired P (now s) d) by (exists null; split; [exact Hexp|reflexivity]).
  destruct (holds_live_get key s d Hh Hlive) as (v' & Hv' & Hg).
  rewrite Hv in Hv'. injection Hv' as <-.
  unfold SafeVault.extendTTL, bind. rewrite Hg, Hnn, (getTTL_null key s d Hh Hexp).
  reflexivity.
Qed.
End Readers.

(** The record of the token in [token_stored] is read back at any time. *)
Lemma token_holds t :
  holds reference_platform default_config (at_time t token_stored) "token" token_record.
Proof.
  exists (RefJSON.stringify token_record). split; [reflexivity|].
  split; [discriminate|]. exists (RefJSON.stringify token_record).
  split; [reflexivity | vm_compute; reflexivity].
Defined.

Lemma token_live : live reference_platform 500 token_record.
Proof. exists (Json (JNum 1000)). split; reflexivity. Defined.

Lemma token_unexpired : unexpired reference_platform 500 token_record.
Proof. exists (Json (JNum 1000)). split; reflexivity. Defined.

Lemma token_lapsed : lapsed reference_platform 1500 token_record.
Proof. exists (Json (JNum 1000)). split; reflexivity. Defined.

(** [has(key)] is [false] for a key that is not stored; for a stored record
    that the test of the expiry finds not expired it tells whether the
    stored value is not [null], and changes nothing; for an expired record it
    is [false], the key is deleted, and asking again gives [false] and
    changes nothing. *)
Theorem has_absent_live_expired (P : Platform) (c : Config) (key : string) (s : State) :
  (Storage.getItem (SafeVault.getKey c key) (storage s) = None ->
   SafeVault.has P c key s = (s, Ret false))
  /\
  (forall d v,
     holds P c s key d -> unexpired P (now s) d -> get_prop "value" d = Ret v ->
     SafeVault.has P c key s = (s, Ret (negb (is_null v))))
  /\
  (forall d,
     holds P c s key d -> lapsed P (now s) d -> hook_returns c ->
     exists s',
       SafeVault.has P c key s = (s', Ret false) /\
       Storage.getItem (SafeVault.getKey c key) (storage s') = None /\
       SafeVault.has P c key s' = (s', Ret false)).
Proof.
  split; [|split].
  - intros H. unfold SafeVault.has, bind. rewrite (get_absent P c key s H). reflexivity.
  - intros d v Hh Hl Hv. destruct (holds_live_get P c key s d Hh Hl) as (v' & Hv' & Hg).
    rewrite Hv in Hv'. injection Hv' as <-.
    unfold SafeVault.has, bind. rewrite Hg. reflexivity.
  - intros d Hh Hl Hhook.
    destruct (holds_lapsed_get P c key s d Hh Hl Hhook) as (s' & Hg & Hs & _).
    assert (Hgone : Storage.getItem (SafeVault.getKey c key) (storage s') = None)
      by (rewrite Hs; apply getItem_removeItem_eq).
    exists s'. unfold SafeVault.has, bind. rewrite Hg, (get_absent P c key s' Hgone).
    auto.
Qed.

(** The token of the first scenario: present at time 500, absent at time
    1500 and from then on. *)
Lemma has_absent_live_expired_witness :
  SafeVault.has reference_platform default_config "token" (at_time 500 token_stored)
  = (at_time 500 token_stored, Ret true)
  /\
  exists s',
    SafeVault.has reference_platform default_config "token" (at_time 1500 token_stored)
    = (s', Ret false) /\
    Storage.getItem "sv_token" (storage s') = None /\
    SafeVault.has reference_platform default_config "token" s' = (s', Ret false).
Proof.
  destruct (has_absent_live_expired reference_platform default_config "token"
              (at_time 500 token_stored)) as (_ & Hlive & _).
  destruct (has_absent_live_expired reference_platform default_config "token"
              (at_time 1500 token_stored)) as (_ & _ & Hdue).
  split.
  - apply (Hlive token_record (Json (JStr "abc123")) (token_holds 500) token_unexpired).
    reflexivity.
  - apply (Hdue token_record (token_holds 1500) token_lapsed default_hook_returns).
Defined.

(** [getOrDefault(key, d)] answers [d] for a key that is not stored and
    for a stored [null]; for a stored record that the test of the expiry
    finds not expired and whose value is not [null] it answers the value;
    nothing changes in these cases. Whenever it returns, and [d] is not
    [null], the answer is not [null]. *)
Theorem getOrDefault_absent_live (P : Platform) (c : Config) (key : string)
    (dflt : JSVal) (s : State) :
  (Storage.getItem (SafeVault.getKey c key) (storage s) = None ->
   SafeVault.getOrDefault P c key dflt s = (s, Ret dflt))
  /\
  (forall d v,
     holds P c s key d -> unexpired P (now s) d -> get_prop "value" d = Ret v ->
     SafeVault.getOrDefault P c key dflt s = (s, Ret (if is_null v then dflt else v)))
  /\
  (forall s' v,
     SafeVault.getOrDefault P c key dflt s = (s', Ret v) ->
     is_null dflt = false -> is_null v = false).
Proof.
  split; [|split].
  - intros H. unfold SafeVault.getOrDefault, bind. rewrite (get_absent P c key s H).
    reflexivity.
  - intros d v Hh Hl Hv. destruct (holds_live_get P c key s d Hh Hl) as (v' & Hv' & Hg).
    rewrite Hv in Hv'. injection Hv' as <-.
    unfold SafeVault.getOrDefault, bind. rewrite Hg. unfold ret.
    destruct (is_null v); reflexivity.
  - intros s' v. unfold SafeVault.getOrDefault, bind.
    destruct (SafeVault.get P c key s) as [s1 [g|e]]; [|discriminate].
    unfold ret. intros [= _ <-] Hd. destruct (is_null g) eqn:E; simpl; assumption.
Qed.

(** The token of the first scenario with the default [none]: the value
    at time 500; an unknown key gives the default. *)
Lemma getOrDefault_absent_live_witness :
  SafeVault.getOrDefault reference_platform default_config "token" (Json (JStr "none"))
    (at_time 500 token_stored)
  = (at_time 500 token_stored, Ret (Json (JStr "abc123")))
  /\
  SafeVault.getOrDefault reference_platform default_config "user" (Json (JStr "none"))
    (at_time 500 token_stored)
  = (at_time 500 token_stored, Ret (Json (JStr "none"))).
Proof.
  split.
  - apply (proj1 (proj2 (getOrDefault_absent_live reference_platform default_config "token"
                           (Json (JStr "none")) (at_time 500 token_stored)))
             token_record (Json (JStr "abc123")) (token_holds 500) token_unexpired).
    reflexivity.
  - apply (proj1 (getOrDefault_absent_live reference_platform default_config "user"
                    (Json (JStr "none")) (at_time 500 token_stored))).
    reflexivity.
Defined.

(** [setIfAbsent] leaves a stored record that the test of the expiry finds
    not expired and whose value is not [null] as it is: it answers [false],
    writes nothing and calls nobody. On a key that is not stored it is [set]
    without metadata. On an expired record it is [set] after the eviction
    that [get] does. A stored [null] counts as absent and is overwritten. *)
Theorem setIfAbsent_keeps_live_value (P : Platform) (c : Config) (key : string)
    (value : JSVal) (ttl : option Z) (s : State) :
  (forall d v,
     holds P c s key d -> unexpired P (now s) d -> get_prop "value" d = Ret v ->
     SafeVault.setIfAbsent P c key value ttl s
     = if is_null v then SafeVault.set P c key value ttl None s else (s, Ret false))
  /\
  (Storage.getItem (SafeVault.getKey c key) (storage s) = None ->
   SafeVault.setIfAbsent P c key value ttl s = SafeVault.set P c key value ttl None s)
  /\
  (forall d,
     holds P c s key d -> lapsed P (now s) d -> hook_returns c ->
     exists s0,
       SafeVault.get P c key s = (s0, Ret null) /\
       Storage.getItem (SafeVault.getKey c key) (storage s0) = None /\
       SafeVault.setIfAbsent P c key value ttl s = SafeVault.set P c key value ttl None s0).
Proof.
  split; [|split].
  - intros d v Hh Hl Hv. destruct (holds_live_get P c key s d Hh Hl) as (v' & Hv' & Hg).
    rewrite Hv in Hv'. injection Hv' as <-.
    unfold SafeVault.setIfAbsent, SafeVault.has, bind. rewrite Hg. unfold ret.
    destruct (is_null v); reflexivity.
  - intros H. unfold SafeVault.setIfAbsent, SafeVault.has, bind.
    rewrite (get_absent P c key s H). reflexivity.
  - intros d Hh Hl Hhook.
    destruct (holds_lapsed_get P c key s d Hh Hl Hhook) as (s0 & Hg & Hs & _).
    exists s0. split; [exact Hg|]. split; [rewrite Hs; apply getItem_removeItem_eq|].
    unfold SafeVault.setIfAbsent, SafeVault.has, bind. rewrite Hg. reflexivity.
Qed.

(** The token of the first scenario: kept at time 500. *)
Lemma setIfAbsent_keeps_live_value_witness :
  SafeVault.setIfAbsent reference_platform default_config "token" (Json (JStr "new")) None
    (at_time 500 token_stored)
  = (at_time 500 token_stored, Ret false).
Proof.
  apply (proj1 (setIfAbsent_keeps_live_value reference_platform default_config "token"
                  (Json (JStr "new")) None (at_time 500 token_stored))
           token_record (Json (JStr "abc123")) (token_holds 500) token_unexpired).
  reflexivity.
Defined.

(** After a successful [set] with metadata, [getMetadata] answers the
    metadata (and [null] when none, or a falsy one, was given), at any time:
    the expiry is not looked at and nothing is evicted. *)
Theorem getMetadata_after_set (P : Platform) (c : Config) (key : string) (value : JSVal)
    (ttl : option Z) (md : option JSON) (s s1 : State) :
  round_trips P c (record c (now s) value ttl md) ->
  SafeVault.set P c key value ttl md s = (s1, Ret true) ->
  forall t,
    SafeVault.getMetadata P c key (at_time t s1) = (at_time t s1, Ret (metadata_answer md)).
Proof.
  intros Hrt Hset t.
  pose proof (set_true_holds P c key value ttl md s s1 Hrt Hset) as Hh.
  rewrite (getMetadata_holds P c key (at_time t s1) _ _ (holds_at_time P c t s1 key _ Hh)
             (envelope_metadata _ _ _ _)).
  destruct md as [m|]; reflexivity.
Qed.

Lemma doc_round_trips : round_trips reference_platform default_config doc_record.
Proof. apply reference_round_trips; [exact default_identity_coding | reflexivity]. Defined.

(** The document written with an author and a time to live of one second:
    the metadata is answered after the expiry as well. *)
Lemma getMetadata_after_set_witness :
  SafeVault.getMetadata reference_platform default_config "doc" (at_time 5000 doc_stored)
  = (at_time 5000 doc_stored, Ret (Json (JObj [("author", JStr "ann")]))).
Proof.
  apply (getMetadata_after_set reference_platform default_config "doc" (Json (JStr "text"))
           (Some 1000) (Some (JObj [("author", JStr "ann")])) fresh doc_stored).
  - exact doc_round_trips.
  - vm_compute. reflexivity.
Defined.

(** After a successful [set] with a time to live [T] at time [t0],
    [getTTL] at time [t] answers [t0 + T - t], and [0] from the expiry on:
    never a negative number. It changes nothing, so an expired record is
    still there afterwards. The times, the time to live, the expiry and the
    difference are safe integers, on which the arithmetic of the source is
    exact. *)
Theorem getTTL_after_set (P : Platform) (c : Config) (key : string) (value : JSVal)
    (T : Z) (md : option JSON) (s s1 : State) :
  round_trips P c (record c (now s) value (Some T) md) ->
  SafeVault.set P c key value (Some T) md s = (s1, Ret true) ->
  safe_integer (now s) -> safe_integer T -> safe_integer (now s + T) ->
  forall t,
    safe_integer t -> safe_integer (now s + T - t) ->
    SafeVault.getTTL P c key (at_time t s1)
    = (at_time t s1, Ret (Some (Z.max 0 (now s + T - t)))).
Proof.
  intros Hrt Hset _ _ _ t _ _.
  pose proof (set_true_holds P c key value (Some T) md s s1 Hrt Hset) as Hh.
  apply (getTTL_number P c key (at_time t s1) _ (now s + T) (holds_at_time P c t s1 key _ Hh)).
  apply envelope_expiry.
Qed.

Lemma token_round_trips : round_trips reference_platform default_config token_record.
Proof. apply reference_round_trips; [exact default_identity_coding | reflexivity]. Defined.

(** The token of the first scenario: 500 ms left at time 500, none at time
    1500, and the record is still stored. *)
Lemma getTTL_after_set_witness :
  SafeVault.getTTL reference_platform default_config "token" (at_time 500 token_stored)
  = (at_time 500 token_stored, Ret (Some 500)) /\
  SafeVault.getTTL reference_platform default_config "token" (at_time 1500 token_stored)
  = (at_time 1500 token_stored, Ret (Some 0)).
Proof.
  split;
    apply (getTTL_after_set reference_platform default_config "token" (Json (JStr "abc123"))
             1000 None fresh token_stored token_round_trips);
    first [ vm_compute; reflexivity | unfold safe_integer; simpl; lia ].
Defined.

(** [extendTTL(key, ms)] answers [false] and changes nothing for a key that
    is not stored. For a stored record that is not expired and whose value
    [v] is not [null] it is [set(key, v, ttl)] without metadata, where [ttl]
    is the remaining time plus [ms] when the record has an expiry, so that
    the new expiry is the old one plus [ms], and just [ms] when it has none,
    so that a permanent record becomes an expiring one. Where sums are
    stated, the numbers involved are safe integers, on which the arithmetic
    of the source is exact. *)
Theorem extendTTL_absent_expiring_permanent (P : Platform) (c : Config) (key : string)
    (add : Z) (s : State) :
  (Storage.getItem (SafeVault.getKey c key) (storage s) = None ->
   SafeVault.extendTTL P c key add s = (s, Ret false))
  /\
  (forall d e v,
     holds P c s key d -> get_prop "expiry" d = Ret (Json (JNum e)) -> now s <= e ->
     get_prop "value" d = Ret v -> is_null v = false ->
     Forall safe_integer [now s; e; add; e - now s; e - now s + add; e + add] ->
     SafeVault.extendTTL P c key add s
     = SafeVault.set P c key v (Some (e - now s + add)) None s /\
     record c (now s) v (Some (e - now s + add)) None
     = envelope v (JNum (e + add)) (version c) None)
  /\
  (forall d v,
     holds P c s key d -> get_prop "expiry" d = Ret null ->
     get_prop "value" d = Ret v -> is_null v = false ->
     SafeVault.extendTTL P c key add s = SafeVault.set P c key v (Some add) None s).
Proof.
  split; [|split].
  - intros H. unfold SafeVault.extendTTL, bind. rewrite (get_absent P c key s H). reflexivity.
  - intros d e v Hh Hexp Hle Hv Hnn _. split.
    + now apply (extendTTL_number P c key add s d e v).
    + unfold record. do 2 f_equal. lia.
  - intros d v. apply extendTTL_null.
Qed.

(** The token of the first scenario at time 400, extended by 500 ms: the
    record written expires at 1500. An unknown key is not extended. *)
Lemma extendTTL_absent_expiring_permanent_witness :
  SafeVault.extendTTL reference_platform default_config "user" 500 (at_time 400 token_stored)
  = (at_time 400 token_stored, Ret false)
  /\
  SafeVault.extendTTL reference_platform default_config "token" 500 (at_time 400 token_stored)
  = SafeVault.set reference_platform default_config "token" (Json (JStr "abc123"))
      (Some (1000 - 400 + 500)) None (at_time 400 token_stored).
Proof.
  destruct (extendTTL_absent_expiring_permanent reference_platform default_config "user" 500
              (at_time 400 token_stored)) as (Habsent & _).
  destruct (extendTTL_absent_expiring_permanent reference_platform default_config "token" 500
              (at_time 400 token_stored)) as (_ & Hnum & _).
  split.
  - apply Habsent. reflexivity.
  - apply (Hnum token_record 1000 (Json (JStr "abc123")) (token_holds 400)); try reflexivity.
    + simpl. lia.
    + repeat (first [ apply List.Forall_nil
                    | apply List.Forall_cons; [unfold safe_integer; simpl; lia|] ]).
Defined.

(** End to end: a value that is not [null] is stored with a time to live
    [T] and metadata; while it is not expired, a successful
    [extendTTL(key, ms)] moves the expiry to the old expiry plus [ms],
    whatever the time of the call, and the metadata is lost. The times, the
    times to live and the sums and differences formed on the way are safe
    integers, on which the arithmetic of the source is exact. *)
Theorem extendTTL_adds_to_expiry_drops_metadata (P : Platform) (c : Config)
    (key : string) (v : JSON) (T add : Z) (md : option JSON) (s s1 s2 : State) (t : Z) :
  v <> JNull ->
  round_trips P c (record c (now s) (Json v) (Some T) md) ->
  round_trips P c (envelope (Json v) (JNum (now s + T + add)) (version c) None) ->
  SafeVault.set P c key (Json v) (Some T) md s = (s1, Ret true) ->
  now s <= t <= now s + T ->
  SafeVault.extendTTL P c key add (at_time t s1) = (s2, Ret true) ->
  Forall safe_integer
    [now s; T; add; t; now s + T; now s + T - t; now s + T - t + add; now s + T + add] ->
  forall t',
    safe_integer t' -> safe_integer (now s + T + add - t') ->
    SafeVault.getTTL P c key (at_time t' s2)
    = (at_time t' s2, Ret (Some (Z.max 0 (now s + T + add - t')))) /\
    SafeVault.getMetadata P c key (at_time t' s2) = (at_time t' s2, Ret null).
Proof.
  intros Hv Hrt Hrt' Hset Ht Hext _ t' _ _.
  pose proof (set_true_holds P c key (Json v) (Some T) md s s1 Hrt Hset) as Hh.
  rewrite (extendTTL_number P c key add (at_time t s1) _ (now s + T) (Json v)
             (holds_at_time P c t s1 key _ Hh) (envelope_expiry _ _ _ _)) in Hext;
    [| simpl; lia | apply envelope_value | destruct v; try reflexivity; contradiction ].
  assert (Hrec : record c (now (at_time t s1)) (Json v) (Some (now s + T - now (at_time t s1) + add)) None
                 = envelope (Json v) (JNum (now s + T + add)) (version c) None).
  { unfold record. simpl. do 2 f_equal. lia. }
  assert (Hh2 : holds P c s2 key (envelope (Json v) (JNum (now s + T + add)) (version c) None)).
  { rewrite <- Hrec. apply (set_true_holds P c key _ _ _ (at_time t s1) s2); [|exact Hext].
    rewrite Hrec. exact Hrt'. }
  split.
  - apply (getTTL_number P c key (at_time t' s2) _ (now s + T + add)
             (holds_at_time P c t' s2 key _ Hh2)). apply envelope_expiry.
  - rewrite (getMetadata_holds P c key (at_time t' s2) _ _ (holds_at_time P c t' s2 key _ Hh2)
               (envelope_metadata _ _ _ _)). reflexivity.
Qed.

(** The document stored at time 0 for one second with an author, extended
    at time 400 by 500 ms: at time 1200 it has 300 ms left and no
    metadata. *)
Lemma extendTTL_adds_to_expiry_drops_metadata_witness :
  SafeVault.getTTL reference_platform default_config "doc" (at_time 1200 doc_extended)
  = (at_time 1200 doc_extended, Ret (Some 300)) /\
  SafeVault.getMetadata reference_platform default_config "doc" (at_time 1200 doc_extended)
  = (at_time 1200 doc_extended, Ret null).
Proof.
  apply (extendTTL_adds_to_expiry_drops_metadata reference_platform default_config "doc"
           (JStr "text") 1000 500 (Some (JObj [("author", JStr "ann")])) fresh doc_stored
           doc_extended 400).
  - discriminate.
  - exact doc_round_trips.
  - apply reference_round_trips; [exact default_identity_coding | reflexivity].
  - vm_compute. reflexivity.
  - simpl. lia.
  - vm_compute. reflexivity.
  - repeat (first [ apply List.Forall_nil
                    | apply List.Forall_cons; [unfold safe_integer; simpl; lia|] ]).
  - unfold safe_integer; simpl; lia.
  - unfold safe_integer; simpl; lia.
Defined.

(** * Deleting: [remove], [removeMany], [clear], and what [keys] lists *)
Section Deleting.
Variable P : Platform.
Variable c : Config.

(** A notification depends on the registry only. *)
Lemma notifications_registry key v s s' :
  listeners s' = listeners s -> notifications key v s' = notifications key v s.
Proof. unfold notifications. now intros ->. Qed.

(** [remove] with subscribers that return. *)
Lemma remove_quiet key s :
  subscribers_return s ->
  SafeVault.remove c key s
  = (with_log (log s ++ notifications key null s)
       (with_storage (Storage.removeItem (SafeVault.getKey c key) (storage s)) s),
     Ret tt).
Proof.
  intros Hsub. unfold SafeVault.remove, bind, storage_removeItem, SafeVault.notifyListeners,
    notifications. simpl.
  destruct (listeners s !! key) as [cbs|] eqn:Hcbs; simpl.
  - rewrite call_each_returns by (intros cb Hcb; eapply Hsub; eassumption). reflexivity.
  - rewrite app_nil_r. reflexivity.
Qed.

Lemma removeMany_quiet keys s :
  subscribers_return s ->
  SafeVault.removeMany c keys s
  = (with_log (log s ++ concat (map (fun key => notifications key null s) keys))
       (with_storage (remove_all (map (SafeVault.getKey c) keys) (storage s)) s),
     Ret tt).
Proof.
  unfold SafeVault.removeMany. revert s.
  induction keys as [|key keys IH]; intros s Hsub; simpl.
  - rewrite app_nil_r. destruct s; reflexivity.
  - unfold bind. rewrite (remove_quiet key s Hsub), IH by exact Hsub.
    unfold with_log, with_storage. simpl. rewrite <- app_assoc. reflexivity.
Qed.
End Deleting.

(** After [remove(key)], whether it returned or a subscriber threw, the
    namespaced key is not in the host store, [get] answers [null] and [has]
    answers [false] without changing anything; the store is the old one
    without that key, so nothing changes in it when the key was not
    stored. *)
Theorem remove_deletes_the_key (P : Platform) (c : Config) (key : string)
    (s s' : State) (r : Res unit) :
  SafeVault.remove c key s = (s', r) ->
  storage s' = Storage.removeItem (SafeVault.getKey c key) (storage s) /\
  Storage.getItem (SafeVault.getKey c key) (storage s') = None /\
  SafeVault.get P c key s' = (s', Ret null) /\
  SafeVault.has P c key s' = (s', Ret false) /\
  (Storage.getItem (SafeVault.getKey c key) (storage s) = None -> storage s' = storage s).
Proof.
  unfold SafeVault.remove, bind, storage_removeItem. intros H.
  apply notifyListeners_frame in H. destruct H as (Hs & _). simpl in Hs.
  assert (Hgone : Storage.getItem (SafeVault.getKey c key) (storage s') = None)
    by (rewrite Hs; apply getItem_removeItem_eq).
  split; [exact Hs|]. split; [exact Hgone|]. split; [|split].
  - apply get_absent. exact Hgone.
  - unfold SafeVault.has, bind. rewrite (get_absent P c key s' Hgone). reflexivity.
  - intros Habsent. rewrite Hs. apply removeItem_absent. exact Habsent.
Qed.

(** The token whose subscriber throws: [remove] throws, and the token is
    gone. *)
Lemma remove_deletes_the_key_witness :
  snd (SafeVault.remove default_config "token" token_fragile)
  = Throw (UserError "subscriber failed") /\
  Storage.getItem "sv_token"
    (storage (fst (SafeVault.remove default_config "token" token_fragile))) = None /\
  Storage.getItem "sv_token" (storage token_fragile)
  = Some (RefJSON.stringify token_record).
Proof.
  split; [reflexivity|]. split; [|reflexivity].
  apply (remove_deletes_the_key reference_platform default_config "token" token_fragile
           (fst (SafeVault.remove default_config "token" token_fragile))
           (snd (SafeVault.remove default_config "token" token_fragile))).
  apply surjective_pairing.
Defined.

(** [removeMany(keys)] with subscribers that return: every listed key is
    deleted, so that [get] answers [null] for it, every other key of the
    host store reads as before, the registry is as before, and the
    subscribers of each listed key have been called with [null], key by
    key in the order of the list. If the subscribers of the first key
    throw, the call throws and the remaining keys are not deleted. *)
Theorem removeMany_deletes_each_key (P : Platform) (c : Config) (keys : list string)
    (s : State) :
  (subscribers_return s ->
   exists s',
     SafeVault.removeMany c keys s = (s', Ret tt) /\
     listeners s' = listeners s /\
     log s' = (log s ++ concat (map (fun key => notifications key null s) keys))%list /\
     (forall key, In key keys -> SafeVault.get P c key s' = (s', Ret null)) /\
     (forall k, ~ In k (map (SafeVault.getKey c) keys) ->
        Storage.getItem k (storage s') = Storage.getItem k (storage s)))
  /\
  (forall key rest s1 e,
     keys = key :: rest ->
     SafeVault.remove c key s = (s1, Throw e) ->
     SafeVault.removeMany c keys s = (s1, Throw e) /\
     forall k, k <> SafeVault.getKey c key ->
       Storage.getItem k (storage s1) = Storage.getItem k (storage s)).
Proof.
  split.
  - intros Hsub. rewrite (removeMany_quiet c keys s Hsub). eexists. split; [reflexivity|].
    simpl. split; [reflexivity|]. split; [reflexivity|]. split.
    + intros key Hkey. apply get_absent. simpl. rewrite getItem_remove_all.
      assert (H : existsb (String.eqb (SafeVault.getKey c key)) (map (SafeVault.getKey c) keys)
                  = true) by (apply existsb_eqb_In, in_map; exact Hkey).
      now rewrite H.
    + intros k Hk. rewrite getItem_remove_all.
      apply existsb_eqb_not_In in Hk. now rewrite Hk.
  - intros key rest s1 e -> Hrem. split.
    + unfold SafeVault.removeMany. simpl. unfold bind. now rewrite Hrem.
    + intros k Hk. apply (one_remove c key) in Hrem.
      destruct Hrem as (_ & _ & _ & Hg). now apply Hg.
Qed.

(** The token with its two subscribers and the user: both are removed, the
    subscribers of the token are called. With a subscriber of the token that
    throws, the user stays. *)
Lemma removeMany_deletes_each_key_witness :
  (exists s',
     SafeVault.removeMany default_config ["token"; "user"] both_watched = (s', Ret tt) /\
     log s' = [EvNotify "token" 1 null; EvNotify "token" 2 null] /\
     SafeVault.get reference_platform default_config "token" s' = (s', Ret null) /\
     SafeVault.get reference_platform default_config "user" s' = (s', Ret null))
  /\
  snd (SafeVault.removeMany default_config ["token"; "user"] token_fragile)
  = Throw (UserError "subscriber failed") /\
  Storage.getItem "sv_user"
    (storage (fst (SafeVault.removeMany default_config ["token"; "user"] token_fragile)))
  = Storage.getItem "sv_user" (storage token_fragile).
Proof.
  split.
  - destruct (proj1 (removeMany_deletes_each_key reference_platform default_config
                       ["token"; "user"] both_watched))
      as (s' & Hrun & _ & Hlog & Hget & _).
    + intros key cbs cb v Hl Hin.
      assert (Hreg : listeners both_watched
                     = <["token" := [quiet_subscriber 1; quiet_subscriber 2]]> ∅)
        by (vm_compute; reflexivity).
      rewrite Hreg in Hl. destruct (decide (key = "token")) as [->|Hne].
      * rewrite lookup_insert_eq in Hl. injection Hl as <-.
        destruct Hin as [<-|[<-|[]]]; reflexivity.
      * rewrite lookup_insert_ne in Hl by congruence. rewrite lookup_empty in Hl. discriminate.
    + exists s'. split; [exact Hrun|]. split; [exact Hlog|].
      split; apply Hget; simpl; auto.
  - destruct (proj2 (removeMany_deletes_each_key reference_platform default_config
                       ["token"; "user"] token_fragile)
                "token" ["user"]
                (fst (SafeVault.remove default_config "token" token_fragile))
                (UserError "subscriber failed") eq_refl)
      as (Hrun & Hkeep).
    + vm_compute. reflexivity.
    + rewrite Hrun. split; [reflexivity|]. apply Hkeep. discriminate.
Defined.

(** [clear()] returns from every state, empties the registry and calls
    nobody (no subscriber, no error report). Afterwards no key that belongs
    to the vault is stored, [keys()] and [entries()] answer the empty list,
    and every key that does not belong to the vault reads as before. *)
Theorem clear_empties_the_vault (P : Platform) (c : Config) (s : State) :
  exists s',
    SafeVault.clear c s = (s', Ret tt) /\
    listeners s' = ∅ /\ log s' = log s /\ now s' = now s /\
    SafeVault.keys c s' = (s', Ret []) /\
    SafeVault.entries P c s' = (s', Ret []) /\
    (forall k, owns c k = true -> Storage.getItem k (storage s') = None) /\
    (forall k, owns c k = false ->
       Storage.getItem k (storage s') = Storage.getItem k (storage s)).
Proof.
  rewrite clear_spec. fold (owned_keys c (storage s)).
  set (st' := remove_all (owned_keys c (storage s)) (storage s)).
  assert (Hgone : forall k, owns c k = true -> Storage.getItem k st' = None).
  { intros k Ho. unfold st'. rewrite getItem_remove_all.
    destruct (existsb (String.eqb k) (owned_keys c (storage s))) eqn:E; [reflexivity|].
    apply existsb_eqb_not_In in E.
    destruct (Storage.getItem k (storage s)) as [raw|] eqn:Hg; [|reflexivity].
    exfalso. apply E. apply in_owned_keys. split; [exact Ho|congruence]. }
  assert (Hnone : owned_keys c st' = []).
  { unfold owned_keys. apply filter_none. intros k Hin.
    destruct (owns c k) eqn:Ho; [|reflexivity].
    exfalso. specialize (Hgone k Ho). unfold Storage.getItem in Hgone.
    apply assoc_None_not_In in Hgone. contradiction. }
  assert (Hkeys : forall s0, storage s0 = st' -> SafeVault.keys c s0 = (s0, Ret [])).
  { intros s0 Hs0. rewrite keys_spec, Hs0, Hnone. reflexivity. }
  eexists. split; [reflexivity|]. simpl.
  split; [reflexivity|]. split; [reflexivity|]. split; [reflexivity|].
  split; [apply Hkeys; reflexivity|]. split; [|split].
  - unfold SafeVault.entries, bind. rewrite Hkeys by reflexivity. reflexivity.
  - exact Hgone.
  - intros k Ho. unfold st'. rewrite getItem_remove_all.
    destruct (existsb (String.eqb k) (owned_keys c (storage s))) eqn:E; [|reflexivity].
    apply existsb_eqb_In, in_owned_keys in E. destruct E as [E _]. congruence.
Qed.

(** [keys()] changes nothing and lists, without the prefix, exactly the
    keys that are stored under the prefix: a key is listed if and only if
    its namespaced key, when not empty, is in the host store. In a host
    store that holds each key once no key is listed twice. *)
Theorem keys_lists_the_stored_keys (c : Config) (s : State) :
  exists ks,
    SafeVault.keys c s = (s, Ret ks) /\
    (forall key,
       SafeVault.getKey c key <> "" ->
       (In key ks <-> Storage.getItem (SafeVault.getKey c key) (storage s) <> None)) /\
    (well_formed (storage s) -> NoDup ks).
Proof.
  exists (map (strip c) (owned_keys c (storage s))). split; [apply keys_spec|]. split.
  - intros key Hne. rewrite in_map_iff. split.
    + intros (k & Hk & Hin). apply in_owned_keys in Hin. destruct Hin as [Ho Hg].
      rewrite <- Hk, (owns_prefixed c k Ho). exact Hg.
    + intros Hg. exists (SafeVault.getKey c key). split; [apply strip_getKey|].
      apply in_owned_keys. split; [now apply owns_getKey | exact Hg].
  - intros Hwf. apply NoDup_map_inj.
    + intros x y Hx Hy Hxy. apply in_owned_keys in Hx, Hy.
      rewrite <- (owns_prefixed c x), <- (owns_prefixed c y) by tauto. now rewrite Hxy.
    + apply NoDup_bool_filter. exact Hwf.
Qed.

(** The store with the token and the user: both are listed, a key that is
    not stored is not. *)
Lemma keys_lists_the_stored_keys_witness :
  exists ks,
    SafeVault.keys default_config both_stored = (both_stored, Ret ks) /\
    In "token" ks /\ In "user" ks /\ ~ In "draft" ks /\ NoDup ks.
Proof.
  destruct (keys_lists_the_stored_keys default_config both_stored) as (ks & Hrun & Hin & Hnd).
  exists ks. split; [exact Hrun|]. split; [|split; [|split]].
  - apply Hin; discriminate.
  - apply Hin; discriminate.
  - intros H. apply Hin in H; [|discriminate]. apply H. reflexivity.
  - apply Hnd. apply (bool_decide_unpack _). vm_compute. exact I.
Defined.

(** The shared store of the vaults [a_] and [b_]: after [clear()] on the
    first, its key is gone and the other vault's entry is as before. *)
Lemma clear_empties_the_vault_witness :
  exists s',
    SafeVault.clear (with_prefix "a_") shared_a_b = (s', Ret tt) /\
    SafeVault.keys (with_prefix "a_") s' = (s', Ret []) /\
    Storage.getItem "a_x" (storage s') = None /\
    Storage.getItem "b_y" (storage s') = Storage.getItem "b_y" (storage shared_a_b).
Proof.
  destruct (clear_empties_the_vault reference_platform (with_prefix "a_") shared_a_b)
    as (s' & Hrun & _ & _ & _ & Hkeys & _ & Hgone & Hkeep).
  exists s'. split; [exact Hrun|]. split; [exact Hkeys|].
  split; [apply Hgone | apply Hkeep]; reflexivity.
Defined.

(** * The loops of [cleanupExpired] and [getStats] on any store *)
Section Loops.
Variable P : Platform.
Variable c : Config.

Lemma eqb_empty_false raw : String.eqb raw "" = false -> raw <> "".
Proof. intros E ->. discriminate E. Qed.

(** One turn of the loop of [cleanupExpired], whatever the key holds. *)
Lemma cleanup_step_counted count k s :
  SafeVault.cleanup_step P c count k s
  = if counted P c (now s) (storage s) k
    then (with_storage (Storage.removeItem k (storage s)) s, Ret (S count))
    else (s, Ret count).
Proof.
  unfold counted. destruct (Storage.getItem k (storage s)) as [raw|] eqn:Hget.
  - destruct (String.eqb raw "") eqn:E; simpl.
    + unfold SafeVault.cleanup_step, try_catch, bind, storage_getItem.
      rewrite Hget. simpl. rewrite E. reflexivity.
    + apply cleanup_step_spec; [exact Hget | now apply eqb_empty_false].
  - unfold SafeVault.cleanup_step, try_catch, bind, storage_getItem. rewrite Hget. reflexivity.
Qed.

Lemma counted_ext t st st' ks :
  (forall k, In k ks -> Storage.getItem k st' = Storage.getItem k st) ->
  List.filter (counted P c t st') ks = List.filter (counted P c t st) ks.
Proof.
  intros H. apply List.filter_ext_in. intros k Hk. unfold counted. now rewrite H.
Qed.

Lemma cleanup_loop_counted ks :
  NoDup ks ->
  forall count s,
    SafeVault.cleanup_loop P c count ks s
    = (with_storage
         (remove_all (List.filter (counted P c (now s) (storage s)) ks) (storage s)) s,
       Ret (count + List.length (List.filter (counted P c (now s) (storage s)) ks))%nat).
Proof.
  induction ks as [|k ks IH]; intros Hnd count s; simpl.
  - unfold ret. rewrite Nat.add_0_r. destruct s; reflexivity.
  - apply NoDup_cons in Hnd. destruct Hnd as [Hk Hnd]. rewrite list_elem_of_In in Hk.
    unfold bind. rewrite cleanup_step_counted.
    destruct (counted P c (now s) (storage s) k).
    + rewrite IH by exact Hnd. simpl.
      rewrite (counted_ext (now s) (storage s) (Storage.removeItem k (storage s)) ks).
      * f_equal. f_equal. lia.
      * intros k' Hk'. apply getItem_removeItem_ne. intros ->. contradiction.
    + apply IH. exact Hnd.
Qed.

(** The loop returns from every state and changes the host store only. *)
Lemma cleanup_loop_silent ks :
  forall count s,
    exists s' n, SafeVault.cleanup_loop P c count ks s = (s', Ret n) /\ only_store s s'.
Proof.
  induction ks as [|k ks IH]; intros count s; simpl.
  - exists s, count. split; [reflexivity|]. unfold only_store. auto.
  - unfold bind. rewrite cleanup_step_counted.
    destruct (counted P c (now s) (storage s) k).
    + destruct (IH (S count) (with_storage (Storage.removeItem k (storage s)) s))
        as (s' & n & Hrun & Hl & Ht & Hlog).
      exists s', n. split; [exact Hrun|]. unfold only_store. auto.
    + apply IH.
Qed.

Lemma cleanupExpired_silent s :
  exists s' n, SafeVault.cleanupExpired P c s = (s', Ret n) /\ only_store s s'.
Proof.
  unfold SafeVault.cleanupExpired, bind. rewrite getAllKeys_spec. apply cleanup_loop_silent.
Qed.

(** One turn of the loop of [getStats]. *)
Lemma stats_step_spec acc k s :
  SafeVault.stats_step P c acc k s
  = (s, Ret ((fst acc + estimate (storage s) k)%nat,
             (snd acc + if counted P c (now s) (storage s) k then 1 else 0)%nat)).
Proof.
  unfold SafeVault.stats_step, bind at 1, storage_getItem, counted, estimate.
  destruct (Storage.getItem k (storage s)) as [raw|]; simpl.
  - destruct (String.eqb raw "") eqn:E; simpl.
    + apply String.eqb_eq in E. subst raw. simpl. unfold ret.
      rewrite !Nat.add_0_r. destruct acc; reflexivity.
    + unfold try_catch, bind, lift, SafeVault.parse, Date_now, ret, swept, stale, undecodable,
        elapsed, incomparable.
      destruct (SafeVault.decode c raw) as [text|e]; simpl; [|do 3 f_equal; lia].
      destruct (JSON_parse P text) as [d|]; simpl; [|do 3 f_equal; lia].
      destruct d; try (cbn; do 3 f_equal; lia).
      unfold SafeVault.check_expiry, coerce. cbn [get_prop].
      destruct (lookup_field "expiry" fields) as [|j]; cbn -[js_gt].
      * destruct (js_gt P (now s) Undefined); cbn; do 3 f_equal; lia.
      * destruct j; cbn -[js_gt]; try (do 3 f_equal; lia);
          try (match goal with
               | |- context [js_gt P (now s) ?v] => destruct (js_gt P (now s) v)
               end; cbn; do 3 f_equal; lia);
          match goal with
          | |- context [if ?b then Throw TypeError else Ret tt] =>
              destruct b; cbn -[js_gt];
              [ rewrite orb_true_r; do 3 f_equal; lia
              | match goal with
                | |- context [js_gt P (now s) ?w] => destruct (js_gt P (now s) w)
                end; cbn; do 3 f_equal; lia ]
          end.
  - unfold ret. rewrite !Nat.add_0_r. destruct acc; reflexivity.
Qed.

Lemma stats_loop_spec ks :
  forall acc s,
    SafeVault.stats_loop P c acc ks s
    = (s, Ret ((fst acc + sum_list (map (estimate (storage s)) ks))%nat,
               (snd acc + List.length (List.filter (counted P c (now s) (storage s)) ks))%nat)).
Proof.
  induction ks as [|k ks IH]; intros acc s; simpl.
  - unfold ret. rewrite !Nat.add_0_r. destruct acc; reflexivity.
  - unfold bind. rewrite stats_step_spec, IH. simpl.
    destruct (counted P c (now s) (storage s) k); simpl; do 3 f_equal; lia.
Qed.

Lemma getStats_spec s :
  SafeVault.getStats P c s
  = (s, Ret {| totalKeys := List.length (owned_keys c (storage s));
               expiredKeys :=
                 List.length (List.filter (counted P c (now s) (storage s))
                                (owned_keys c (storage s)));
               size := sum_list (map (estimate (storage s)) (owned_keys c (storage s)));
               stat_keys := map (strip c) (owned_keys c (storage s)) |}).
Proof.
  unfold SafeVault.getStats, bind. rewrite getAllKeys_spec, stats_loop_spec. reflexivity.
Qed.

(** Counting the counted keys is counting the entries whose text is not
    empty and is taken for gone by the sweep. *)
Lemma counted_keys_entries t st (l : list (string * string)) :
  (forall k raw, In (k, raw) l -> Storage.getItem k st = Some raw) ->
  List.length (List.filter (counted P c t st) (List.filter (owns c) (map fst l)))
  = List.length
      (List.filter (fun kv : string * string =>
                      negb (String.eqb (snd kv) "") && swept P c t (snd kv))
         (List.filter (fun kv : string * string => owns c (fst kv)) l)).
Proof.
  induction l as [|[k raw] l IH]; intros Hl; simpl; [reflexivity|].
  assert (IH' := IH (fun k' raw' H => Hl k' raw' (or_intror H))).
  destruct (owns c k); simpl; [|exact IH'].
  unfold counted at 1. rewrite (Hl k raw (or_introl eq_refl)).
  destruct (negb (String.eqb raw "") && swept P c t raw); simpl; now rewrite IH'.
Qed.

(** The store after the sweep. *)
Lemma swept_well_formed ks st : well_formed st -> well_formed (remove_all ks st).
Proof.
  unfold well_formed. rewrite items_remove_all. intros H.
  rewrite <- (filter_map_fst (fun k => negb (existsb (String.eqb k) ks))).
  now apply NoDup_bool_filter.
Qed.

Lemma swept_getItem t st k :
  Storage.getItem k (remove_all (List.filter (counted P c t st) (owned_keys c st)) st)
  = if owns c k && counted P c t st k then None else Storage.getItem k st.
Proof.
  rewrite getItem_remove_all.
  destruct (existsb (String.eqb k) (List.filter (counted P c t st) (owned_keys c st))) eqn:E.
  - apply existsb_eqb_In, List.filter_In in E. destruct E as [Hin Hc].
    apply in_owned_keys in Hin. destruct Hin as [Ho _]. now rewrite Ho, Hc.
  - destruct (owns c k && counted P c t st k) eqn:E'; [|reflexivity].
    apply andb_true_iff in E'. destruct E' as [Ho Hc].
    apply existsb_eqb_not_In in E. exfalso. apply E. apply List.filter_In. split; [|exact Hc].
    apply in_owned_keys. split; [exact Ho|].
    unfold counted in Hc. destruct (Storage.getItem k st); [discriminate|discriminate].
Qed.

Lemma swept_owned_keys t st :
  owned_keys c (remove_all (List.filter (counted P c t st) (owned_keys c st)) st)
  = List.filter (fun k => negb (counted P c t st k)) (owned_keys c st).
Proof.
  set (dead := List.filter (counted P c t st) (owned_keys c st)).
  unfold owned_keys at 1. rewrite items_remove_all.
  rewrite <- (filter_map_fst (fun k => negb (existsb (String.eqb k) dead))).
  unfold owned_keys. rewrite !filter_and. apply List.filter_ext_in.
  intros k Hk. destruct (owns c k) eqn:Ho; simpl; [|apply andb_false_r].
  rewrite andb_true_r. f_equal.
  destruct (counted P c t st k) eqn:Hc.
  - apply existsb_eqb_In. apply List.filter_In. split; [|exact Hc].
    apply List.filter_In. split; [exact Hk | exact Ho].
  - apply existsb_eqb_not_In. intros Hin. apply List.filter_In in Hin.
    destruct Hin as [_ Hin]. congruence.
Qed.

Lemma swept_counts_nothing t st :
  List.filter
    (counted P c t (remove_all (List.filter (counted P c t st) (owned_keys c st)) st))
    (owned_keys c (remove_all (List.filter (counted P c t st) (owned_keys c st)) st))
  = [].
Proof.
  apply filter_none. intros k Hk. rewrite swept_owned_keys in Hk.
  apply List.filter_In in Hk. destruct Hk as [_ Hc]. apply negb_true_iff in Hc.
  unfold counted at 1. rewrite swept_getItem, Hc, andb_false_r. exact Hc.
Qed.

(** [cleanupExpired] on a store that holds each key once. *)
Lemma cleanupExpired_counted s :
  well_formed (storage s) ->
  SafeVault.cleanupExpired P c s
  = (with_storage
       (remove_all (List.filter (counted P c (now s) (storage s)) (owned_keys c (storage s)))
          (storage s)) s,
     Ret (List.length
            (List.filter (counted P c (now s) (storage s)) (owned_keys c (storage s))))).
Proof.
  intros Hwf. unfold SafeVault.cleanupExpired, bind. rewrite getAllKeys_spec.
  fold (owned_keys c (storage s)). rewrite cleanup_loop_counted; [reflexivity|].
  apply NoDup_bool_filter. exact Hwf.
Qed.
End Loops.

(** On a host store that holds each key once, whatever its entries are:
    [cleanupExpired] answers the number of the vault's entries whose text is
    not empty and is expired or undecodable or has an expiry that cannot be
    compared with the clock (the comparison throws); it changes nothing but
    the host store and calls nobody (no subscriber, no error report); and a
    second call at the same time answers [0] and changes nothing. *)
Theorem cleanupExpired_is_idempotent (P : Platform) (c : Config) (s : State) :
  well_formed (storage s) ->
  exists s',
    SafeVault.cleanupExpired P c s
    = (s', Ret (List.length
                  (List.filter (fun kv : string * string =>
                                  negb (String.eqb (snd kv) "") && swept P c (now s) (snd kv))
                     (owned_entries c (storage s))))) /\
    only_store s s' /\
    SafeVault.cleanupExpired P c s' = (s', Ret 0%nat).
Proof.
  intros Hwf. rewrite (cleanupExpired_counted P c s Hwf).
  set (dead := List.filter (counted P c (now s) (storage s)) (owned_keys c (storage s))).
  eexists. split; [|split].
  - f_equal. f_equal. apply (counted_keys_entries P c).
    intros k raw Hin. now apply assoc_in.
  - unfold only_store. simpl. auto.
  - rewrite cleanupExpired_counted by (simpl; now apply swept_well_formed).
    simpl. fold dead. unfold dead. rewrite swept_counts_nothing. simpl.
    reflexivity.
Qed.

(** The store with a live record, an expired one, an undecodable one and
    one whose expiry cannot be compared: the first sweep removes three
    entries, the second none. *)
Lemma cleanupExpired_is_idempotent_witness :
  exists s',
    SafeVault.cleanupExpired reference_platform default_config tangled = (s', Ret 3%nat) /\
    only_store tangled s' /\
    SafeVault.cleanupExpired reference_platform default_config s' = (s', Ret 0%nat).
Proof.
  exact (cleanupExpired_is_idempotent reference_platform default_config tangled
           tangled_well_formed).
Defined.

(** [getStats()] changes nothing and returns from every state. Its [keys]
    are what [keys()] answers, [totalKeys] is their number, [expiredKeys] is
    at most [totalKeys], and [size] is twice the length of the stored texts
    of the vault. On a host store that holds each key once, [expiredKeys]
    is the number that [cleanupExpired()] then removes and answers, and
    after that sweep [getStats()] reports no expired key and
    [totalKeys - expiredKeys] keys. *)
Theorem getStats_predicts_the_sweep (P : Platform) (c : Config) (s : State) :
  exists st,
    SafeVault.getStats P c s = (s, Ret st) /\
    SafeVault.keys c s = (s, Ret (stat_keys st)) /\
    totalKeys st = List.length (stat_keys st) /\
    (expiredKeys st <= totalKeys st)%nat /\
    size st = sum_list (map (estimate (storage s)) (owned_keys c (storage s))) /\
    (well_formed (storage s) ->
     exists s' st',
       SafeVault.cleanupExpired P c s = (s', Ret (expiredKeys st)) /\
       SafeVault.getStats P c s' = (s', Ret st') /\
       expiredKeys st' = 0%nat /\
       totalKeys st' = (totalKeys st - expiredKeys st)%nat).
Proof.
  rewrite getStats_spec. eexists. split; [reflexivity|]. simpl.
  split; [apply keys_spec|]. split; [now rewrite length_map|].
  split; [apply List.filter_length_le|]. split; [reflexivity|].
  intros Hwf. rewrite (cleanupExpired_counted P c s Hwf). eexists. eexists.
  split; [reflexivity|]. split; [apply getStats_spec|]. simpl. split.
  - now rewrite swept_counts_nothing.
  - rewrite swept_owned_keys.
    pose proof (filter_split_length (counted P c (now s) (storage s))
                  (owned_keys c (storage s))). lia.
Qed.

(** The store with a live, an expired and an undecodable record: three
    keys, two of them expired; the sweep removes two. *)
Lemma getStats_predicts_the_sweep_witness :
  exists st s' st',
    SafeVault.getStats reference_platform default_config mixed = (mixed, Ret st) /\
    stat_keys st = ["live"; "old"; "bad"] /\ totalKeys st = 3%nat /\ expiredKeys st = 2%nat /\
    SafeVault.cleanupExpired reference_platform default_config mixed = (s', Ret 2%nat) /\
    SafeVault.getStats reference_platform default_config s' = (s', Ret st') /\
    expiredKeys st' = 0%nat /\ totalKeys st' = 1%nat.
Proof.
  destruct (getStats_predicts_the_sweep reference_platform default_config mixed)
    as (st & Hrun & _ & _ & _ & _ & Hsweep).
  destruct (Hsweep mixed_well_formed) as (s' & st' & Hclean & Hrun' & Hexp & Htot).
  assert (Hval : Ret st = snd (SafeVault.getStats reference_platform default_config mixed))
    by (rewrite Hrun; reflexivity).
  vm_compute in Hval. injection Hval as Hval. subst st. simpl in Hclean, Htot.
  eexists. exists s', st'. split; [exact Hrun|]. simpl. repeat split; assumption.
Defined.

(** The methods that inspect ([getMetadata], [getTTL], [keys], [getStats])
    return from every state, whatever is stored and whatever the decode
    function does, and leave the state exactly as it is: nothing is evicted,
    nobody is called, no error is reported. *)
Theorem inspection_changes_nothing (P : Platform) (c : Config) (s : State) :
  (forall key, exists v, SafeVault.getMetadata P c key s = (s, Ret v)) /\
  (forall key, exists remaining, SafeVault.getTTL P c key s = (s, Ret remaining)) /\
  (exists ks, SafeVault.keys c s = (s, Ret ks)) /\
  (exists st, SafeVault.getStats P c s = (s, Ret st)).
Proof.
  split; [|split; [|split]].
  - intros key.
    unfold SafeVault.getMetadata, try_catch, bind, storage_getItem, lift, SafeVault.parse, ret.
    destruct (no_item _); [eauto|].
    destruct (SafeVault.decode c _) as [text|e]; [|eauto].
    destruct (JSON_parse P text) as [d|]; [|eauto].
    destruct (get_prop "metadata" d); eauto.
  - intros key.
    unfold SafeVault.getTTL, try_catch, bind, storage_getItem, lift, SafeVault.parse, Date_now,
      ret.
    destruct (no_item _); [eauto|].
    destruct (SafeVault.decode c _) as [text|e]; [|eauto].
    destruct (JSON_parse P text) as [d|]; [|eauto].
    destruct (get_prop "expiry" d) as [expiry|e]; [|eauto].
    destruct (is_null expiry); [eauto|].
    destruct (coerce expiry); eauto.
  - rewrite keys_spec. eauto.
  - rewrite getStats_spec. eauto.
Qed.

(** [new SafeVault(storage, options)] throws when there is no [window] and
    changes nothing then. Otherwise it returns, whatever is stored: the
    configured prefix is not empty, the store is the one that
    [cleanupExpired] leaves, entries that do not start with the prefix are
    as before, and nobody has been called. *)
Theorem constructor_sweeps_or_refuses (P : Platform) (o : Options) (s : State) :
  SafeVault.constructor P false o s = (s, Throw EnvironmentError) /\
  exists s' n,
    SafeVault.constructor P true o s = (s', Ret (SafeVault.configure o)) /\
    SafeVault.cleanupExpired P (SafeVault.configure o) (with_listeners ∅ s) = (s', Ret n) /\
    listeners s' = ∅ /\ log s' = log s /\ now s' = now s /\
    same_foreign (SafeVault.configure o) s s' /\
    prefix (SafeVault.configure o) <> "".
Proof.
  split; [reflexivity|].
  destruct (cleanupExpired_silent P (SafeVault.configure o) (with_listeners ∅ s))
    as (s' & n & Hrun & Hl & Ht & Hlog).
  exists s', n. split; [|split; [exact Hrun|]].
  - unfold SafeVault.constructor. simpl. unfold bind at 1 2. rewrite Hrun. reflexivity.
  - simpl in *. repeat split; try assumption.
    + apply (frame_cleanupExpired P (SafeVault.configure o)) in Hrun. exact Hrun.
    + simpl. unfold SafeVault.or_default. destruct (opt_prefix o) as [p|]; [|discriminate].
      destruct (String.eqb p "") eqn:E; [discriminate|]. now apply eqb_empty_false.
Qed.

(** * The registry of subscribers *)
Section Registry.
Implicit Types (key : string) (cb : Callback) (s : State).

Lemma with_listeners_same s : with_listeners (listeners s) s = s.
Proof. destruct s; reflexivity. Qed.

Lemma set_add_in cb cbs :
  existsb (fun x => Nat.eqb (cb_id x) (cb_id cb)) (SafeVault.set_add cb cbs) = true.
Proof.
  unfold SafeVault.set_add.
  destruct (existsb _ cbs) eqn:E; [exact E|].
  rewrite existsb_app. simpl. rewrite Nat.eqb_refl. now rewrite orb_true_r.
Qed.

Lemma set_add_twice cb cbs :
  SafeVault.set_add cb (SafeVault.set_add cb cbs) = SafeVault.set_add cb cbs.
Proof. unfold SafeVault.set_add at 1. now rewrite set_add_in. Qed.

Lemma set_delete_out cb cbs :
  existsb (fun x => Nat.eqb (cb_id x) (cb_id cb)) (SafeVault.set_delete cb cbs) = false.
Proof.
  unfold SafeVault.set_delete. induction cbs as [|x cbs IH]; simpl; [reflexivity|].
  destruct (Nat.eqb (cb_id x) (cb_id cb)) eqn:E; simpl; [exact IH|]. now rewrite E.
Qed.

Lemma set_delete_absent cb cbs :
  existsb (fun x => Nat.eqb (cb_id x) (cb_id cb)) cbs = false ->
  SafeVault.set_delete cb cbs = cbs.
Proof.
  unfold SafeVault.set_delete. induction cbs as [|x cbs IH]; simpl; [reflexivity|].
  destruct (Nat.eqb (cb_id x) (cb_id cb)); simpl; [discriminate|].
  intros H. now rewrite IH.
Qed.

Lemma set_delete_twice cb cbs :
  SafeVault.set_delete cb (SafeVault.set_delete cb cbs) = SafeVault.set_delete cb cbs.
Proof. apply set_delete_absent, set_delete_out. Qed.

Lemma set_delete_added cb cbs :
  existsb (fun x => Nat.eqb (cb_id x) (cb_id cb)) cbs = false ->
  SafeVault.set_delete cb (SafeVault.set_add cb cbs) = cbs.
Proof.
  intros H. unfold SafeVault.set_add. rewrite H.
  unfold SafeVault.set_delete. rewrite List.filter_app. simpl. rewrite Nat.eqb_refl. simpl.
  rewrite app_nil_r. now apply set_delete_absent.
Qed.

(** [subscribe] puts the callback into the set of the key. *)
Lemma subscribe_spec key cb s :
  SafeVault.subscribe key cb s
  = (with_listeners
       (<[key := SafeVault.set_add cb (default [] (listeners s !! key))]> (listeners s)) s,
     Ret tt).
Proof.
  unfold SafeVault.subscribe. destruct (listeners s !! key) as [cbs|] eqn:E; simpl.
  - rewrite E. reflexivity.
  - rewrite lookup_insert_eq. simpl. rewrite insert_insert_eq. reflexivity.
Qed.

(** The calls of one callback among the notifications of a key. *)
Lemma calls_of_notify id key v cbs :
  calls_of id (map (fun cb => EvNotify key (cb_id cb) v) cbs)
  = map (fun cb => EvNotify key (cb_id cb) v)
      (List.filter (fun x => Nat.eqb (cb_id x) id) cbs).
Proof.
  unfold calls_of. induction cbs as [|x cbs IH]; simpl; [reflexivity|].
  destruct (Nat.eqb (cb_id x) id); simpl; now rewrite IH.
Qed.

Lemma filter_id_absent cb cbs :
  existsb (fun x => Nat.eqb (cb_id x) (cb_id cb)) cbs = false ->
  List.filter (fun x => Nat.eqb (cb_id x) (cb_id cb)) cbs = [].
Proof.
  intros H. apply filter_none. intros x Hx.
  destruct (Nat.eqb (cb_id x) (cb_id cb)) eqn:E; [|reflexivity].
  assert (Hex : existsb (fun x => Nat.eqb (cb_id x) (cb_id cb)) cbs = true)
    by (apply existsb_exists; exists x; auto).
  congruence.
Qed.

Lemma calls_of_app id l l' : calls_of id (l ++ l') = (calls_of id l ++ calls_of id l')%list.
Proof. apply List.filter_app. Qed.
End Registry.

(** [subscribe(key, cb)] changes the registry only, and only the set of
    that key; the callback is registered afterwards, and subscribing it
    again changes nothing (a set holds a function once). If the callback
    was not registered before, every [set] of the key that then answers
    [true] calls it exactly once, with the new value. *)
Theorem subscribe_registers_once (P : Platform) (c : Config) (key : string)
    (cb : Callback) (s : State) :
  exists s1,
    SafeVault.subscribe key cb s = (s1, Ret tt) /\
    storage s1 = storage s /\ now s1 = now s /\ log s1 = log s /\
    (forall key', key' <> key -> listeners s1 !! key' = listeners s !! key') /\
    subscribed key cb s1 = true /\
    SafeVault.subscribe key cb s1 = (s1, Ret tt) /\
    (subscribed key cb s = false ->
     forall value ttl md s2,
       SafeVault.set P c key value ttl md s1 = (s2, Ret true) ->
       calls_of (cb_id cb) (log s2)
       = (calls_of (cb_id cb) (log s) ++ [EvNotify key (cb_id cb) value])%list).
Proof.
  rewrite subscribe_spec. eexists. split; [reflexivity|]. simpl.
  split; [reflexivity|]. split; [reflexivity|]. split; [reflexivity|]. split; [|split; [|split]].
  - intros key' Hne. now rewrite lookup_insert_ne.
  - unfold subscribed. simpl. rewrite lookup_insert_eq. simpl. apply set_add_in.
  - rewrite subscribe_spec. simpl. rewrite lookup_insert_eq. simpl.
    rewrite set_add_twice, insert_insert_eq. reflexivity.
  - unfold subscribed. intros Hnew value ttl md s2 Hset.
    apply (set_true_trace P c) in Hset. destruct Hset as (_ & Hlog & _).
    rewrite Hlog. simpl. rewrite calls_of_app. f_equal.
    unfold notifications. simpl. rewrite lookup_insert_eq. simpl.
    unfold SafeVault.set_add. rewrite Hnew.
    rewrite calls_of_notify, List.filter_app, (filter_id_absent cb _ Hnew). simpl.
    rewrite Nat.eqb_refl. reflexivity.
Qed.

(** A third subscriber for the token: the next [set] calls it once. *)
Lemma subscribe_registers_once_witness :
  calls_of 3
    (log (fst (SafeVault.set reference_platform default_config "token" (Json (JStr "new"))
                 None None
                 (fst (SafeVault.subscribe "token" (quiet_subscriber 3) token_watched)))))
  = [EvNotify "token" 3 (Json (JStr "new"))].
Proof.
  destruct (subscribe_registers_once reference_platform default_config "token"
              (quiet_subscriber 3) token_watched)
    as (s1 & Hsub & _ & _ & _ & _ & _ & _ & Hcalls).
  injection Hsub as <-.
  apply (Hcalls eq_refl (Json (JStr "new")) None None).
  vm_compute. reflexivity.
Defined.

(** The function that [subscribe(key, cb)] returns changes the registry
    only, and only the set of that key; the callback is not registered
    afterwards, calling the function again changes nothing, and no [set] of
    the key that then answers [true] calls the callback. It undoes the
    subscription: called right after a [subscribe] that added the callback
    to a registry without empty sets, it gives back the state before. *)
Theorem unsubscribe_stops_notifications (P : Platform) (c : Config) (key : string)
    (cb : Callback) (s : State) :
  exists s1,
    SafeVault.unsubscribe key cb s = (s1, Ret tt) /\
    storage s1 = storage s /\ now s1 = now s /\ log s1 = log s /\
    (forall key', key' <> key -> listeners s1 !! key' = listeners s !! key') /\
    subscribed key cb s1 = false /\
    SafeVault.unsubscribe key cb s1 = (s1, Ret tt) /\
    (forall value ttl md s2,
       SafeVault.set P c key value ttl md s1 = (s2, Ret true) ->
       calls_of (cb_id cb) (log s2) = calls_of (cb_id cb) (log s)) /\
    (forall s0,
       subscribed key cb s0 = false -> no_empty_set s0 ->
       SafeVault.subscribe key cb s0 = (s, Ret tt) ->
       s1 = s0).
Proof.
  assert (Hquiet : forall s1 : State,
            log s1 = log s -> subscribed key cb s1 = false ->
            forall value ttl md s2,
              SafeVault.set P c key value ttl md s1 = (s2, Ret true) ->
              calls_of (cb_id cb) (log s2) = calls_of (cb_id cb) (log s)).
  { intros s1 Hlog Hout value ttl md s2 Hset.
    apply (set_true_trace P c) in Hset. destruct Hset as (_ & Hlog2 & _).
    rewrite Hlog2, calls_of_app, Hlog. unfold notifications.
    rewrite calls_of_notify, (filter_id_absent cb _ Hout). simpl. apply app_nil_r. }
  assert (Hundo : forall (s0 : State) (L : gmap string (list Callback)),
            subscribed key cb s0 = false -> no_empty_set s0 ->
            SafeVault.subscribe key cb s0 = (s, Ret tt) ->
            (L = listeners s0) -> with_listeners L s = s0).
  { intros s0 L _ _ Hsub ->. rewrite subscribe_spec in Hsub. injection Hsub as <-.
    unfold with_listeners. simpl. destruct s0; reflexivity. }
  unfold SafeVault.unsubscribe.
  destruct (listeners s !! key) as [cbs|] eqn:Hcbs.
  - destruct (Nat.eqb (List.length (SafeVault.set_delete cb cbs)) 0) eqn:Hlen.
    + eexists. split; [reflexivity|]. simpl.
      split; [reflexivity|]. split; [reflexivity|]. split; [reflexivity|].
      split; [intros key' Hne; now rewrite lookup_delete_ne|].
      assert (Hout : subscribed key cb (with_listeners (delete key (listeners s)) s) = false)
        by (unfold subscribed; simpl; now rewrite lookup_delete_eq).
      split; [exact Hout|]. split; [|split].
      * rewrite lookup_delete_eq. reflexivity.
      * apply Hquiet; [reflexivity | exact Hout].
      * intros s0 Hnew Hne Hsub. apply (Hundo s0); try assumption.
        pose proof Hsub as Hsub'. rewrite subscribe_spec in Hsub'. injection Hsub' as <-.
        simpl in *. rewrite lookup_insert_eq in Hcbs. injection Hcbs as <-.
        unfold subscribed in Hnew. rewrite (set_delete_added cb _ Hnew) in Hlen.
        rewrite delete_insert_eq. apply delete_id.
        destruct (listeners s0 !! key) as [l|] eqn:E; [|reflexivity].
        simpl in Hlen. destruct l; [|discriminate]. exfalso. now apply (Hne key).
    + eexists. split; [reflexivity|]. simpl.
      split; [reflexivity|]. split; [reflexivity|]. split; [reflexivity|].
      split; [intros key' Hne; now rewrite lookup_insert_ne|].
      assert (Hout : subscribed key cb
                       (with_listeners (<[key := SafeVault.set_delete cb cbs]> (listeners s)) s)
                     = false).
      { unfold subscribed. simpl. rewrite lookup_insert_eq. simpl. apply set_delete_out. }
      split; [exact Hout|]. split; [|split].
      * rewrite lookup_insert_eq, set_delete_twice, Hlen, insert_insert_eq. reflexivity.
      * apply Hquiet; [reflexivity | exact Hout].
      * intros s0 Hnew Hne Hsub. apply (Hundo s0); try assumption.
        pose proof Hsub as Hsub'. rewrite subscribe_spec in Hsub'. injection Hsub' as <-.
        simpl in *. rewrite lookup_insert_eq in Hcbs. injection Hcbs as <-.
        unfold subscribed in Hnew. rewrite (set_delete_added cb _ Hnew) in *.
        rewrite insert_insert_eq. apply insert_id.
        destruct (listeners s0 !! key) as [l|] eqn:E; [reflexivity|discriminate].
  - exists s. split; [reflexivity|]. split; [reflexivity|]. split; [reflexivity|].
    split; [reflexivity|]. split; [reflexivity|].
    assert (Hout : subscribed key cb s = false) by (unfold subscribed; now rewrite Hcbs).
    split; [exact Hout|]. split; [|split].
    + now rewrite Hcbs.
    + apply Hquiet; [reflexivity | exact Hout].
    + intros s0 _ _ Hsub. rewrite subscribe_spec in Hsub. injection Hsub as <-.
      simpl in Hcbs. rewrite lookup_insert_eq in Hcbs. discriminate.
Qed.

(** The first subscriber of the token unsubscribes: the next [set] calls
    the others only. Unsubscribing the third right after it subscribed gives
    back the state before. *)
Lemma unsubscribe_stops_notifications_witness :
  log (fst (SafeVault.set reference_platform default_config "token" (Json (JStr "new"))
              None None token_rewatched))
  = [EvNotify "token" 2 (Json (JStr "new")); EvNotify "token" 3 (Json (JStr "new"))]
  /\
  fst (SafeVault.unsubscribe "token" (quiet_subscriber 3)
         (fst (SafeVault.subscribe "token" (quiet_subscriber 3) token_watched)))
  = token_watched.
Proof.
  split; [vm_compute; reflexivity|].
  destruct (unsubscribe_stops_notifications reference_platform default_config "token"
              (quiet_subscriber 3)
              (fst (SafeVault.subscribe "token" (quiet_subscriber 3) token_watched)))
    as (s1 & Hrun & _ & _ & _ & _ & _ & _ & _ & Hundo).
  rewrite Hrun. simpl. apply Hundo.
  - reflexivity.
  - assert (Hreg : listeners token_watched
                   = <["token" := [quiet_subscriber 1; quiet_subscriber 2]]> ∅)
      by (vm_compute; reflexivity).
    intros key. rewrite Hreg. destruct (decide (key = "token")) as [->|Hne].
    + rewrite lookup_insert_eq. discriminate.
    + rewrite lookup_insert_ne by congruence. rewrite lookup_empty. discriminate.
  - rewrite subscribe_spec. reflexivity.
Defined.

(** * [import], [entries] and [export], and the version *)
Section Batch.
Variable P : Platform.
Variable c : Config.

(** The loop of [import] leaves alone every key that it does not write. *)
Lemma import_loop_keeps key pairs :
  ~ In key (map fst pairs) ->
  stays (fun s s' => Storage.getItem (SafeVault.getKey c key) (storage s')
                     = Storage.getItem (SafeVault.getKey c key) (storage s))
    (forEach (fun kv : string * JSON =>
                bind (SafeVault.set P c (fst kv) (Json (snd kv)) None None) (fun _ => ret tt))
       pairs).
Proof.
  intros Hout. apply stays_forEach.
  - reflexivity.
  - intros s1 s2 s3 H12 H23. now rewrite H23.
  - intros kv Hkv s s' r. unfold bind.
    destruct (SafeVault.set P c (fst kv) (Json (snd kv)) None None s) as [s1 [b|e]] eqn:Hset;
      intros [= <- _]; apply (one_set P c) in Hset; destruct Hset as (_ & _ & _ & Hg);
      apply Hg; intros Heq; apply getKey_inj in Heq; apply Hout; rewrite Heq;
      apply in_map; exact Hkv.
Qed.

(** Two sequences with the same first step, two [try] blocks with the
    same handler. *)
Lemma bind_same_start {A B} (m : M A) (f g : A -> M B) s :
  (forall a s', f a s' = g a s') -> bind m f s = bind m g s.
Proof. intros H. unfold bind. destruct (m s) as [s' [a|e]]; [apply H | reflexivity]. Qed.

Lemma try_catch_same_handler {A} (m m' : M A) (h : Exn -> M A) s :
  m s = m' s -> try_catch m h s = try_catch m' h s.
Proof. intros H. unfold try_catch. now rewrite H. Qed.

(** [get] on an entry of a store whose records are all found not expired. *)
Lemma get_stored_value s k raw :
  well_formed (storage s) ->
  all_unexpired P c (now s) (storage s) ->
  In (k, raw) (owned_entries c (storage s)) ->
  SafeVault.get P c (strip c k) s = (s, Ret (stored_value P c raw)).
Proof.
  intros Hwf Hlive Hin. destruct (Hlive k raw Hin) as (d & Hread & expiry & Hexp & Hnot).
  unfold owned_entries in Hin. apply List.filter_In in Hin. destruct Hin as [Hin Ho].
  simpl in Ho.
  assert (Hget : Storage.getItem (SafeVault.getKey c (strip c k)) (storage s) = Some raw)
    by (rewrite (owns_prefixed c k Ho); now apply assoc_in).
  destruct (get_live P c (strip c k) s raw d expiry Hget Hread Hexp Hnot) as (v & Hv & Hg).
  rewrite Hg. do 2 f_equal.
  destruct Hread as (_ & text & Hdec & Hparse). unfold stored_value. rewrite Hdec, Hparse.
  destruct d; simpl in Hv; try (injection Hv as <-; reflexivity). discriminate.
Qed.
End Batch.

(** When the text parses and the parsed value has entries (it is not
    [null]) and the error hook returns, [import] answers [true] whatever
    happens to the single writes: the answer of each [set] is dropped, so a
    write that fails (the quota) is reported by [set] and does not show in
    the answer. With [merge] the keys that the text does not name read as
    before. *)
Theorem import_answers_true_unchecked (P : Platform) (c : Config) (text : string)
    (merge : bool) (d : JSON) (pairs : list (string * JSON)) (s : State) :
  hook_returns c ->
  JSON_parse P text = Some d ->
  Object_entries d = Ret pairs ->
  exists s',
    SafeVault.import P c text merge s = (s', Ret true) /\
    (merge = true ->
     forall key, ~ In key (map fst pairs) ->
       Storage.getItem (SafeVault.getKey c key) (storage s')
       = Storage.getItem (SafeVault.getKey c key) (storage s)).
Proof.
  intros Hhook Hparse Hentries.
  assert (Hloop : forall s0, exists s',
            forEach (fun kv : string * JSON =>
                       bind (SafeVault.set P c (fst kv) (Json (snd kv)) None None)
                         (fun _ => ret tt)) pairs s0 = (s', Ret tt)).
  { intros s0.
    destruct (returns_forEach
                (fun kv : string * JSON =>
                   bind (SafeVault.set P c (fst kv) (Json (snd kv)) None None)
                     (fun _ => ret tt)) pairs) with (s := s0) as (s' & [] & H).
    - intros kv. apply returns_bind; [now apply returns_set | intros _; apply returns_ret].
    - exists s'. exact H. }
  assert (Hstep : forall b s0,
            SafeVault.import P c text b s0
            = try_catch
                ((if negb b then SafeVault.clear c else ret tt) ;;
                 pairs <- lift (Object_entries d) ;;
                 forEach (fun kv : string * JSON =>
                            SafeVault.set P c (fst kv) (Json (snd kv)) None None ;; ret tt)
                   pairs ;;
                 ret true)
                (fun error => SafeVault.handleError c error "import" "batch" ;; ret false) s0).
  { intros b s0.
    unfold SafeVault.import, try_catch, bind at 1, lift at 1, SafeVault.parse.
    rewrite Hparse. reflexivity. }
  assert (Hbody : forall s0, exists s',
            SafeVault.import P c text true s0 = (s', Ret true) /\
            forall key, ~ In key (map fst pairs) ->
              Storage.getItem (SafeVault.getKey c key) (storage s')
              = Storage.getItem (SafeVault.getKey c key) (storage s0)).
  { intros s0. destruct (Hloop s0) as (s' & Hrun). exists s'. split.
    - rewrite Hstep. simpl negb. cbv iota.
      rewrite (try_bind_ret_step (ret tt) _ _ _ _ tt eq_refl).
      rewrite (try_bind_ret_step _ _ _ s0 s0 pairs) by (unfold lift; now rewrite Hentries).
      rewrite (try_bind_ret_step _ _ _ s0 s' tt Hrun). reflexivity.
    - intros key Hout. exact (import_loop_keeps P c key pairs Hout s0 s' _ Hrun). }
  destruct merge.
  - destruct (Hbody s) as (s' & Hrun & Hkeep). exists s'. split; [exact Hrun|].
    intros _. exact Hkeep.
  - destruct (Hbody (fst (SafeVault.clear c s))) as (s' & Hrun & _). exists s'.
    split; [|discriminate]. rewrite <- Hrun.
    rewrite !Hstep. simpl negb. cbv iota.
    rewrite (try_bind_ret_step _ _ _ s _ tt (clear_spec c s)).
    rewrite clear_spec. simpl fst.
    now rewrite (try_bind_ret_step (ret tt) _ _ _ _ tt eq_refl).
Qed.

(** A store without room: [import] answers [true], nothing is stored, and
    the two failed writes were reported by [set]. *)
Lemma import_answers_true_unchecked_witness :
  exists s',
    SafeVault.import reference_platform default_config backup_text true cramped
    = (s', Ret true) /\
    Storage.items (storage s') = [] /\
    log s' = [EvConsoleError "set" "a" QuotaExceededError;
              EvConsoleError "set" "b" QuotaExceededError].
Proof.
  destruct (import_answers_true_unchecked reference_platform default_config backup_text true
              (JObj [("a", JNum 1); ("b", JStr "x")]) [("a", JNum 1); ("b", JStr "x")] cramped
              default_hook_returns) as (s' & Hrun & _).
  - vm_compute. reflexivity.
  - reflexivity.
  - exists s'. split; [exact Hrun|].
    assert (Hs : s' = fst (SafeVault.import reference_platform default_config backup_text true
                             cramped)) by (rewrite Hrun; reflexivity).
    rewrite Hs. split; vm_compute; reflexivity.
Defined.

(** In a host store that holds each key once and in which every entry of
    the vault holds a record that the test of the expiry finds not expired,
    [entries()] changes nothing and lists, in the store's order, each key of
    the vault with the value of its record, leaving out the records whose
    value is [null]; [export()] changes nothing either and answers the
    serialization of that list. *)
Theorem entries_lists_live_values (P : Platform) (c : Config) (s : State) :
  well_formed (storage s) ->
  all_unexpired P c (now s) (storage s) ->
  SafeVault.entries P c s
  = (s, Ret (List.filter (fun kv => negb (is_null (snd kv)))
               (map (fun kv : string * string => (strip c (fst kv), stored_value P c (snd kv)))
                  (owned_entries c (storage s))))) /\
  SafeVault.export P c s
  = (s, Ret (JSON_stringify_entries P
               (List.filter (fun kv => negb (is_null (snd kv)))
                  (map (fun kv : string * string =>
                          (strip c (fst kv), stored_value P c (snd kv)))
                     (owned_entries c (storage s)))))).
Proof.
  intros Hwf Hlive.
  assert (Hentries :
    SafeVault.entries P c s
    = (s, Ret (List.filter (fun kv => negb (is_null (snd kv)))
                 (map (fun kv : string * string =>
                         (strip c (fst kv), stored_value P c (snd kv)))
                    (owned_entries c (storage s)))))).
  { unfold SafeVault.entries, bind at 1. rewrite keys_spec. unfold bind at 1.
    unfold owned_keys. rewrite filter_map_fst. fold (owned_entries c (storage s)).
    rewrite !map_map.
    set (g := fun kv : string * string => (strip c (fst kv), stored_value P c (snd kv))).
    assert (Hmap : forall l s0,
              (forall kv, In kv l ->
                 SafeVault.get P c (strip c (fst kv)) s0 = (s0, Ret (stored_value P c (snd kv)))) ->
              mapM (fun key => bind (SafeVault.get P c key) (fun value => ret (key, value)))
                (map (fun kv : string * string => strip c (fst kv)) l) s0
              = (s0, Ret (map g l))).
    { induction l as [|kv l IH]; intros s0 H; simpl; [reflexivity|].
      unfold bind at 1 2. rewrite (H kv) by (left; reflexivity). unfold ret at 1.
      unfold bind at 1. rewrite IH by (intros y Hy; apply H; now right). reflexivity. }
    rewrite Hmap; [reflexivity|].
    intros [k raw] Hin. simpl. now apply get_stored_value. }
  split; [exact Hentries|].
  unfold SafeVault.export, bind. rewrite Hentries. reflexivity.
Qed.

Lemma both_stored_well_formed : well_formed (storage both_stored).
Proof. apply (bool_decide_unpack _). vm_compute. exact I. Defined.

Lemma both_stored_all_unexpired :
  all_unexpired reference_platform default_config 500 (storage both_stored).
Proof.
  intros k raw Hin. vm_compute in Hin.
  destruct Hin as [Hin|[Hin|[]]]; injection Hin as <- <-.
  - exists token_record. split; [|exact token_unexpired].
    split; [discriminate|]. eexists. split; [reflexivity | vm_compute; reflexivity].
  - exists (record default_config 0 (Json (JObj [("id", JNum 1)])) None None).
    split; [|exists null; split; reflexivity].
    split; [discriminate|]. eexists. split; [reflexivity | vm_compute; reflexivity].
Defined.

(** The store with the token and the user at time 500. *)
Lemma entries_lists_live_values_witness :
  SafeVault.entries reference_platform default_config (at_time 500 both_stored)
  = (at_time 500 both_stored,
     Ret [("token", Json (JStr "abc123")); ("user", Json (JObj [("id", JNum 1)]))]).
Proof.
  exact (proj1 (entries_lists_live_values reference_platform default_config
                  (at_time 500 both_stored) both_stored_well_formed both_stored_all_unexpired)).
Defined.

(** The version of the vault plays no part in reading: [get], [has],
    [getOrDefault], [getTTL] and [getMetadata] do the same under any version
    string, so a record written under another version is read like any
    other. *)
Theorem reading_ignores_the_version (P : Platform) (c : Config) (ver : string)
    (key : string) (s : State) :
  SafeVault.get P (with_version ver c) key s = SafeVault.get P c key s /\
  SafeVault.has P (with_version ver c) key s = SafeVault.has P c key s /\
  (forall dflt,
     SafeVault.getOrDefault P (with_version ver c) key dflt s
     = SafeVault.getOrDefault P c key dflt s) /\
  SafeVault.getTTL P (with_version ver c) key s = SafeVault.getTTL P c key s /\
  SafeVault.getMetadata P (with_version ver c) key s = SafeVault.getMetadata P c key s.
Proof.
  assert (Hget : SafeVault.get P (with_version ver c) key s = SafeVault.get P c key s).
  { unfold SafeVault.get. apply try_catch_same_handler.
    apply bind_same_start. intros item s1. destruct (no_item item); [reflexivity|].
    apply bind_same_start. intros decrypted s2.
    apply bind_same_start. intros data s3.
    apply bind_same_start. intros expiry s4.
    apply bind_same_start. intros t s5.
    apply bind_same_start. intros due s6'. destruct due; [reflexivity|].
    apply bind_same_start. intros v s6.
    destruct (truthy v && differs_from_string v (version (with_version ver c)));
      destruct (truthy v && differs_from_string v (version c)); reflexivity. }
  split; [exact Hget|]. split; [|split; [|split]].
  - unfold SafeVault.has, bind. now rewrite Hget.
  - intros dflt. unfold SafeVault.getOrDefault, bind. now rewrite Hget.
  - reflexivity.
  - reflexivity.
Qed.

(** * Edges: a cipher, a subscriber that throws, a time to live that is
    not positive, reading after [import] *)
Section Edges.
Variable P : Platform.
Variable c : Config.

(** The round of notifications stops at the first subscriber that
    throws. *)
Lemma call_each_stops key v before cb after e s :
  (forall x, In x before -> cb_run x v = Ret tt) ->
  cb_run cb v = Throw e ->
  SafeVault.call_each key v (before ++ cb :: after) s
  = (with_log (log s ++ map (fun x => EvNotify key (cb_id x) v) (before ++ [cb])) s, Throw e).
Proof.
  revert s. induction before as [|x before IH]; intros s Hret Hthrow; simpl.
  - unfold bind, emit, lift. simpl. rewrite Hthrow. reflexivity.
  - unfold bind at 1 2, emit, lift at 1. simpl. rewrite (Hret x) by (left; reflexivity).
    rewrite IH by (try assumption; intros y Hy; apply Hret; now right).
    unfold with_log. simpl. rewrite <- app_assoc. reflexivity.
Qed.

(** With a decode function that undoes the encode function, the codec
    round-trips on every record that [JSON.parse] reads back. *)
Lemma inverse_coding_round_trips d :
  inverse_coding c ->
  JSON_parse P (JSON_stringify P d) = Some d ->
  round_trips P c d.
Proof.
  intros Hinv Hparse raw Hw. destruct (Hinv _ raw Hw) as [Hne Hdec].
  split; [exact Hne|]. exists (JSON_stringify P d). split; [exact Hdec | exact Hparse].
Qed.
End Edges.

(** With a cipher whose decrypt function undoes its encrypt function (and
    whose output is never empty): what a successful [set] stores under the
    namespaced key is the encrypted serialization of the record, and [get]
    answers the value as long as the record is not expired. *)
Theorem cipher_set_get (P : Platform) (c : Config) (key : string) (value : JSVal)
    (ttl : option Z) (md : option JSON) (s s1 : State) :
  inverse_coding c ->
  JSON_parse P (JSON_stringify P (record c (now s) value ttl md))
  = Some (record c (now s) value ttl md) ->
  SafeVault.set P c key value ttl md s = (s1, Ret true) ->
  (exists raw,
     SafeVault.encode c (JSON_stringify P (record c (now s) value ttl md)) = Ret raw /\
     Storage.getItem (SafeVault.getKey c key) (storage s1) = Some raw)
  /\
  (forall t,
     live P t (record c (now s) value ttl md) ->
     SafeVault.get P c key (at_time t s1) = (at_time t s1, Ret value)).
Proof.
  intros Hinv Hparse Hset.
  pose proof (inverse_coding_round_trips P c _ Hinv Hparse) as Hrt.
  destruct (set_true_stored P c key _ _ _ s s1 Hset) as (raw & Hw & Hget & _ & _).
  split; [exists raw; split; [exact Hw | exact Hget]|].
  intros t Hlive.
  destruct (holds_live_get P c key (at_time t s1) (record c (now s) value ttl md))
    as (v & Hv & Hg).
  - exists raw. split; [exact Hget | exact (Hrt raw Hw)].
  - apply (record_unexpired P c). exact Hlive.
  - unfold record in Hv. rewrite envelope_value in Hv. injection Hv as <-. exact Hg.
Qed.

Lemma marking_inverse : inverse_coding marking_config.
Proof.
  intros text raw H. simpl in H. injection H as <-. split; [discriminate|reflexivity].
Defined.

(** The token stored through the marking cipher: the store holds the
    marked text, [get] answers the value. *)
Lemma cipher_set_get_witness :
  Storage.getItem "sv_token" (storage token_marked)
  = Some (String "#" (RefJSON.stringify token_record)) /\
  SafeVault.get reference_platform marking_config "token" (at_time 500 token_marked)
  = (at_time 500 token_marked, Ret (Json (JStr "abc123"))).
Proof.
  destruct (cipher_set_get reference_platform marking_config "token" (Json (JStr "abc123"))
              (Some 1000) None fresh token_marked marking_inverse)
    as ((raw & Henc & Hget) & Hread).
  - vm_compute. reflexivity.
  - vm_compute. reflexivity.
  - split.
    + simpl in Henc. injection Henc as <-. exact Hget.
    + apply Hread. exact token_live.
Defined.

(** The subscribers of a key are called in the order of subscription, and
    the first one that throws ends the round: the later ones are not
    called. In [set] the record is written before the round, so after such a
    round [set] answers [false] although the record is stored, and reports
    what was thrown. *)
Theorem throwing_subscriber_ends_the_round (P : Platform) (c : Config) (key : string)
    (value : JSVal) (ttl : option Z) (md : option JSON) (s : State)
    (before after : list Callback) (cb : Callback) (e : Exn) (st : Storage.t) :
  listeners s !! key = Some (before ++ cb :: after)%list ->
  (forall x, In x before -> cb_run x value = Ret tt) ->
  cb_run cb value = Throw e ->
  hook_returns c ->
  write P c key (record c (now s) value ttl md) (storage s) = Ret st ->
  SafeVault.set P c key value ttl md s
  = (with_log (log s ++ map (fun x => EvNotify key (cb_id x) value) (before ++ [cb])
               ++ [report c e "set" key])
       (with_storage st s),
     Ret false).
Proof.
  intros Hreg Hret Hthrow Hhook Hw.
  rewrite set_unfold, Hw. unfold SafeVault.notifyListeners. simpl. rewrite Hreg.
  rewrite (call_each_stops key value before cb after e _ Hret Hthrow).
  unfold bind. rewrite (handleError_returns c e "set" key _ Hhook).
  unfold ret, with_log, with_storage. simpl. rewrite <- app_assoc. reflexivity.
Qed.

(** Three subscribers of the token, the second throws: the third is not
    called. *)
Lemma throwing_subscriber_ends_the_round_witness :
  log (fst (SafeVault.set reference_platform default_config "token" (Json (JStr "new")) None
              None token_three))
  = [EvNotify "token" 1 (Json (JStr "new")); EvNotify "token" 2 (Json (JStr "new"));
     EvConsoleError "set" "token" (UserError "subscriber failed")] /\
  snd (SafeVault.set reference_platform default_config "token" (Json (JStr "new")) None
         None token_three) = Ret false /\
  Storage.getItem "sv_token"
    (storage (fst (SafeVault.set reference_platform default_config "token" (Json (JStr "new"))
                     None None token_three)))
  = Some (RefJSON.stringify (envelope (Json (JStr "new")) JNull "1.0.0" None)).
Proof.
  rewrite (throwing_subscriber_ends_the_round reference_platform default_config "token"
             (Json (JStr "new")) None None token_three [quiet_subscriber 1]
             [quiet_subscriber 3] (throwing_subscriber 2) (UserError "subscriber failed")
             {| Storage.items :=
                  [("sv_token",
                    RefJSON.stringify (envelope (Json (JStr "new")) JNull "1.0.0" None))];
                Storage.capacity := None |}).
  - repeat split; vm_compute; reflexivity.
  - assert (Hreg : listeners token_three
                   = <["token" := [quiet_subscriber 1; throwing_subscriber 2;
                                   quiet_subscriber 3]]> ∅)
      by (vm_compute; reflexivity).
    rewrite Hreg. apply lookup_insert_eq.
  - intros x [<-|[]]. reflexivity.
  - reflexivity.
  - exact default_hook_returns.
  - vm_compute. reflexivity.
Defined.

(** A time to live that is not positive. After a successful [set] with a
    negative time to live the record is expired at once: the next [get], at
    the same time or later, answers [null] and deletes the key. With a time
    to live of [0] the value is read as long as the clock shows the time of
    the write, and is expired as soon as it moves on. *)
Theorem ttl_not_positive (P : Platform) (c : Config) (key : string) (value : JSVal)
    (T : Z) (md : option JSON) (s s1 : State) :
  T <= 0 ->
  hook_returns c ->
  round_trips P c (record c (now s) value (Some T) md) ->
  SafeVault.set P c key value (Some T) md s = (s1, Ret true) ->
  (T = 0 -> SafeVault.get P c key s1 = (s1, Ret value)) /\
  (forall t, now s <= t -> T < 0 \/ now s < t ->
     exists s2,
       SafeVault.get P c key (at_time t s1) = (s2, Ret null) /\
       Storage.getItem (SafeVault.getKey c key) (storage s2) = None).
Proof.
  intros HT Hhook Hrt Hset.
  pose proof (set_true_holds P c key value (Some T) md s s1 Hrt Hset) as Hh.
  destruct (set_true_stored P c key _ _ _ s s1 Hset) as (_ & _ & _ & _ & Hnow).
  split.
  - intros ->. destruct (holds_live_get P c key s1 _ Hh) as (v & Hv & Hg).
    + exists (Json (JNum (now s + 0))). split; [apply envelope_expiry|].
      rewrite check_expiry_number, Hnow. f_equal. apply Z.ltb_ge. lia.
    + unfold record in Hv. rewrite envelope_value in Hv. injection Hv as <-. exact Hg.
  - intros t Ht Hpast.
    destruct (holds_lapsed_get P c key (at_time t s1) _ (holds_at_time P c t s1 key _ Hh))
      as (s2 & Hg & Hs & _).
    + exists (Json (JNum (now s + T))). split; [apply envelope_expiry|].
      rewrite expired_number. simpl. apply Z.ltb_lt. lia.
    + exact Hhook.
    + exists s2. split; [exact Hg|]. rewrite Hs. apply getItem_removeItem_eq.
Qed.

(** The token stored with a time to live of -5 ms: gone at the first
    [get]. *)
Lemma ttl_not_positive_witness :
  exists s2,
    SafeVault.get reference_platform default_config "token" (at_time 0 token_stillborn)
    = (s2, Ret null) /\
    Storage.getItem "sv_token" (storage s2) = None.
Proof.
  destruct (ttl_not_positive reference_platform default_config "token" (Json (JStr "abc123"))
              (-5) None fresh token_stillborn) as (_ & Hgone).
  - lia.
  - exact default_hook_returns.
  - apply reference_round_trips; [exact default_identity_coding | reflexivity].
  - vm_compute. reflexivity.
  - apply (Hgone 0); [simpl; lia | left; lia].
Defined.

(** Reading after [import]: when the text parses to an object with
    distinct keys, the store has room, the hook returns and the codec
    writes the records and reads them back, then after [import] every
    imported key reads as its imported value at any later time, has no time
    to live and no metadata. *)
Theorem import_then_get (P : Platform) (c : Config) (text : string) (merge : bool)
    (d : JSON) (pairs : list (string * JSON)) (s : State) :
  hook_returns c ->
  JSON_parse P text = Some d ->
  Object_entries d = Ret pairs ->
  NoDup (map fst pairs) ->
  Storage.capacity (storage s) = None ->
  (forall k v, In (k, v) pairs -> storable P c (envelope (Json v) JNull (version c) None)) ->
  exists s',
    SafeVault.import P c text merge s = (s', Ret true) /\
    forall k v t,
      In (k, v) pairs ->
      SafeVault.get P c k (at_time t s') = (at_time t s', Ret (Json v)) /\
      SafeVault.getTTL P c k (at_time t s') = (at_time t s', Ret None) /\
      SafeVault.getMetadata P c k (at_time t s') = (at_time t s', Ret null).
Proof.
  intros Hhook Hparse Hentries Hnd Hcap Hrt.
  assert (Hstep : forall b s0,
            SafeVault.import P c text b s0
            = try_catch
                ((if negb b then SafeVault.clear c else ret tt) ;;
                 pairs <- lift (Object_entries d) ;;
                 forEach (fun kv : string * JSON =>
                            SafeVault.set P c (fst kv) (Json (snd kv)) None None ;; ret tt)
                   pairs ;;
                 ret true)
                (fun error => SafeVault.handleError c error "import" "batch" ;; ret false) s0).
  { intros b s0.
    unfold SafeVault.import, try_catch, bind at 1, lift at 1, SafeVault.parse.
    rewrite Hparse. reflexivity. }
  assert (Hbody : forall s0, Storage.capacity (storage s0) = None ->
            exists s',
              SafeVault.import P c text true s0 = (s', Ret true) /\
              forall k v, In (k, v) pairs ->
                holds P c s' k (envelope (Json v) JNull (version c) None)).
  { intros s0 Hcap0.
    destruct (import_loop P c Hhook pairs Hnd s0 Hcap0) as (s' & Hloop & _ & _ & Hhas).
    exists s'. split.
    - rewrite Hstep. simpl negb. cbv iota.
      rewrite (try_bind_ret_step (ret tt) _ _ _ _ tt eq_refl).
      rewrite (try_bind_ret_step _ _ _ s0 s0 pairs) by (unfold lift; now rewrite Hentries).
      rewrite (try_bind_ret_step _ _ _ s0 s' tt Hloop). reflexivity.
    - intros k v Hin.
      destruct (Hrt k v Hin) as (raw & Hw & Hr). exists raw.
      split; [now apply (Hhas k v raw) | exact Hr]. }
  assert (Hread : forall s' : State,
            (forall k v, In (k, v) pairs ->
               holds P c s' k (envelope (Json v) JNull (version c) None)) ->
            forall k v t, In (k, v) pairs ->
              SafeVault.get P c k (at_time t s') = (at_time t s', Ret (Json v)) /\
              SafeVault.getTTL P c k (at_time t s') = (at_time t s', Ret None) /\
              SafeVault.getMetadata P c k (at_time t s') = (at_time t s', Ret null)).
  { intros s' Hh k v t Hin. specialize (Hh k v Hin).
    pose proof (holds_at_time P c t s' k _ Hh) as Hh'. split; [|split].
    - destruct (holds_live_get P c k (at_time t s') _ Hh') as (v' & Hv' & Hg).
      + exists null. split; [apply envelope_expiry | reflexivity].
      + rewrite envelope_value in Hv'. injection Hv' as <-. exact Hg.
    - apply (getTTL_null P c k (at_time t s') _ Hh'). apply envelope_expiry.
    - rewrite (getMetadata_holds P c k (at_time t s') _ _ Hh' (envelope_metadata _ _ _ _)).
      reflexivity. }
  destruct merge.
  - destruct (Hbody s Hcap) as (s' & Hrun & Hh). exists s'. split; [exact Hrun|].
    now apply Hread.
  - destruct (Hbody (fst (SafeVault.clear c s))) as (s' & Hrun & Hh).
    + rewrite clear_spec. simpl. rewrite remove_all_capacity. exact Hcap.
    + exists s'. split; [|now apply Hread]. rewrite <- Hrun.
      rewrite !Hstep. simpl negb. cbv iota.
      rewrite (try_bind_ret_step _ _ _ s _ tt (clear_spec c s)).
      rewrite clear_spec. simpl fst.
      now rewrite (try_bind_ret_step (ret tt) _ _ _ _ tt eq_refl).
Qed.

Lemma reference_storable (d : JSON) :
  RefJSON.normalize d = d -> storable reference_platform default_config d.
Proof.
  intros Hd. exists (RefJSON.stringify d). split; [reflexivity|].
  apply reference_round_trips; [exact default_identity_coding | exact Hd | reflexivity].
Defined.

(** Importing the text of [{a: 1, b: x}] with [merge] into the store that
    holds the token: both keys read as imported, a day later as well. *)
Lemma import_then_get_witness :
  exists s',
    SafeVault.import reference_platform default_config backup_text true token_stored
    = (s', Ret true) /\
    SafeVault.get reference_platform default_config "a" (at_time 86400000 s')
    = (at_time 86400000 s', Ret (Json (JNum 1))) /\
    SafeVault.get reference_platform default_config "b" (at_time 86400000 s')
    = (at_time 86400000 s', Ret (Json (JStr "x"))) /\
    SafeVault.getTTL reference_platform default_config "b" (at_time 86400000 s')
    = (at_time 86400000 s', Ret None).
Proof.
  destruct (import_then_get reference_platform default_config backup_text true
              (JObj [("a", JNum 1); ("b", JStr "x")]) [("a", JNum 1); ("b", JStr "x")]
              token_stored default_hook_returns) as (s' & Hrun & Hread).
  - vm_compute. reflexivity.
  - reflexivity.
  - apply (bool_decide_unpack _). vm_compute. exact I.
  - reflexivity.
  - intros k v [[= <- <-]|[[= <- <-]|[]]]; apply reference_storable; reflexivity.
  - exists s'. split; [exact Hrun|].
    destruct (Hread "a" (JNum 1) 86400000 (or_introl eq_refl)) as (Ha & _).
    destruct (Hread "b" (JStr "x") 86400000 (or_intror (or_introl eq_refl))) as (Hb & Ht & _).
    auto.
Defined.
